(** * hpp-manipulation: graph path validation and the manipulation planner

    A shallow embedding of [src/graph-path-validation.cc] and
    [src/manipulation-planner.cc].

    Conventions of the embedding.

    - The classes of hpp-core and of the constraint graph that the two files
      only call (paths, the collision path validation, the steering method,
      the path projector, the constraint graph and its edges) are interfaces:
      each is a type class whose fields are the member functions the source
      calls.  Nothing is assumed about an implementation beyond its type.
    - A C++ exception is a value of [exn]; a computation that may throw
      returns an [outcome].  Member functions that mutate the planner or the
      roadmap are state transformers in the monad [PlannerM].
    - [assert (c)] is compiled out when [NDEBUG] is defined.  The model takes
      [NDEBUG] as a boolean parameter: with [NDEBUG = false] a failed
      assertion ends the computation with [assertion_failed].
    - [value_type] (a C++ [double]) is a parameter together with the
      operations the source applies to it.  Counters and identifiers
      ([std::size_t]) are natural numbers and the indices of
      [indexPerEdgeStatistics_] integers, without bound: no run of the
      planner counts up to the width of the machine word. *)

From Stdlib Require Import ZArith QArith Qabs String Bool Lia.
From stdpp Require Import base list.

Set Default Proof Using "Type".
Set Warnings "-register-all".
Local Open Scope nat_scope.

(** ** Exceptions and outcomes *)

Inductive exn : Type :=
| logic_error                       (* std::logic_error: no node for a configuration *)
| projection_error                  (* hpp::core::projection_error *)
| bad_cast                          (* std::bad_cast of a failed reference cast *)
| invalid_argument (what : string)  (* std::invalid_argument *)
| null_dereference                  (* a null shared pointer is dereferenced *)
| assertion_failed.                 (* a failed assert, NDEBUG undefined *)

Inductive outcome (A : Type) : Type :=
| Ret (a : A)
| Throw (e : exn)
| Diverge.                          (* the recursion budget of the model ran out *)

Arguments Ret {A} a.
Arguments Throw {A} e.
Arguments Diverge {A}.

Definition bindO {A B : Type} (m : outcome A) (k : A -> outcome B) : outcome B :=
  match m with
  | Ret a => k a
  | Throw e => Throw e
  | Diverge => Diverge
  end.

Declare Scope outcome_scope.
Delimit Scope outcome_scope with O.
Notation "x <- m ;; k" := (bindO m (fun x => k))
  (at level 100, m at next level, right associativity) : outcome_scope.

(** [assert (c)] under a given setting of [NDEBUG]. *)
Definition assertO (NDEBUG c : bool) : outcome unit :=
  if NDEBUG || c then Ret tt else Throw assertion_failed.

(** ** Paths

    [core::Path] is polymorphic over leaf paths and [core::PathVector].  The
    dynamic cast [HPP_DYNAMIC_PTR_CAST (PathVector, path)] is the match on the
    constructor.  A [PathVector] is built by [PathVector::create (outputSize)]
    followed by [appendPath]. *)

Inductive Path (Leaf : Type) : Type :=
| LeafPath (l : Leaf)
| PathVector (outputSize : nat) (paths : list (Path Leaf)).

Arguments LeafPath {Leaf} l.
Arguments PathVector {Leaf} outputSize paths.

Definition numberPaths {Leaf} (paths : list (Path Leaf)) : nat := List.length paths.
Definition pathAtRank {Leaf} (paths : list (Path Leaf)) (i : nat) : option (Path Leaf) :=
  paths !! i.
Definition appendPath {Leaf} (p : list (Path Leaf)) (q : Path Leaf) : list (Path Leaf) :=
  p ++ [q].

(** The member functions of [core::Path] that the sources call. *)
Class PathInterface (value_type Configuration ConstraintSet Leaf : Type) := {
  (* path->timeRange (): (first, second) *)
  timeRange : Path Leaf -> value_type * value_type;
  (* path->length () *)
  pathLength : Path Leaf -> value_type;
  (* operator(): the configuration at parameter t *)
  eval : Path Leaf -> value_type -> Configuration;
  (* path->extract (interval); None when it throws projection_error *)
  extract : Path Leaf -> value_type * value_type -> option (Path Leaf);
  (* path->copy () *)
  copy : Path Leaf -> Path Leaf;
  (* path->constraints (c): the path once the constraints are attached *)
  constraints : Path Leaf -> ConstraintSet -> Path Leaf
}.

(** The constraint graph as the validator queries it. *)
Class GraphInterface (Configuration ConstraintSet GraphNode GraphEdge : Type) := {
  (* graph->getNode (q); None when it throws std::logic_error *)
  getNode : Configuration -> option (list GraphNode);
  (* graph->getEdge (from, to) *)
  getEdge : list GraphNode -> list GraphNode -> list (list GraphEdge);
  (* graph->pathConstraint (edges) *)
  pathConstraint : list GraphEdge -> ConstraintSet;
  (* constraints->offsetFromConfig (q): the constraint set afterwards *)
  offsetFromConfig : ConstraintSet -> Configuration -> ConstraintSet;
  (* constraints->isSatisfied (q) *)
  isSatisfied : ConstraintSet -> Configuration -> bool
}.

(** [core::PathValidation::validate (path, reverse, validPart)]: the returned
    boolean and the value left in [validPart]. *)
Class PathValidationInterface (Leaf : Type) := {
  pathValidation_validate : Path Leaf -> bool -> bool * Path Leaf
}.

(** ** GraphPathValidation *)

Module GraphPathValidation.
Section Validation.
Context {value_type Configuration ConstraintSet Leaf GraphNode GraphEdge : Type}.
Context `{EqDecision GraphNode}.
Context {PI : PathInterface value_type Configuration ConstraintSet Leaf}.
Context {GI : GraphInterface Configuration ConstraintSet GraphNode GraphEdge}.
Context {PV : PathValidationInterface Leaf}.
Variable NDEBUG : bool.

Abbreviation PathT := (Path Leaf).

(** [for (v = 0; v < i; v++) p->appendPath (path->pathAtRank (i)->copy ())]
    and its mirror [for (v = n - 1; v > i; v--)]: [count] iterations, each
    appending a copy of the sub-path at rank [i]. *)
Fixpoint appendCopies (p : list PathT) (atRank_i : PathT) (count : nat) : list PathT :=
  match count with
  | O => p
  | S c => appendCopies (appendPath p (copy atRank_i)) atRank_i c
  end.

(** The body shared by both loops of the [PathVector] overload.  [done] is
    the number of sub-paths already found valid (so [v] ranges over [done]
    values), [todo] the sub-paths still to visit, in visiting order. *)
Fixpoint validateSubPaths (rec : PathT -> bool -> outcome (bool * PathT))
    (outputSize : nat) (reverse : bool) (done : nat) (todo : list PathT)
    : outcome (option PathT) :=
  match todo with
  | [] => Ret None
  | atRank_i :: todo' =>
      (r <- rec atRank_i reverse ;;
       let '(valid, validSubPart) := r in
       if valid : bool
       then validateSubPaths rec outputSize reverse (S done) todo'
       else
         let p := appendCopies [] atRank_i done in
         let p := appendPath p validSubPart in
         Ret (Some (PathVector outputSize p)))%O
  end.

(** [impl_validate (const PathVectorPtr_t&, bool, PathPtr_t&)]. *)
Definition impl_validate_PathVector (rec : PathT -> bool -> outcome (bool * PathT))
    (path : PathT) (outputSize : nat) (paths : list PathT) (reverse : bool)
    : outcome (bool * PathT) :=
  (r <- validateSubPaths rec outputSize reverse 0
          (if reverse then rev paths else paths) ;;
   match r with
   | Some p => Ret (false, p)
   | None => Ret (true, path)     (* Here, every subpath is valid. *)
   end)%O.

(** The [try] block of the leaf overload.  [None]: a [getNode] threw.
    [Some (true, _)]: both comparisons hold.  The second comparison is
    evaluated only when the first holds ([&&]). *)
Definition lookupNodes (path pathNoCollision : PathT)
    (newTmin newTmax oldTmin oldTmax : value_type)
    : option (bool * (list GraphNode * list GraphNode)) :=
  origNodes ← getNode (eval pathNoCollision newTmin) ;
  destNodes ← getNode (eval pathNoCollision newTmax) ;
  oldOrig ← getNode (eval path oldTmin) ;
  if bool_decide (origNodes = oldOrig) then
    oldDest ← getNode (eval path oldTmax) ;
    Some (bool_decide (destNodes = oldDest), (origNodes, destNodes))
  else Some (false, (origNodes, destNodes)).

(** [while (!possibleEdges.empty ())], visiting [possibleEdges.back ()]
    first: [fromBack] is the vector reversed. *)
Fixpoint tryPossibleEdges (rec : PathT -> bool -> outcome (bool * PathT))
    (path pathNoCollision : PathT) (newTmin newTmax oldTmin : value_type)
    (reverse : bool) (fromBack : list (list GraphEdge)) : outcome (bool * PathT) :=
  match fromBack with
  | [] =>
      match extract path (oldTmin, oldTmin) with
      | Some validPart => Ret (false, validPart)
      | None => Throw projection_error
      end
  | back :: fromBack' =>
      let constraints_ := pathConstraint back in
      let constraints_ := offsetFromConfig constraints_ (eval pathNoCollision newTmin) in
      (_ <- assertO NDEBUG (isSatisfied constraints_ (eval pathNoCollision newTmin)) ;;
       if isSatisfied constraints_ (eval pathNoCollision newTmax) then
         let pathNoCollision := constraints pathNoCollision constraints_ in
         r <- rec pathNoCollision reverse ;;
         Ret (false, r.2)
       else
         tryPossibleEdges rec path pathNoCollision newTmin newTmax oldTmin
           reverse fromBack')%O
  end.

(** [impl_validate (const PathPtr_t&, bool, PathPtr_t&)].  The result is the
    returned boolean with the value assigned to [validPart]. *)
Fixpoint impl_validate (fuel : nat) (path : PathT) (reverse : bool)
    : outcome (bool * PathT) :=
  match fuel with
  | O => Diverge
  | S fuel' =>
      match path with
      | PathVector outputSize paths =>
          impl_validate_PathVector (impl_validate fuel') path outputSize paths reverse
      | LeafPath _ =>
          let '(ok, pathNoCollision) := pathValidation_validate path reverse in
          if ok then Ret (true, path)
          else
            let newTmin := (timeRange pathNoCollision).1 in
            let newTmax := (timeRange pathNoCollision).2 in
            let oldTmin := (timeRange path).1 in
            let oldTmax := (timeRange path).2 in
            match lookupNodes path pathNoCollision newTmin newTmax oldTmin oldTmax with
            | None =>
                (* catch (std::logic_error&) *)
                match extract path (oldTmin, oldTmin) with
                | Some validPart => Ret (false, validPart)
                | None => Throw projection_error
                end
            | Some (true, _) => Ret (false, pathNoCollision)
            | Some (false, (origNodes, destNodes)) =>
                (_ <- assertO NDEBUG (negb reverse) ;;
                 tryPossibleEdges (impl_validate fuel') path pathNoCollision
                   newTmin newTmax oldTmin reverse
                   (rev (getEdge origNodes destNodes)))%O
            end
      end
  end.

(** [GraphPathValidation::validate]; [assert (path)] holds of every [Path]. *)
Definition validate (fuel : nat) (path : PathT) (reverse : bool)
    : outcome (bool * PathT) :=
  impl_validate fuel path reverse.

End Validation.
End GraphPathValidation.

(** ** Numbers

    [value_type] is [double] in the sources.  The planner compares lengths and
    parameters with [==] and [!=], adds and multiplies them, and the roadmap
    orders distances. *)
Class ValueType (value_type : Type) := {
  v_zero : value_type;
  v_one : value_type;
  v_add : value_type -> value_type -> value_type;
  v_mul : value_type -> value_type -> value_type;
  v_eqb : value_type -> value_type -> bool;
  v_ltb : value_type -> value_type -> bool
}.

(** ** A state and exception monad for the planner

    A member function that mutates an object of type [S] and may throw.  The
    state reached when the exception leaves the function is kept: it is what
    the caller of [oneStep] can observe afterwards. *)
Definition PlannerM (S A : Type) : Type := S -> S * outcome A.

Definition retM {S A : Type} (a : A) : PlannerM S A := fun s => (s, Ret a).

Definition bindM {S A B : Type} (m : PlannerM S A) (k : A -> PlannerM S B)
    : PlannerM S B :=
  fun s =>
    match m s with
    | (s', Ret a) => k a s'
    | (s', Throw e) => (s', Throw e)
    | (s', Diverge) => (s', Diverge)
    end.

Definition throwM {S A : Type} (e : exn) : PlannerM S A := fun s => (s, Throw e).
Definition getM {S : Type} : PlannerM S S := fun s => (s, Ret s).
Definition modifyM {S : Type} (f : S -> S) : PlannerM S unit := fun s => (f s, Ret tt).
Definition liftO {S A : Type} (o : outcome A) : PlannerM S A := fun s => (s, o).

Declare Scope planner_scope.
Delimit Scope planner_scope with M.
Notation "x <- m ;; k" := (bindM m (fun x => k))
  (at level 100, m at next level, right associativity) : planner_scope.

(** A relation between the states before and after a computation. *)
Definition relates {S A : Type} (R : S -> S -> Prop) (m : PlannerM S A) : Prop :=
  forall s, R s (m s).1.

(** ** Edge statistics *)

(** Modelled from the spec: the enumeration of failure reasons, declared in
    manipulation-planner.hh, which is not among the sources.  Section 4.5 of
    the specification fixes the set and its order; [reasons_] below, which is
    in the sources, lists the seven messages in the same order. *)
Inductive TypeOfFailure : Type :=
| PROJECTION
| STEERING_METHOD
| PATH_VALIDATION_ZERO
| PATH_PROJECTION_ZERO
| PATH_PROJECTION_SHORTER
| PATH_VALIDATION_SHORTER
| PARTLY_EXTENDED.

(** The integer value of the enumerator, used as an index in [reasons_]. *)
Definition rank (t : TypeOfFailure) : nat :=
  match t with
  | PROJECTION => 0
  | STEERING_METHOD => 1
  | PATH_VALIDATION_ZERO => 2
  | PATH_PROJECTION_ZERO => 3
  | PATH_PROJECTION_SHORTER => 4
  | PATH_VALIDATION_SHORTER => 5
  | PARTLY_EXTENDED => 6
  end.

(** Modelled from the spec: [SuccessBin::Reason] and [SuccessStatistics] of the
    statistics library, not among the sources.  A reason is a message with an
    identifier of its own; a [SuccessStatistics] holds a count of successes
    and one count of failures per reason (section 4.5). *)
Record Reason : Type := { reason_id : nat; what : string }.

Record SuccessStatistics : Type := {
  ss_name : string;
  nbSuccess : nat;
  nbFailure_ : nat -> nat        (* by reason identifier *)
}.

Definition nbFailure (ss : SuccessStatistics) (r : Reason) : nat :=
  nbFailure_ ss (reason_id r).

Definition newSuccessStatistics (name : string) (nbReasons : nat) : SuccessStatistics :=
  {| ss_name := name; nbSuccess := 0; nbFailure_ := fun _ => 0 |}.

Definition addSuccess (ss : SuccessStatistics) : SuccessStatistics :=
  {| ss_name := ss_name ss; nbSuccess := S (nbSuccess ss); nbFailure_ := nbFailure_ ss |}.

Definition addFailure (r : Reason) (ss : SuccessStatistics) : SuccessStatistics :=
  {| ss_name := ss_name ss;
     nbSuccess := nbSuccess ss;
     nbFailure_ := fun i => if Nat.eqb i (reason_id r)
                            then S (nbFailure_ ss i) else nbFailure_ ss i |}.

#[global] Instance SuccessStatistics_inhabited : Inhabited SuccessStatistics :=
  populate (newSuccessStatistics EmptyString 0).

(** [SuccessBin::createReason] numbers the reasons in the order of creation. *)
Definition createReason (n : nat) (what : string) : Reason :=
  {| reason_id := n; what := what |}.

(** [ManipulationPlanner::reasons_]. *)
Definition reasons_ : list Reason :=
  [ createReason 0 "[Fail] Projection";
    createReason 1 "[Fail] SteeringMethod";
    createReason 2 "[Fail] Path validation returned length 0";
    createReason 3 "[Fail] Path could not be projected";
    createReason 4 "[Info] Path could not be fully projected";
    createReason 5 "[Info] Path could not be fully validated";
    createReason 6 "[Info] Extended partly" ].

#[global] Instance Reason_inhabited : Inhabited Reason := populate (createReason 0 EmptyString).

(** [reasons_[i]]. *)
Definition reasons_at (i : nat) : Reason := reasons_ !!! i.

(** ** Roadmap *)

(** A roadmap node as a [NodePtr_t] designates it: [handle] is the identity of
    the node object; its configuration and its constraint-graph node are fixed
    when the node is created.  Its connected component and its neighbours
    change with the roadmap and are read there. *)
Record Node (Configuration GraphNode : Type) : Type := {
  handle : nat;
  configuration : Configuration;
  graphNode : GraphNode
}.
Arguments handle {Configuration GraphNode} n.
Arguments configuration {Configuration GraphNode} n.
Arguments graphNode {Configuration GraphNode} n.

Record Edge_ (Leaf : Type) : Type := {
  from : nat;
  to : nat;
  edgePath : Path Leaf
}.
Arguments from {Leaf} e.
Arguments to {Leaf} e.
Arguments edgePath {Leaf} e.

(** Modelled from the spec: the roadmap (roadmap.hh, roadmap.cc and the
    roadmap of hpp-core are not among the sources), after section 4.2: a
    directed multigraph of nodes, each in exactly one connected component.
    [nodes_] is in insertion order, the handle of a node is its rank;
    [componentOf_] gives the component of each handle. *)
Record Roadmap (Configuration GraphNode Leaf : Type) : Type := {
  nodes_ : list (Node Configuration GraphNode);
  componentOf_ : list nat;
  edges_ : list (Edge_ Leaf)
}.
Arguments nodes_ {Configuration GraphNode Leaf} r.
Arguments componentOf_ {Configuration GraphNode Leaf} r.
Arguments edges_ {Configuration GraphNode Leaf} r.

(** Modelled from the spec: what the roadmap takes from its problem: the
    metric ("problem-defined"), the constraint-graph node the graph assigns to
    a configuration, and the nearest-neighbour helper [KnearestSearch]. *)
Class RoadmapInterface (value_type Configuration GraphNode Leaf : Type) := {
  distance : Configuration -> Configuration -> value_type;
  graphNodeOf : Configuration -> GraphNode;
  KnearestSearch : Roadmap Configuration GraphNode Leaf -> Configuration ->
                   nat -> nat -> list (Node Configuration GraphNode)
}.

Module RoadmapOps.
Section Ops.
Context {value_type Configuration ConstraintSet GraphNode Leaf : Type}.
Context `{EqDecision GraphNode}.
Context {VT : ValueType value_type}.
Context {PI : PathInterface value_type Configuration ConstraintSet Leaf}.
Context {RI : RoadmapInterface value_type Configuration GraphNode Leaf}.

Abbreviation NodeT := (Node Configuration GraphNode).
Abbreviation RoadmapT := (Roadmap Configuration GraphNode Leaf).

(** [node->connectedComponent ()]. *)
Definition connectedComponent (r : RoadmapT) (n : NodeT) : nat :=
  default (handle n) (componentOf_ r !! handle n).

(** [roadmap->connectedComponents ()]. *)
Definition connectedComponents (r : RoadmapT) : list nat :=
  remove_dups (componentOf_ r).

(** [n1->isOutNeighbor (n2)]: an edge from [n1] to [n2] exists. *)
Definition isOutNeighbor (r : RoadmapT) (n1 n2 : NodeT) : bool :=
  existsb (fun e => Nat.eqb (from e) (handle n1) && Nat.eqb (to e) (handle n2))
          (edges_ r).

(** [n1->isInNeighbor (n2)]: an edge from [n2] to [n1] exists. *)
Definition isInNeighbor (r : RoadmapT) (n1 n2 : NodeT) : bool :=
  existsb (fun e => Nat.eqb (from e) (handle n2) && Nat.eqb (to e) (handle n1))
          (edges_ r).

(** The number of directed edges from the node of handle [a] to the node
    of handle [b]. *)
Definition countEdges (r : RoadmapT) (a b : nat) : nat :=
  List.length (List.filter (fun e => Nat.eqb (from e) a && Nat.eqb (to e) b)
                           (edges_ r)).

(** Merging the component [cb] into [ca]. *)
Definition mergeComponents (ca cb : nat) (componentOf : list nat) : list nat :=
  if Nat.eqb ca cb then componentOf
  else map (fun c => if Nat.eqb c cb then ca else c) componentOf.

(** [addEdge (a, b, path)]: one directed edge; the components are merged if
    needed. *)
Definition addEdge (a b : NodeT) (path : Path Leaf) (r : RoadmapT) : RoadmapT :=
  {| nodes_ := nodes_ r;
     componentOf_ := mergeComponents (connectedComponent r a) (connectedComponent r b)
                       (componentOf_ r);
     edges_ := edges_ r ++ [ {| from := handle a; to := handle b; edgePath := path |} ] |}.

(** [addNode (q)]: an isolated node in a connected component of its own. *)
Definition addNode (q : Configuration) (r : RoadmapT) : RoadmapT * NodeT :=
  let n := {| handle := List.length (nodes_ r); configuration := q;
              graphNode := graphNodeOf q |} in
  ({| nodes_ := nodes_ r ++ [n];
      componentOf_ := componentOf_ r ++ [List.length (nodes_ r)];
      edges_ := edges_ r |}, n).

(** [addNodeAndEdges (from, q_new, path)]: atomic; the reverse edge carries
    [path->extract (interval_t (t_max, t_min))]. *)
Definition addNodeAndEdges (near : NodeT) (q_new : Configuration) (path : Path Leaf)
    : PlannerM RoadmapT NodeT :=
  fun r =>
    match extract path ((timeRange path).2, (timeRange path).1) with
    | None => (r, Throw projection_error)
    | Some reversed =>
        let '(r1, n) := addNode q_new r in
        let r2 := addEdge near n path r1 in
        let r3 := addEdge n near reversed r2 in
        (r3, Ret n)
    end.

(** [nearestNode (q, cc, graphNode, distance)]: the nearest node of the
    component whose constraint-graph node is [gn]; among equally near
    nodes the first inserted. *)
Definition nearer (q : Configuration) (best : option NodeT) (n : NodeT)
    : option NodeT :=
  match best with
  | None => Some n
  | Some b =>
      if v_ltb (distance q (configuration n)) (distance q (configuration b))
      then Some n else Some b
  end.

Definition nearestNode (r : RoadmapT) (q : Configuration) (cc : nat) (gn : GraphNode)
    : option NodeT :=
  foldl (fun best n =>
           if Nat.eqb (connectedComponent r n) cc && bool_decide (graphNode n = gn)
           then nearer q best n else best)
        None (nodes_ r).

(** From [r] to [r'], the edges from [a] to [b] are as many as before, or
    there was none and (for two different nodes) there is one. *)
Definition onlyMissing (r r' : RoadmapT) : Prop :=
  forall a b,
    countEdges r' a b = countEdges r a b
    \/ (countEdges r a b = 0 /\ (a <> b -> countEdges r' a b = 1)).

End Ops.
End RoadmapOps.

(** ** The problem and the planner *)

(** [graph::Edge]: [id ()] and [name ()]. *)
Record Edge : Type := { id : nat; name : string }.

(** [pathProjector->apply (path, projPath)]: [Projected p] when it returns
    true, having set [projPath] to [p]; [Shortened p] when it returns false,
    [projPath] being [p], possibly null. *)
Inductive ProjectorResult (Leaf : Type) : Type :=
| Projected (projPath : Path Leaf)
| Shortened (projPath : option (Path Leaf)).
Arguments Projected {Leaf} projPath.
Arguments Shortened {Leaf} projPath.

(** [operator==] of configurations. *)
Class ConfigurationInterface (Configuration : Type) := {
  config_eqb : Configuration -> Configuration -> bool
}.

(** The capabilities that [problem_] gives access to (section 4.6), as they
    answer during one call of a member function of the planner.
    - [shoot]: [configurationShooter ()->shoot ()];
    - [steeringMethod q1 q2]: the call of the steering method on [q1] and
      [q2], [None] for a null path;
    - [pathProjector]: [None] for a null projector;
    - [pathValidation]: [pathValidation ()->validate (path, reverse, ...)],
      the returned boolean with the valid part;
    - [graphNodes]: [constraintGraph ()->nodeSelector ()->getNodes ()];
    - [chooseEdge]: [constraintGraph ()->chooseEdge (n)], [None] for null;
    - [applyConstraints e n q]: the boolean [e->applyConstraints (n, q)]
      returns, with [q] as the call leaves it;
    - [build e q1 q2]: [Some p] when [e->build (path, q1, q2)] returns true
      with [path = p], [None] when it returns false. *)
Record Problem (Configuration GraphNode Leaf : Type) : Type := {
  configSize : nat;
  newConfiguration : nat -> Configuration;
  shoot : Configuration;
  steeringMethod : Configuration -> Configuration -> option (Path Leaf);
  pathProjector : option (Path Leaf -> ProjectorResult Leaf);
  pathValidation : Path Leaf -> bool -> outcome (bool * Path Leaf);
  graphNodes : list GraphNode;
  chooseEdge : Node Configuration GraphNode -> option Edge;
  applyConstraints : Edge -> Node Configuration GraphNode -> Configuration ->
                     bool * Configuration;
  build : Edge -> Configuration -> Configuration -> option (Path Leaf)
}.
Arguments configSize {Configuration GraphNode Leaf} p.
Arguments newConfiguration {Configuration GraphNode Leaf} p.
Arguments shoot {Configuration GraphNode Leaf} p.
Arguments steeringMethod {Configuration GraphNode Leaf} p.
Arguments pathProjector {Configuration GraphNode Leaf} p.
Arguments pathValidation {Configuration GraphNode Leaf} p.
Arguments graphNodes {Configuration GraphNode Leaf} p.
Arguments chooseEdge {Configuration GraphNode Leaf} p.
Arguments applyConstraints {Configuration GraphNode Leaf} p.
Arguments build {Configuration GraphNode Leaf} p.

(** The data members of [ManipulationPlanner].  [roadmap_] is a shared
    pointer: [None] is the null pointer.  [problem_] is a reference to an
    object the planner does not own; the member functions below take the
    problem as an argument. *)
Record ManipulationPlanner (value_type Configuration GraphNode Leaf : Type) : Type := {
  roadmap_ : option (Roadmap Configuration GraphNode Leaf);
  extendStep_ : value_type;
  qProj_ : Configuration;
  indexPerEdgeStatistics_ : list Z;
  perEdgeStatistics_ : list SuccessStatistics
}.
Arguments roadmap_ {value_type Configuration GraphNode Leaf} m.
Arguments extendStep_ {value_type Configuration GraphNode Leaf} m.
Arguments qProj_ {value_type Configuration GraphNode Leaf} m.
Arguments indexPerEdgeStatistics_ {value_type Configuration GraphNode Leaf} m.
Arguments perEdgeStatistics_ {value_type Configuration GraphNode Leaf} m.

(** The static types of the arguments of [create] and the dynamic types they
    may have: a [core::Problem] is or is not a [manipulation::Problem], a
    non-null [core::RoadmapPtr_t] points or does not point to a
    [manipulation::Roadmap]. *)
Inductive core_Problem (Configuration GraphNode Leaf : Type) : Type :=
| core_Problem_only
| manipulation_Problem (p : Problem Configuration GraphNode Leaf).
Arguments core_Problem_only {Configuration GraphNode Leaf}.
Arguments manipulation_Problem {Configuration GraphNode Leaf} p.

Inductive core_Roadmap (Configuration GraphNode Leaf : Type) : Type :=
| core_Roadmap_only
| manipulation_Roadmap (r : Roadmap Configuration GraphNode Leaf).
Arguments core_Roadmap_only {Configuration GraphNode Leaf}.
Arguments manipulation_Roadmap {Configuration GraphNode Leaf} r.

(** The exceptions that [catch (std::exception&)] catches. *)
Definition is_std_exception (e : exn) : bool :=
  match e with
  | logic_error | projection_error | bad_cast | invalid_argument _ => true
  | null_dereference | assertion_failed => false
  end.

Module Planner.
Section Planner.
Context {value_type Configuration ConstraintSet GraphNode Leaf : Type}.
Context `{EqDecision GraphNode}.
Context {VT : ValueType value_type}.
Context {CI : ConfigurationInterface Configuration}.
Context {PI : PathInterface value_type Configuration ConstraintSet Leaf}.
Context {RI : RoadmapInterface value_type Configuration GraphNode Leaf}.
Variable NDEBUG : bool.

Abbreviation PathT := (Path Leaf).
Abbreviation NodeT := (Node Configuration GraphNode).
Abbreviation RoadmapT := (Roadmap Configuration GraphNode Leaf).
Abbreviation ProblemT := (Problem Configuration GraphNode Leaf).
Abbreviation PlannerT := (ManipulationPlanner value_type Configuration GraphNode Leaf).

Definition set_roadmap (r : option RoadmapT) (s : PlannerT) : PlannerT :=
  {| roadmap_ := r; extendStep_ := extendStep_ s; qProj_ := qProj_ s;
     indexPerEdgeStatistics_ := indexPerEdgeStatistics_ s;
     perEdgeStatistics_ := perEdgeStatistics_ s |}.

Definition set_qProj (q : Configuration) (s : PlannerT) : PlannerT :=
  {| roadmap_ := roadmap_ s; extendStep_ := extendStep_ s; qProj_ := q;
     indexPerEdgeStatistics_ := indexPerEdgeStatistics_ s;
     perEdgeStatistics_ := perEdgeStatistics_ s |}.

Definition set_statistics (index : list Z) (per : list SuccessStatistics)
    (s : PlannerT) : PlannerT :=
  {| roadmap_ := roadmap_ s; extendStep_ := extendStep_ s; qProj_ := qProj_ s;
     indexPerEdgeStatistics_ := index;
     perEdgeStatistics_ := per |}.

(** A member function of the roadmap called through [roadmap ()] or
    [roadmap_]. *)
Definition onRoadmap {A : Type} (m : PlannerM RoadmapT A) : PlannerM PlannerT A :=
  fun s =>
    match roadmap_ s with
    | None => (s, Throw null_dereference)
    | Some r => let '(r', a) := m r in (set_roadmap (Some r') s, a)
    end.

(** The constructor: [extendStep_ (1)], [qProj_ (configSize)], both
    statistics vectors empty. *)
Definition ManipulationPlanner_ (problem : ProblemT) (roadmap : option RoadmapT)
    : PlannerT :=
  {| roadmap_ := roadmap; extendStep_ := v_one;
     qProj_ := newConfiguration problem (configSize problem);
     indexPerEdgeStatistics_ := [];
     perEdgeStatistics_ := [] |}.

(** [belongs (q, nodes)]. *)
Definition belongs (q : Configuration) (nodes : list NodeT) : bool :=
  existsb (fun itNode => config_eqb (configuration itNode) q) nodes.

(** [indexPerEdgeStatistics_.resize (n, -1)], called with [size () < n]. *)
Definition resize (index : list Z) (n : nat) : list Z :=
  index ++ replicate (n - List.length index) (-1)%Z.

(** [getEdgeStat (edge)]. *)
Definition getEdgeStat (s : PlannerT) (edge : Edge) : list nat :=
  let index := indexPerEdgeStatistics_ s in
  if (List.length index <=? id edge) || (index !!! id edge <? 0)%Z
  then replicate 6 0
  else
    let ss := perEdgeStatistics_ s !!! Z.to_nat (index !!! id edge) in
    nbSuccess ss :: map (fun i => nbFailure ss (reasons_at i)) (seq 0 6).

(** [errorList ()]. *)
Definition errorList : list string :=
  "Success"%string :: map (fun i => what (reasons_at i)) (seq 0 6).

(** [edgeStat (edge)].  The reference it returns designates an element of
    [perEdgeStatistics_]: the model returns its rank. *)
Definition edgeStat (edge : Edge) : PlannerM PlannerT nat :=
  fun s =>
    let index := indexPerEdgeStatistics_ s in
    let per := perEdgeStatistics_ s in
    let index := if List.length index <=? id edge
                 then resize index (id edge + 1) else index in
    let '(index, per) :=
      if (index !!! id edge <? 0)%Z
      then (<[id edge := Z.of_nat (List.length per)]> index,
            per ++ [newSuccessStatistics (name edge) 2])
      else (index, per) in
    (set_statistics index per s, Ret (Z.to_nat (index !!! id edge))).

(** [es.addFailure (reasons_[t])] and [es.addSuccess ()], [es] being the
    element of rank [es] of [perEdgeStatistics_]. *)
Definition es_addFailure (es : nat) (t : TypeOfFailure) : PlannerM PlannerT unit :=
  modifyM (fun s => set_statistics (indexPerEdgeStatistics_ s)
                      (alter (addFailure (reasons_at (rank t))) es (perEdgeStatistics_ s)) s).

Definition es_addSuccess (es : nat) : PlannerM PlannerT unit :=
  modifyM (fun s => set_statistics (indexPerEdgeStatistics_ s)
                      (alter addSuccess es (perEdgeStatistics_ s)) s).

(** [extend], from the declaration of [pathValidation] to the end.
    [validPath] is the value of the output argument at the call. *)
Definition extend_validate (problem : ProblemT) (es : nat) (projShorter : bool)
    (projPath : PathT) (validPath : option PathT)
    : PlannerM PlannerT (bool * option PathT) :=
  match pathValidation problem projPath false with
  | Throw projection_error =>
      (_ <- es_addFailure es PATH_VALIDATION_ZERO ;;
       retM (false, validPath))%M
  | Throw e => throwM e
  | Diverge => liftO Diverge
  | Ret (fullyValid, fullValidPath) =>
      if v_eqb (pathLength fullValidPath) v_zero then
        (_ <- es_addFailure es PATH_VALIDATION_ZERO ;;
         retM (false, Some fullValidPath))%M
      else
        (_ <- (if negb fullyValid then es_addFailure es PATH_VALIDATION_SHORTER
               else retM tt) ;;
         s <- getM ;;
         (* if (!projShorter && fullValidPath): the pointer fullValidPath
            was dereferenced above and is not null *)
         let record : PlannerM PlannerT unit :=
           if negb projShorter && true then es_addSuccess es
           else es_addFailure es PARTLY_EXTENDED in
         if v_eqb (extendStep_ s) v_one || fullyValid then
           (_ <- record ;; retM (true, Some fullValidPath))
         else
           let length := pathLength fullValidPath in
           let t_init := (timeRange fullValidPath).1 in
           match extract fullValidPath
                   (t_init, v_add t_init (v_mul length (extendStep_ s))) with
           | None =>
               (_ <- es_addFailure es PATH_PROJECTION_SHORTER ;;
                retM (false, validPath))
           | Some extracted =>
               (_ <- record ;; retM (true, Some extracted))
           end)%M
  end.

(** [extend (n_near, q_rand, validPath)]: the returned boolean and the value
    of [validPath] afterwards. *)
Definition extend (problem : ProblemT) (n_near : NodeT) (q_rand : Configuration)
    (validPath : option PathT) : PlannerM PlannerT (bool * option PathT) :=
  let q_near := configuration n_near in
  match chooseEdge problem n_near with
  | None => retM (false, validPath)
  | Some edge =>
      (_ <- modifyM (set_qProj q_rand) ;;
       es <- edgeStat edge ;;
       let '(applied, q) := applyConstraints problem edge n_near q_rand in
       _ <- modifyM (set_qProj q) ;;
       if negb applied then
         (_ <- es_addFailure es PROJECTION ;; retM (false, validPath))
       else
         match build problem edge q_near q with
         | None =>
             (_ <- es_addFailure es STEERING_METHOD ;; retM (false, validPath))
         | Some path =>
             match pathProjector problem with
             | Some apply =>
                 match apply path with
                 | Projected projPath =>
                     extend_validate problem es false projPath validPath
                 | Shortened None =>
                     (_ <- es_addFailure es PATH_PROJECTION_ZERO ;;
                      retM (false, validPath))
                 | Shortened (Some projPath) =>
                     if v_eqb (pathLength projPath) v_zero then
                       (_ <- es_addFailure es PATH_PROJECTION_ZERO ;;
                        retM (false, validPath))
                     else
                       (_ <- es_addFailure es PATH_PROJECTION_SHORTER ;;
                        extend_validate problem es true projPath validPath)
                 end
             | None => extend_validate problem es false path validPath
             end
         end)%M
  end.

(** The body shared by the innermost loops of [tryConnectNewNodes] and
    [tryConnectToRoadmap], from the computation of [_1to2] on: true when
    the pair was connected ([nbConnection++]). *)
Definition connectValidated (problem : ProblemT) (n1 n2 : NodeT)
    (_1to2 _2to1 : bool) (projPath : PathT) : PlannerM RoadmapT bool :=
  (v <- liftO (pathValidation problem projPath false) ;;
   if v.1 then
     _ <- (if negb _1to2 then modifyM (RoadmapOps.addEdge n1 n2 projPath)
           else retM tt) ;;
     _ <- (if negb _2to1 then
             let timeRange_ := timeRange projPath in
             match extract projPath (timeRange_.2, timeRange_.1) with
             | None => throwM projection_error
             | Some reversed => modifyM (RoadmapOps.addEdge n2 n1 reversed)
             end
           else retM tt) ;;
     retM true
   else retM false)%M.

Definition connectPair (problem : ProblemT) (n1 n2 : NodeT)
    : PlannerM RoadmapT bool :=
  (r <- getM ;;
   let q1 := configuration n1 in
   let _1to2 := RoadmapOps.isOutNeighbor r n1 n2 in
   let _2to1 := RoadmapOps.isInNeighbor r n1 n2 in
   if _1to2 && _2to1 then retM false     (* continue *)
   else
     let q2 := configuration n2 in
     _ <- liftO (assertO NDEBUG (negb (config_eqb q1 q2))) ;;
     match steeringMethod problem q1 q2 with
     | None => retM false
     | Some path =>
         match pathProjector problem with
         | Some apply =>
             match apply path with
             | Projected projPath =>
                 connectValidated problem n1 n2 _1to2 _2to1 projPath
             | Shortened _ => retM false
             end
         | None => connectValidated problem n1 n2 _1to2 _2to1 path
         end
     end)%M.

(** [tryConnectToRoadmap]: the loop on [knearest], left at the first
    connection. *)
Fixpoint connectToNearest (problem : ProblemT) (n1 : NodeT) (knearest : list NodeT)
    : PlannerM RoadmapT bool :=
  match knearest with
  | [] => retM false
  | n2 :: knearest' =>
      (connected <- connectPair problem n1 n2 ;;
       if connected : bool then retM true
       else connectToNearest problem n1 knearest')%M
  end.

Definition K : nat := 7.

(** [tryConnectToRoadmap]: the loop on the connected components.  No edge
    is added before the loop is left, so that it runs over the components
    as they are when it starts. *)
Fixpoint connectToComponents (problem : ProblemT) (n1 : NodeT) (ccs : list nat)
    : PlannerM RoadmapT bool :=
  match ccs with
  | [] => retM false
  | cc :: ccs' =>
      (r <- getM ;;
       if Nat.eqb cc (RoadmapOps.connectedComponent r n1)
       then connectToComponents problem n1 ccs'
       else
         let knearest := KnearestSearch r (configuration n1) cc K in
         connectSucceed <- connectToNearest problem n1 knearest ;;
         if connectSucceed : bool then retM true
         else connectToComponents problem n1 ccs')%M
  end.

Fixpoint tryConnectToRoadmap_from (problem : ProblemT) (nodes : list NodeT)
    (nbConnection : nat) : PlannerM RoadmapT nat :=
  match nodes with
  | [] => retM nbConnection
  | n1 :: nodes' =>
      (r <- getM ;;
       connectSucceed <- connectToComponents problem n1
                           (RoadmapOps.connectedComponents r) ;;
       tryConnectToRoadmap_from problem nodes'
         (if connectSucceed : bool then S nbConnection else nbConnection))%M
  end.

(** [tryConnectToRoadmap (nodes)]. *)
Definition tryConnectToRoadmap (problem : ProblemT) (nodes : list NodeT)
    : PlannerM RoadmapT nat :=
  tryConnectToRoadmap_from problem nodes 0.

(** [tryConnectNewNodes]: the loop on [itn2], from [boost::next (itn1)]. *)
Fixpoint connectToFollowing (problem : ProblemT) (n1 : NodeT) (following : list NodeT)
    (nbConnection : nat) : PlannerM RoadmapT nat :=
  match following with
  | [] => retM nbConnection
  | n2 :: following' =>
      (r <- getM ;;
       if Nat.eqb (RoadmapOps.connectedComponent r n1)
                  (RoadmapOps.connectedComponent r n2)
       then connectToFollowing problem n1 following' nbConnection
       else
         connected <- connectPair problem n1 n2 ;;
         connectToFollowing problem n1 following'
           (if connected : bool then S nbConnection else nbConnection))%M
  end.

Fixpoint tryConnectNewNodes_from (problem : ProblemT) (nodes : list NodeT)
    (nbConnection : nat) : PlannerM RoadmapT nat :=
  match nodes with
  | [] => retM nbConnection
  | n1 :: nodes' =>
      (nbConnection <- connectToFollowing problem n1 nodes' nbConnection ;;
       tryConnectNewNodes_from problem nodes' nbConnection)%M
  end.

(** [tryConnectNewNodes (nodes)]. *)
Definition tryConnectNewNodes (problem : ProblemT) (nodes : list NodeT)
    : PlannerM RoadmapT nat :=
  tryConnectNewNodes_from problem nodes 0.

(** The local variables of [oneStep] that the extension loop updates. *)
Record StepState : Type := {
  newNodes : list NodeT;
  delayedEdges : list (NodeT * Configuration * PathT);
  path : option PathT
}.

(** The body of the inner loop of [oneStep], for the component [cc] and
    the constraint-graph node [gn]. *)
Definition extendPair (problem : ProblemT) (q_rand : Configuration)
    (cc : nat) (gn : GraphNode) (st : StepState) : PlannerM PlannerT StepState :=
  (near <- onRoadmap (r <- getM ;; retM (RoadmapOps.nearestNode r q_rand cc gn)) ;;
   match near with
   | None => retM st                       (* continue *)
   | Some near =>
       res <- extend problem near q_rand (path st) ;;
       let '(pathIsValid, path') := res in
       let st := {| newNodes := newNodes st; delayedEdges := delayedEdges st;
                    path := path' |} in
       if pathIsValid : bool then
         match path' with
         | None => throwM null_dereference
         | Some p =>
             let t_final := (timeRange p).2 in
             if negb (v_eqb t_final (timeRange p).1) then
               let q_new := eval p t_final in
               if negb (belongs q_new (newNodes st)) then
                 n <- onRoadmap (RoadmapOps.addNodeAndEdges near q_new p) ;;
                 retM {| newNodes := newNodes st ++ [n];
                         delayedEdges := delayedEdges st; path := path' |}
               else
                 retM {| newNodes := newNodes st;
                         delayedEdges := delayedEdges st ++ [(near, q_new, p)];
                         path := path' |}
             else retM st
         end
       else retM st
   end)%M.

Fixpoint extendGraphNodes (problem : ProblemT) (q_rand : Configuration) (cc : nat)
    (gns : list GraphNode) (st : StepState) : PlannerM PlannerT StepState :=
  match gns with
  | [] => retM st
  | gn :: gns' =>
      (st' <- extendPair problem q_rand cc gn st ;;
       extendGraphNodes problem q_rand cc gns' st')%M
  end.

(** The outer loop of [oneStep].  [addNodeAndEdges] puts the new node in
    the component of [near]: the set of components does not change while
    the loop runs. *)
Fixpoint extendComponents (problem : ProblemT) (q_rand : Configuration)
    (ccs : list nat) (st : StepState) : PlannerM PlannerT StepState :=
  match ccs with
  | [] => retM st
  | cc :: ccs' =>
      (st' <- extendGraphNodes problem q_rand cc (graphNodes problem) st ;;
       extendComponents problem q_rand ccs' st')%M
  end.

(** The extension loop of [oneStep] as a whole. *)
Definition extensionLoop (problem : ProblemT) (q_rand : Configuration)
    : PlannerM PlannerT StepState :=
  (ccs <- onRoadmap (r <- getM ;; retM (RoadmapOps.connectedComponents r)) ;;
   extendComponents problem q_rand ccs
     {| newNodes := []; delayedEdges := []; path := None |})%M.

(** "Insert delayed edges". *)
Fixpoint insertDelayedEdges (delayed : list (NodeT * Configuration * PathT))
    : PlannerM RoadmapT unit :=
  match delayed with
  | [] => retM tt
  | (near, q_new, validPath) :: delayed' =>
      (newNode <- (fun r => let '(r', n) := RoadmapOps.addNode q_new r in (r', Ret n)) ;;
       _ <- modifyM (RoadmapOps.addEdge near newNode validPath) ;;
       let timeRange_ := timeRange validPath in
       _ <- match extract validPath (timeRange_.2, timeRange_.1) with
            | None => throwM projection_error
            | Some reversed => modifyM (RoadmapOps.addEdge newNode near reversed)
            end ;;
       insertDelayedEdges delayed')%M
  end.

(** The connection phases of [oneStep]. *)
Definition connectNewNodes (problem : ProblemT) (newNodes : list NodeT)
    : PlannerM RoadmapT unit :=
  (nbConn <- tryConnectNewNodes problem newNodes ;;
   if Nat.eqb nbConn 0 then
     (_ <- tryConnectToRoadmap problem newNodes ;; retM tt)
   else retM tt)%M.

(** [oneStep ()].  The time counters and [HPP_ASSERT (robot)] are left out. *)
Definition oneStep (problem : ProblemT) : PlannerM PlannerT unit :=
  (let q_rand := shoot problem in
   st <- extensionLoop problem q_rand ;;
   _ <- onRoadmap (insertDelayedEdges (delayedEdges st)) ;;
   onRoadmap (connectNewNodes problem (newNodes st)))%M.

(** *** Reading the statistics

    [observed]: the negation of the test of [getEdgeStat]; [statisticsOf]:
    the [SuccessStatistics] that [getEdgeStat] reads.  [successes] and
    [failures] are the counts of an edge, 0 as long as it was not observed;
    unlike [getEdgeStat] they give access to all seven reasons. *)
Definition observed (s : PlannerT) (edge : Edge) : bool :=
  negb ((List.length (indexPerEdgeStatistics_ s) <=? id edge)
        || (indexPerEdgeStatistics_ s !!! id edge <? 0)%Z).

Definition statisticsOf (s : PlannerT) (edge : Edge) : SuccessStatistics :=
  perEdgeStatistics_ s !!! Z.to_nat (indexPerEdgeStatistics_ s !!! id edge).

Definition successes (s : PlannerT) (edge : Edge) : nat :=
  if observed s edge then nbSuccess (statisticsOf s edge) else 0.

Definition failures (s : PlannerT) (edge : Edge) (t : TypeOfFailure) : nat :=
  if observed s edge then nbFailure (statisticsOf s edge) (reasons_at (rank t)) else 0.

(** The six reasons that [getEdgeStat] and [errorList] report. *)
Definition reportedReasons : list TypeOfFailure :=
  [PROJECTION; STEERING_METHOD; PATH_VALIDATION_ZERO; PATH_PROJECTION_ZERO;
   PATH_PROJECTION_SHORTER; PATH_VALIDATION_SHORTER].

(** The sum of the entries of [getEdgeStat]. *)
Definition edgeStatSum (s : PlannerT) (edge : Edge) : nat :=
  foldr Nat.add 0 (getEdgeStat s edge).

(** The statistics of an edge, as a partial map of edge identifiers, and the
    consistency of the two vectors: an index that is not negative designates
    an element of [perEdgeStatistics_], and two edge identifiers do not share
    one. *)
Definition view (index : list Z) (per : list SuccessStatistics) (i : nat)
    : option SuccessStatistics :=
  match index !! i with
  | Some z => if bool_decide (0 <= z)%Z then per !! Z.to_nat z else None
  | None => None
  end.

Definition wf (index : list Z) (per : list SuccessStatistics) : Prop :=
  forall i z,
    index !! i = Some z -> (0 <= z)%Z ->
    Z.to_nat z < List.length per /\ forall j, index !! j = Some z -> j = i.

Definition stat_wf (s : PlannerT) : Prop :=
  wf (indexPerEdgeStatistics_ s) (perEdgeStatistics_ s).

(** What one call of [extend] records, in order. *)
Inductive Event : Type :=
| Success
| Failure (t : TypeOfFailure).

Definition recordEvent (ev : Event) : SuccessStatistics -> SuccessStatistics :=
  match ev with
  | Success => addSuccess
  | Failure t => addFailure (reasons_at (rank t))
  end.

Definition recordEvents (es : nat) (evs : list Event) (per : list SuccessStatistics)
    : list SuccessStatistics :=
  foldl (fun per ev => alter (recordEvent ev) es per) per evs.

(** The units an event adds to the entries of [getEdgeStat]. *)
Definition reported (ev : Event) : nat :=
  match ev with
  | Success => 1
  | Failure PARTLY_EXTENDED => 0
  | Failure _ => 1
  end.

Definition reportedUnits (evs : list Event) : nat :=
  foldr (fun ev n => reported ev + n) 0 evs.

(** A computation returned: it threw nothing and did not run out of budget. *)
Definition returns {A : Type} (o : outcome A) : Prop := exists a, o = Ret a.

(** The sequences of events of the paths through [extend]. *)
Definition extendEvents : list (list Event) :=
  let shorter := Failure PATH_PROJECTION_SHORTER in
  let partly := Failure PARTLY_EXTENDED in
  let invalid := Failure PATH_VALIDATION_SHORTER in
  let zero := Failure PATH_VALIDATION_ZERO in
  [ [Failure PROJECTION]; [Failure STEERING_METHOD]; [Failure PATH_PROJECTION_ZERO];
    [zero]; [shorter; zero];
    [Success]; [invalid; Success];
    [shorter; partly]; [shorter; invalid; partly];
    [invalid; shorter]; [shorter; invalid; shorter] ].

(** The sum of the entries that [getEdgeStat] reads in one record. *)
Definition statSum (ss : SuccessStatistics) : nat :=
  nbSuccess ss
  + foldr Nat.add 0 (map (fun t => nbFailure ss (reasons_at (rank t))) reportedReasons).

(** The path that [extend] validates when the projection does not shorten
    it: the built path itself without projector, else the projected path. *)
Definition projectedInFull (problem : ProblemT) (path : PathT) : option PathT :=
  match pathProjector problem with
  | None => Some path
  | Some apply =>
      match apply path with
      | Projected projPath => Some projPath
      | Shortened _ => None
      end
  end.

(** A computation that adds at most two edges, and none when it answers
    false. *)
Definition connects (m : PlannerM RoadmapT bool) : Prop :=
  forall r,
    List.length (edges_ (m r).1) <= List.length (edges_ r) + 2
    /\ ((m r).2 = Ret false -> (m r).1 = r).

(** The roadmap of the planner holds the nodes of the roadmap [r0] followed
    by the new nodes, and two edges more for each new node. *)
Definition extended (r0 : RoadmapT) (s : PlannerT) (st : StepState) : Prop :=
  exists r,
    roadmap_ s = Some r
    /\ nodes_ r = nodes_ r0 ++ newNodes st
    /\ List.length (edges_ r) = List.length (edges_ r0) + 2 * List.length (newNodes st).

(** [dynamic_cast < const Problem& > (problem)]: throws [std::bad_cast]. *)
Definition dynamic_cast_Problem (problem : core_Problem Configuration GraphNode Leaf)
    : outcome ProblemT :=
  match problem with
  | manipulation_Problem p => Ret p
  | core_Problem_only => Throw bad_cast
  end.

(** [HPP_DYNAMIC_PTR_CAST (Roadmap, r2)]: a null pointer when the cast
    fails. *)
Definition HPP_DYNAMIC_PTR_CAST_Roadmap
    (r2 : option (core_Roadmap Configuration GraphNode Leaf)) : option RoadmapT :=
  match r2 with
  | Some (manipulation_Roadmap r) => Some r
  | Some core_Roadmap_only | None => None
  end.

(** [ManipulationPlanner::create (problem, roadmap)]. *)
Definition create (problem : core_Problem Configuration GraphNode Leaf)
    (roadmap : option (core_Roadmap Configuration GraphNode Leaf))
    : outcome PlannerT :=
  let r2 := roadmap in
  let r : option RoadmapT := None in                 (* RoadmapPtr_t r; *)
  let tried :=
    (p <- dynamic_cast_Problem problem ;;
     (* RoadmapPtr_t r = ...: a second variable, local to the try block *)
     let r := HPP_DYNAMIC_PTR_CAST_Roadmap r2 in
     Ret (ManipulationPlanner_ p r))%O in
  match tried with
  | Throw e =>
      if is_std_exception e then
        if negb (bool_decide (is_Some r)) then
          Throw (invalid_argument
                   "The roadmap must be of type hpp::manipulation::Roadmap.")
        else
          Throw (invalid_argument
                   "The problem must be of type hpp::manipulation::Problem.")
      else Throw e
  | ptr => ptr                                       (* ptr->init (shPtr) *)
  end.

(** A sequence of calls of [extend], each with the answers the problem
    gives during that call. *)
Record Attempt : Type := {
  a_problem : ProblemT;
  a_near : NodeT;
  a_rand : Configuration;
  a_validPath : option PathT
}.

Fixpoint extendAll (attempts : list Attempt) : PlannerM PlannerT unit :=
  match attempts with
  | [] => retM tt
  | a :: attempts' =>
      (_ <- extend (a_problem a) (a_near a) (a_rand a) (a_validPath a) ;;
       extendAll attempts')%M
  end.

(** [chooseEdge] selected an edge with the identifier of [edge]. *)
Definition selects (edge : Edge) (a : Attempt) : bool :=
  match chooseEdge (a_problem a) (a_near a) with
  | Some e => Nat.eqb (id e) (id edge)
  | None => false
  end.

Definition nbAttempts (edge : Edge) (attempts : list Attempt) : nat :=
  List.length (List.filter (selects edge) attempts).

(** Modelled from the spec: the setter of [extendStep_], declared in
    manipulation-planner.hh, which is not among the sources (section 4.4:
    [extendStep] is a real in (0, 1], 1 by default). *)
Definition set_extendStep (step : value_type) (s : PlannerT) : PlannerT :=
  {| roadmap_ := roadmap_ s; extendStep_ := step; qProj_ := qProj_ s;
     indexPerEdgeStatistics_ := indexPerEdgeStatistics_ s;
     perEdgeStatistics_ := perEdgeStatistics_ s |}.

End Planner.
End Planner.

(** ** A concrete world

    An implementation of the interfaces on which the functions above can be
    run: a robot with one joint, paths that are segments of the line followed
    at constant speed, an obstacle that occupies the configurations above 3,
    and a constraint graph with two nodes, node 0 for the configurations in
    [0, 10) and node 1 for those from 10 on; a negative configuration is in no
    node. *)
Module Toy.

Local Open Scope Q_scope.

#[global] Instance Q_ValueType : ValueType Q := {|
  v_zero := 0;
  v_one := 1;
  v_add := fun a b => Qred (a + b);
  v_mul := fun a b => Qred (a * b);
  v_eqb := Qeq_bool;
  v_ltb := fun a b => negb (Qle_bool b a)
|}.

#[global] Instance Q_Configuration : ConfigurationInterface Q := {|
  config_eqb := Qeq_bool
|}.

Record Segment : Type := {
  q_init : Q;
  q_end : Q;
  t_min : Q;
  t_max : Q;
  attached : option nat       (* the constraint set attached to the path *)
}.

Definition segment (q1 q2 t1 t2 : Q) : Path Segment :=
  LeafPath {| q_init := q1; q_end := q2; t_min := t1; t_max := t2; attached := None |}.

Fixpoint toy_length (p : Path Segment) : Q :=
  match p with
  | LeafPath s => Qred (t_max s - t_min s)
  | PathVector _ paths => Qred (fold_right (fun p acc => toy_length p + acc) 0 paths)
  end.

Definition toy_timeRange (p : Path Segment) : Q * Q :=
  match p with
  | LeafPath s => (t_min s, t_max s)
  | PathVector _ _ => (0, toy_length p)
  end.

Definition segment_at (s : Segment) (t : Q) : Q :=
  if Qeq_bool (t_max s) (t_min s) then q_init s
  else Qred (q_init s + (t - t_min s) * (q_end s - q_init s) / (t_max s - t_min s)).

Fixpoint toy_eval (p : Path Segment) (t : Q) : Q :=
  match p with
  | LeafPath s => segment_at s t
  | PathVector _ paths =>
      (fix along (paths : list (Path Segment)) (t : Q) : Q :=
         match paths with
         | [] => 0
         | [p] => toy_eval p (Qred ((toy_timeRange p).1 + t))
         | p :: paths' =>
             if Qle_bool t (toy_length p)
             then toy_eval p (Qred ((toy_timeRange p).1 + t))
             else along paths' (Qred (t - toy_length p))
         end) paths t
  end.

(** Extraction of a segment; of a vector only the whole of it. *)
Definition toy_extract (p : Path Segment) (interval : Q * Q) : option (Path Segment) :=
  match p with
  | LeafPath s =>
      Some (LeafPath {| q_init := segment_at s interval.1;
                        q_end := segment_at s interval.2;
                        t_min := interval.1; t_max := interval.2;
                        attached := attached s |})
  | PathVector _ _ =>
      if Qeq_bool interval.1 0 && Qeq_bool interval.2 (toy_length p)
      then Some p else None
  end.

Definition toy_constraints (p : Path Segment) (c : nat) : Path Segment :=
  match p with
  | LeafPath s =>
      LeafPath {| q_init := q_init s; q_end := q_end s; t_min := t_min s;
                  t_max := t_max s; attached := Some c |}
  | PathVector _ _ => p
  end.

#[global] Instance toy_paths : PathInterface Q Q nat Segment := {|
  timeRange := toy_timeRange;
  pathLength := toy_length;
  eval := toy_eval;
  extract := toy_extract;
  copy := fun p => p;
  constraints := toy_constraints
|}.

#[global] Instance toy_graph : GraphInterface Q nat nat nat := {|
  getNode := fun q => if Qle_bool 0 q
                      then Some (if Qle_bool 10 q then [1%nat] else [0%nat])
                      else None;
  getEdge := fun _ _ => [[0%nat]];
  pathConstraint := fun _ => 0%nat;
  offsetFromConfig := fun c _ => c;
  isSatisfied := fun _ _ => true
|}.

(** The collision validation: a segment is valid as far as it stays at or
    below 3. *)
Definition toy_collision (p : Path Segment) (reverse : bool) : bool * Path Segment :=
  match p with
  | LeafPath s =>
      if Qle_bool (q_init s) 3 && Qle_bool (q_end s) 3 then (true, p)
      else
        let t_stop :=
          if Qle_bool (q_init s) 3
          then Qred (t_min s + (3 - q_init s) / (q_end s - q_init s) * (t_max s - t_min s))
          else t_min s in
        (false, default p (toy_extract p (t_min s, t_stop)))
  | PathVector _ _ => (true, p)
  end.

#[global] Instance toy_pathValidation : PathValidationInterface Segment := {|
  pathValidation_validate := toy_collision
|}.

Definition toy_node_of (q : Q) : nat := if Qle_bool 10 q then 1%nat else 0%nat.

(** The nodes of the component, at most [K] of them. *)
Definition toy_Knearest (r : Roadmap Q nat Segment) (q : Q) (cc K : nat)
    : list (Node Q nat) :=
  take K (List.filter (fun n => Nat.eqb (default (handle n) (componentOf_ r !! handle n)) cc)
                      (nodes_ r)).

#[global] Instance toy_roadmap : RoadmapInterface Q Q nat Segment := {|
  distance := fun q1 q2 => Qred (Qabs (q1 - q2));
  graphNodeOf := toy_node_of;
  KnearestSearch := toy_Knearest
|}.

Definition e0 : Edge := {| id := 0; name := "e0" |}.

(** A problem with one edge.  Its steering goes from [q1] towards [q2], at
    most 12 further, in 2 seconds.  [projector] is the path projector, if
    any, and [validation] the path validation of the problem. *)
Definition toy_problem_with (projector : option (Path Segment -> ProjectorResult Segment))
    (q_rand : Q) (validation : Path Segment -> bool -> outcome (bool * Path Segment))
    : Problem Q nat Segment := {|
  configSize := 1;
  newConfiguration := fun _ => 0;
  shoot := q_rand;
  steeringMethod := fun q1 q2 => Some (segment q1 q2 0 1);
  pathProjector := projector;
  pathValidation := validation;
  graphNodes := [0%nat; 1%nat];
  chooseEdge := fun _ => Some e0;
  applyConstraints := fun _ _ q => (true, q);
  build := fun _ q1 q2 =>
    Some (segment q1 (if Qle_bool (q1 + 12) q2 then Qred (q1 + 12) else q2) 0 2)
|}.

(** The problem without path projector. *)
Definition toy_problem := toy_problem_with None.

(** A path projector that projects the first three quarters of a path and
    fails beyond. *)
Definition three_quarters (p : Path Segment) : ProjectorResult Segment :=
  Shortened (toy_extract p ((toy_timeRange p).1,
                            Qred ((toy_timeRange p).1 + (3 # 4) * toy_length p))).

(** The graph path validation over the obstacle, and a validation for a
    scene without obstacle. *)
Definition graph_validation : Path Segment -> bool -> outcome (bool * Path Segment) :=
  GraphPathValidation.validate false 3.

Definition free_space : PathValidationInterface Segment := {|
  pathValidation_validate := fun p _ => (true, p)
|}.

Definition no_obstacle : Path Segment -> bool -> outcome (bool * Path Segment) :=
  GraphPathValidation.validate (PV := free_space) false 3.

Definition node0 : Node Q nat := {| handle := 0; configuration := 0; graphNode := 0%nat |}.

(** A roadmap with the single node [node0]. *)
Definition roadmap0 : Roadmap Q nat Segment :=
  {| nodes_ := [node0]; componentOf_ := [0%nat]; edges_ := [] |}.

(** A roadmap with two nodes connected in both directions and a third
    node in a component of its own. *)
Definition node1 : Node Q nat := {| handle := 1; configuration := 1; graphNode := 0%nat |}.
Definition node2 : Node Q nat := {| handle := 2; configuration := 2; graphNode := 0%nat |}.

Definition roadmap1 : Roadmap Q nat Segment :=
  {| nodes_ := [node0; node1; node2];
     componentOf_ := [0%nat; 0%nat; 2%nat];
     edges_ := [ {| from := 0; to := 1; edgePath := segment 0 1 0 1 |};
                 {| from := 1; to := 0; edgePath := segment 1 0 1 0 |} ] |}.

(** The planner as constructed on [roadmap0]. *)
Definition planner0 (q_rand : Q) validation : ManipulationPlanner Q Q nat Segment :=
  Planner.ManipulationPlanner_ (toy_problem q_rand validation) (Some roadmap0).

(** The planner as constructed on [roadmap1], and the local variables of
    [oneStep] after its extension loop towards 3: the component of [node0]
    and [node1] is extended to a node at 3, and the extension of [node2],
    to 3 as well, is delayed. *)
Definition planner1 (q_rand : Q) validation : ManipulationPlanner Q Q nat Segment :=
  Planner.ManipulationPlanner_ (toy_problem q_rand validation) (Some roadmap1).

Definition step1 : Planner.StepState :=
  {| Planner.newNodes := [ {| handle := 3; configuration := 3; graphNode := 0%nat |} ];
     Planner.delayedEdges := [ (node2, 3, segment 2 3 0 2) ];
     Planner.path := Some (segment 2 3 0 2) |}.

(** A call of [extend] from [node0] towards [q_rand], without path projector
    and with the projector [three_quarters]. *)
Definition attempt (q_rand : Q) : Planner.Attempt :=
  {| Planner.a_problem := toy_problem q_rand graph_validation;
     Planner.a_near := node0;
     Planner.a_rand := q_rand; Planner.a_validPath := None |}.

Definition attempt_projected (q_rand : Q) : Planner.Attempt :=
  {| Planner.a_problem := toy_problem_with (Some three_quarters) q_rand graph_validation;
     Planner.a_near := node0;
     Planner.a_rand := q_rand; Planner.a_validPath := None |}.

(** Three segments in a row; the second one enters the obstacle halfway. *)
Definition p1 : Path Segment := segment 0 2 0 1.
Definition p2 : Path Segment := segment 2 4 0 1.
Definition p3 : Path Segment := segment 4 5 0 1.
Definition p2_valid : Path Segment := segment 2 3 0 (1 # 2).

(** A problem whose edge cannot be projected on, and one whose edge cannot
    be steered along. *)
Definition stuck_problem (q_rand : Q) : Problem Q nat Segment := {|
  configSize := 1;
  newConfiguration := fun _ => 0;
  shoot := q_rand;
  steeringMethod := fun q1 q2 => Some (segment q1 q2 0 1);
  pathProjector := None;
  pathValidation := graph_validation;
  graphNodes := [0%nat; 1%nat];
  chooseEdge := fun _ => Some e0;
  applyConstraints := fun _ _ q => (false, q);
  build := fun _ q1 q2 => Some (segment q1 q2 0 2)
|}.

Definition unsteerable_problem (q_rand : Q) : Problem Q nat Segment := {|
  configSize := 1;
  newConfiguration := fun _ => 0;
  shoot := q_rand;
  steeringMethod := fun q1 q2 => None;
  pathProjector := None;
  pathValidation := graph_validation;
  graphNodes := [0%nat; 1%nat];
  chooseEdge := fun _ => Some e0;
  applyConstraints := fun _ _ q => (true, q);
  build := fun _ q1 q2 => None
|}.

Definition attempt_stuck (q_rand : Q) : Planner.Attempt :=
  {| Planner.a_problem := stuck_problem q_rand;
     Planner.a_near := node0;
     Planner.a_rand := q_rand; Planner.a_validPath := None |}.

(** A constraint graph like [toy_graph] whose path constraints hold at the
    configurations up to 2 only. *)
Definition strict_graph : GraphInterface Q nat nat nat := {|
  getNode := fun q => if Qle_bool 0 q
                      then Some (if Qle_bool 10 q then [1%nat] else [0%nat])
                      else None;
  getEdge := fun _ _ => [[0%nat]; [1%nat]];
  pathConstraint := fun _ => 0%nat;
  offsetFromConfig := fun c _ => c;
  isSatisfied := fun _ q => Qle_bool q 2
|}.

(** A segment from node 0 of the graph to node 1, through the obstacle, and
    its part below the obstacle. *)
Definition p_far : Path Segment := segment 0 12 0 1.
Definition p_far_valid : Path Segment := segment 0 3 0 (1 # 4).

End Toy.


(** ** The shape of a path

    The leaf paths of a path, in order, and the depth of nesting of its
    vectors. *)
Fixpoint leaves {Leaf : Type} (p : Path Leaf) : list (Path Leaf) :=
  match p with
  | LeafPath _ => [p]
  | PathVector _ paths => concat (map leaves paths)
  end.

Fixpoint depth {Leaf : Type} (p : Path Leaf) : nat :=
  match p with
  | LeafPath _ => 0
  | PathVector _ paths => S (foldr Nat.max 0 (map depth paths))
  end.

(** ** Notions used to state the properties of the validation *)

Module ValidationNotions.
Section Notions.
Context {value_type Configuration ConstraintSet Leaf GraphNode GraphEdge : Type}.
Context {PI : PathInterface value_type Configuration ConstraintSet Leaf}.
Context {GI : GraphInterface Configuration ConstraintSet GraphNode GraphEdge}.
Context {PV : PathValidationInterface Leaf}.
Variable NDEBUG : bool.

(** The collision validation accepts the path. *)
Definition collisionFree (reverse : bool) (p : Path Leaf) : Prop :=
  (pathValidation_validate p reverse).1 = true.

(** The exceptions that can leave the validation: the projection error of
    an extraction and, when assertions are compiled in, a failed assertion. *)
Definition mayThrow (e : exn) : Prop :=
  e = projection_error \/ (NDEBUG = false /\ e = assertion_failed).

(** The ends of the collision-free part [pathNoCollision] are in the nodes
    [origNodes] and [destNodes] of the graph, every lookup succeeds, and the
    nodes at the start or at the end of [path] are others. *)
Definition modeChange (path pathNoCollision : Path Leaf)
    (origNodes destNodes : list GraphNode) : Prop :=
  getNode (eval pathNoCollision (timeRange pathNoCollision).1) = Some origNodes
  /\ getNode (eval pathNoCollision (timeRange pathNoCollision).2) = Some destNodes
  /\ exists oldOrig,
      getNode (eval path (timeRange path).1) = Some oldOrig
      /\ (origNodes <> oldOrig
          \/ exists oldDest,
              getNode (eval path (timeRange path).2) = Some oldDest
              /\ destNodes <> oldDest).

(** The path constraint of the candidate [edges], offset at the start of
    [pathNoCollision]. *)
Definition candidateConstraint (pathNoCollision : Path Leaf) (edges : list GraphEdge)
    : ConstraintSet :=
  offsetFromConfig (pathConstraint edges)
    (eval pathNoCollision (timeRange pathNoCollision).1).

(** The assertion on the candidate holds, or is compiled out. *)
Definition asserted (pathNoCollision : Path Leaf) (edges : list GraphEdge) : Prop :=
  NDEBUG || isSatisfied (candidateConstraint pathNoCollision edges)
              (eval pathNoCollision (timeRange pathNoCollision).1) = true.

(** The constraint of the candidate holds at the end of [pathNoCollision]. *)
Definition explains (pathNoCollision : Path Leaf) (edges : list GraphEdge) : bool :=
  isSatisfied (candidateConstraint pathNoCollision edges)
    (eval pathNoCollision (timeRange pathNoCollision).2).

End Notions.
End ValidationNotions.

(** ** Notions used to state the properties of the planner *)

Module PlannerNotions.
Import Planner.
Section Notions.
Context {value_type Configuration GraphNode Leaf : Type}.

Definition event_eqb (ev ev' : Event) : bool :=
  match ev, ev' with
  | Success, Success => true
  | Failure t, Failure t' => Nat.eqb (rank t) (rank t')
  | _, _ => false
  end.

(** How many times the event is in the sequence. *)
Definition occurrences (ev : Event) (evs : list Event) : nat :=
  List.length (List.filter (event_eqb ev) evs).

(** The failure of a call of [extend] before a path exists: [PROJECTION]
    when [applyConstraints] of the selected edge returns false,
    [STEERING_METHOD] when it returns true and [build] returns false. *)
Definition earlyFailure (a : Attempt (Configuration := Configuration)
                                 (GraphNode := GraphNode) (Leaf := Leaf))
    : option TypeOfFailure :=
  match chooseEdge (a_problem a) (a_near a) with
  | None => None
  | Some edge =>
      let '(applied, q) := applyConstraints (a_problem a) edge (a_near a) (a_rand a) in
      if negb applied then Some PROJECTION
      else match build (a_problem a) edge (configuration (a_near a)) q with
           | None => Some STEERING_METHOD
           | Some _ => None
           end
  end.

(** The planner has no statistics, as when it is constructed. *)
Definition noStatistics (s : ManipulationPlanner value_type Configuration GraphNode Leaf)
    : Prop :=
  indexPerEdgeStatistics_ s = [] /\ perEdgeStatistics_ s = [].

End Notions.
End PlannerNotions.

(** ** Notions used to state the properties of the connection and of a step *)

Module ConnectionNotions.
Import RoadmapOps Planner.
Section Notions.
Context {value_type Configuration GraphNode Leaf : Type}.

Abbreviation NodeT := (Node Configuration GraphNode).
Abbreviation RoadmapT := (Roadmap Configuration GraphNode Leaf).
Abbreviation PlannerT := (ManipulationPlanner value_type Configuration GraphNode Leaf).

(** From [r] to [r'], between [lo] and [hi] edges were added. *)
Definition addedEdges (r r' : RoadmapT) (lo hi : nat) : Prop :=
  List.length (edges_ r) + lo <= List.length (edges_ r')
  <= List.length (edges_ r) + hi.

(** A computation that has added one or two edges when it answers true, and
    none when it answers false. *)
Definition connectsCounted (m : PlannerM RoadmapT bool) : Prop :=
  forall r b,
    (m r).2 = Ret b ->
    addedEdges r (m r).1 (if b then 1 else 0) (if b then 2 else 0).

(** A loop that counts its connections: when it returns, the counter has
    grown by some [k], at most [bound], and between [k] and [2 * k] edges
    were added. *)
Definition countsConnections (bound : nat) (m : nat -> PlannerM RoadmapT nat) : Prop :=
  forall nbConnection r nb,
    (m nbConnection r).2 = Ret nb ->
    exists k, nb = nbConnection + k /\ k <= bound
              /\ addedEdges r (m nbConnection r).1 k (2 * k).

(** The number of pairs [(itn1, itn2)] that [tryConnectNewNodes] visits
    when it is given [n] nodes. *)
Fixpoint pairs (n : nat) : nat :=
  match n with
  | 0 => 0
  | S n' => n' + pairs n'
  end.

(** All the nodes are in the connected component [cc]. *)
Definition inComponent (r : RoadmapT) (cc : nat) (nodes : list NodeT) : Prop :=
  Forall (fun n => connectedComponent r n = cc) nodes.

(** The roadmap [r'] holds the nodes and the edges of [r], in the same
    order, and possibly more after them. *)
Definition grows (r r' : RoadmapT) : Prop :=
  nodes_ r `prefix_of` nodes_ r' /\ edges_ r `prefix_of` edges_ r'.

(** What a step keeps of the planner: [extendStep_], the consistency of the
    statistics, and the nodes and edges of the roadmap. *)
Definition stepInvariant (s s' : PlannerT) : Prop :=
  extendStep_ s' = extendStep_ s
  /\ (stat_wf s -> stat_wf s')
  /\ match roadmap_ s, roadmap_ s' with
     | Some r, Some r' => grows r r'
     | None, None => True
     | _, _ => False
     end.

End Notions.

Section Distinct.
Context {Configuration GraphNode : Type}.
Context {CI : ConfigurationInterface Configuration}.

(** No node of [nodes] has a configuration that [belongs] finds among
    [seen] or among the nodes before it. *)
Fixpoint distinctFrom (seen nodes : list (Node Configuration GraphNode)) : bool :=
  match nodes with
  | [] => true
  | n :: nodes' =>
      negb (belongs (configuration n) seen) && distinctFrom (seen ++ [n]) nodes'
  end.

(** The progress of the extension loop of [oneStep]: the new nodes have
    configurations that [belongs] tells apart, each delayed edge leads to a
    configuration that belongs to the new nodes, and with [budget]
    iterations of the inner loop to come, the new nodes and the delayed
    edges are at most [bound - budget]. *)
Definition stepProgress {Leaf : Type} (bound budget : nat)
    (st : StepState (Configuration := Configuration) (GraphNode := GraphNode)
                    (Leaf := Leaf)) : Prop :=
  distinctFrom [] (newNodes st) = true
  /\ Forall (fun d => belongs d.1.2 (newNodes st) = true) (delayedEdges st)
  /\ List.length (newNodes st) + List.length (delayedEdges st) + budget <= bound.

End Distinct.
End ConnectionNotions.

(** * Properties of the graph path validation *)

Module GraphPathValidationFacts.
Import GraphPathValidation.
Section Facts.
Context {value_type Configuration ConstraintSet Leaf GraphNode GraphEdge : Type}.
Context `{EqDecision GraphNode}.
Context {PI : PathInterface value_type Configuration ConstraintSet Leaf}.
Context {GI : GraphInterface Configuration ConstraintSet GraphNode GraphEdge}.
Context {PV : PathValidationInterface Leaf}.
Variable NDEBUG : bool.

Abbreviation PathT := (Path Leaf).
Implicit Types (path validPart : PathT) (reverse : bool) (fuel : nat).

Lemma appendCopies_replicate (p : list PathT) (sub : PathT) (count : nat) :
  appendCopies p sub count = p ++ replicate count (copy sub).
Proof.
  revert p; induction count as [|c IH]; intros p; simpl.
  - by rewrite app_nil_r.
  - rewrite IH. unfold appendPath. by rewrite <- app_assoc.
Qed.

(** The loop on the sub-paths runs to its end when each of them is valid. *)
Lemma validateSubPaths_all_valid rec outputSize reverse done (todo : list PathT) :
  Forall (fun p => exists v, rec p reverse = Ret (true, v)) todo ->
  validateSubPaths rec outputSize reverse done todo = Ret None.
Proof.
  intros Hall; revert done; induction Hall as [|p todo [v Hv] _ IH]; intros done.
  - reflexivity.
  - simpl. rewrite Hv. simpl. apply IH.
Qed.

(** The loop stops at the first sub-path that is not valid; the vector it
    builds holds one copy of that very sub-path for each sub-path visited
    before it, then the valid part of that sub-path. *)
Lemma validateSubPaths_first_invalid rec outputSize reverse done
    (before after : list PathT) (sub v : PathT) :
  Forall (fun p => exists v, rec p reverse = Ret (true, v)) before ->
  rec sub reverse = Ret (false, v) ->
  validateSubPaths rec outputSize reverse done (before ++ sub :: after)
  = Ret (Some (PathVector outputSize
                 (replicate (done + List.length before) (copy sub) ++ [v]))).
Proof.
  intros Hall Hsub; revert done; induction Hall as [|p todo [w Hw] _ IH]; intros done.
  - simpl. rewrite Hsub. simpl. rewrite appendCopies_replicate.
    unfold appendPath. simpl. by rewrite Nat.add_0_r.
  - simpl. rewrite Hw. simpl. rewrite IH.
    by replace (S done + List.length todo) with (done + S (List.length todo)) by lia.
Qed.

(** The forward loop of the [PathVector] overload, at the first sub-path
    [sub], of rank [length before], that is not valid. *)
Lemma impl_validate_PathVector_forward fuel outputSize
    (before after : list PathT) (sub v : PathT) :
  Forall (fun p => exists w, impl_validate NDEBUG fuel p false = Ret (true, w)) before ->
  impl_validate NDEBUG fuel sub false = Ret (false, v) ->
  impl_validate NDEBUG (S fuel) (PathVector outputSize (before ++ sub :: after)) false
  = Ret (false, PathVector outputSize
                  (replicate (List.length before) (copy sub) ++ [v])).
Proof.
  intros Hall Hsub. simpl. unfold impl_validate_PathVector.
  by rewrite (validateSubPaths_first_invalid _ _ _ _ _ _ _ v Hall Hsub).
Qed.

Lemma validateSubPaths_true rec outputSize reverse done (todo : list PathT) path b v :
  (r <- validateSubPaths rec outputSize reverse done todo ;;
   match r with
   | Some p => Ret (false, p)
   | None => Ret (true, path)
   end)%O = Ret (b, v) ->
  b = true -> v = path.
Proof.
  destruct (validateSubPaths rec outputSize reverse done todo) as [[p|]| |];
    simpl; intros Heq Hb; try discriminate; inversion Heq; subst; congruence.
Qed.

(** The loop on the candidate edges never answers true. *)
Lemma tryPossibleEdges_false rec path pathNoCollision
    (newTmin newTmax oldTmin : value_type) reverse fromBack b v :
  tryPossibleEdges NDEBUG rec path pathNoCollision newTmin newTmax oldTmin
    reverse fromBack = Ret (b, v) ->
  b = false.
Proof.
  induction fromBack as [|back rest IH]; simpl.
  - destruct (extract path (oldTmin, oldTmin)); intros Heq; inversion Heq; done.
  - destruct (assertO NDEBUG _) as [[]| |]; simpl; try discriminate.
    destruct (isSatisfied _ (eval pathNoCollision newTmax)).
    + destruct (rec _ reverse) as [[]| |]; simpl; intros Heq; inversion Heq; done.
    + apply IH.
Qed.

(** Whenever the validation answers true, the valid part is the path it was
    given. *)
Lemma impl_validate_true fuel path reverse validPart :
  impl_validate NDEBUG fuel path reverse = Ret (true, validPart) -> validPart = path.
Proof.
  destruct fuel as [|fuel]; [discriminate|].
  destruct path as [l|outputSize paths]; simpl.
  - destruct (pathValidation_validate (LeafPath l) reverse) as [[] pathNoCollision].
    + intros Heq; inversion Heq; done.
    + destruct (lookupNodes _ _ _ _ _ _) as [[[] [origNodes destNodes]]|].
      * discriminate.
      * destruct (assertO NDEBUG _) as [[]| |]; simpl; try discriminate.
        intros Heq. apply tryPossibleEdges_false in Heq. discriminate.
      * destruct (extract _ _); discriminate.
  - unfold impl_validate_PathVector. intros Heq.
    by apply validateSubPaths_true in Heq.
Qed.

(** ** C10 *)

(** C10.  Whenever [validate] returns true, the valid part it assigns is
    the path it was given, itself: no copy, no extraction.  This is what
    happens for a leaf path that passes the collision validation, and for
    a path vector all of whose sub-paths are validated. *)
Theorem validate_true_validPart_is_path :
  (forall fuel path reverse validPart,
      validate NDEBUG fuel path reverse = Ret (true, validPart) -> validPart = path)
  /\ (forall fuel (l : Leaf) reverse pathNoCollision,
         pathValidation_validate (LeafPath l) reverse = (true, pathNoCollision) ->
         validate NDEBUG (S fuel) (LeafPath l) reverse = Ret (true, LeafPath l))
  /\ (forall fuel outputSize (paths : list PathT) reverse,
         Forall (fun p => exists v, validate NDEBUG fuel p reverse = Ret (true, v)) paths ->
         validate NDEBUG (S fuel) (PathVector outputSize paths) reverse
         = Ret (true, PathVector outputSize paths)).
Proof.
  split; [|split].
  - intros fuel path reverse validPart. apply impl_validate_true.
  - intros fuel l reverse pathNoCollision Hok. unfold validate. simpl.
    by rewrite Hok.
  - intros fuel outputSize paths reverse Hall. unfold validate. simpl.
    unfold impl_validate_PathVector.
    rewrite validateSubPaths_all_valid; [done|].
    destruct reverse; [by apply Forall_rev|done].
Qed.

(** ** C8 *)

Lemma lookupNodes_same_nodes path pathNoCollision
    (newTmin newTmax oldTmin oldTmax : value_type) origNodes destNodes :
  getNode (eval pathNoCollision newTmin) = Some origNodes ->
  getNode (eval pathNoCollision newTmax) = Some destNodes ->
  getNode (eval path oldTmin) = Some origNodes ->
  getNode (eval path oldTmax) = Some destNodes ->
  lookupNodes path pathNoCollision newTmin newTmax oldTmin oldTmax
  = Some (true, (origNodes, destNodes)).
Proof.
  intros H1 H2 H3 H4. unfold lookupNodes. rewrite H1, H2, H3. simpl.
  rewrite bool_decide_eq_true_2 by done. rewrite H4. simpl.
  by rewrite bool_decide_eq_true_2.
Qed.

(** C8.  A leaf path is shortened by the collision validation to
    [pathNoCollision].  If the constraint-graph nodes of the start of
    [pathNoCollision] are those of the start of the path, and the nodes of
    its end those of the end of the path, [validate] returns false with
    [pathNoCollision] itself as the valid part. *)
Theorem validate_collision_on_same_edge fuel (l : Leaf) reverse pathNoCollision
    origNodes destNodes :
  let path := LeafPath l in
  pathValidation_validate path reverse = (false, pathNoCollision) ->
  getNode (eval pathNoCollision (timeRange pathNoCollision).1) = Some origNodes ->
  getNode (eval pathNoCollision (timeRange pathNoCollision).2) = Some destNodes ->
  getNode (eval path (timeRange path).1) = Some origNodes ->
  getNode (eval path (timeRange path).2) = Some destNodes ->
  validate NDEBUG (S fuel) path reverse = Ret (false, pathNoCollision).
Proof.
  intros path Hcol H1 H2 H3 H4. unfold validate. subst path. simpl.
  rewrite Hcol.
  by rewrite (lookupNodes_same_nodes _ _ _ _ _ _ _ _ H1 H2 H3 H4).
Qed.

(** ** C7 *)

(** The lookups of the [try] block, in the order of their evaluation; the
    lookup at the end of the path is evaluated only when the nodes at both
    starts are equal. *)
Lemma lookupNodes_raises path pathNoCollision
    (newTmin newTmax oldTmin oldTmax : value_type) :
  getNode (eval pathNoCollision newTmin) = None
  \/ getNode (eval pathNoCollision newTmax) = None
  \/ getNode (eval path oldTmin) = None
  \/ (getNode (eval pathNoCollision newTmin) = getNode (eval path oldTmin)
      /\ getNode (eval path oldTmax) = None) ->
  lookupNodes path pathNoCollision newTmin newTmax oldTmin oldTmax = None.
Proof.
  unfold lookupNodes.
  destruct (getNode (eval pathNoCollision newTmin)) as [origNodes|]; simpl; [|done].
  destruct (getNode (eval pathNoCollision newTmax)) as [destNodes|]; simpl; [|done].
  destruct (getNode (eval path oldTmin)) as [oldOrig|]; simpl; [|done].
  intros [Hr|[Hr|[Hr|[Heq Hr]]]]; try discriminate.
  inversion Heq; subst. rewrite bool_decide_eq_true_2 by done.
  by rewrite Hr.
Qed.

Lemma validateSubPaths_no_logic_error rec outputSize reverse done (todo : list PathT) :
  (forall p, rec p reverse <> Throw logic_error) ->
  validateSubPaths rec outputSize reverse done todo <> Throw logic_error.
Proof.
  intros Hrec; revert done; induction todo as [|p todo IH]; intros done; simpl.
  - discriminate.
  - specialize (Hrec p). destruct (rec p reverse) as [[[] v]|e|]; simpl.
    + apply IH.
    + discriminate.
    + congruence.
    + discriminate.
Qed.

Lemma tryPossibleEdges_no_logic_error rec path pathNoCollision
    (newTmin newTmax oldTmin : value_type) reverse fromBack :
  (forall p, rec p reverse <> Throw logic_error) ->
  tryPossibleEdges NDEBUG rec path pathNoCollision newTmin newTmax oldTmin
    reverse fromBack <> Throw logic_error.
Proof.
  intros Hrec; induction fromBack as [|back rest IH]; simpl.
  - destruct (extract path (oldTmin, oldTmin)); discriminate.
  - unfold assertO. destruct (NDEBUG || _); simpl; [|discriminate].
    destruct (isSatisfied _ (eval pathNoCollision newTmax)); [|apply IH].
    match goal with |- context [rec ?p reverse] =>
      specialize (Hrec p); destruct (rec p reverse) as [[]|e|] end;
      simpl; congruence.
Qed.

(** No call of [impl_validate] lets the exception of [getNode] out. *)
Lemma impl_validate_no_logic_error fuel path reverse :
  impl_validate NDEBUG fuel path reverse <> Throw logic_error.
Proof.
  revert path reverse; induction fuel as [|fuel IH]; intros path reverse.
  - discriminate.
  - destruct path as [l|outputSize paths]; simpl.
    + destruct (pathValidation_validate (LeafPath l) reverse) as [[] pathNoCollision].
      * discriminate.
      * destruct (lookupNodes _ _ _ _ _ _) as [[[] [origNodes destNodes]]|].
        -- discriminate.
        -- unfold assertO. destruct (NDEBUG || _); simpl; [|discriminate].
           apply tryPossibleEdges_no_logic_error. intros p; apply IH.
        -- destruct (extract _ _); discriminate.
    + unfold impl_validate_PathVector.
      pose proof (validateSubPaths_no_logic_error (impl_validate NDEBUG fuel)
                    outputSize reverse 0 (if reverse then rev paths else paths)
                    (fun p => IH p reverse)) as Hloop.
      destruct (validateSubPaths _ _ _ _ _) as [[p|]|e|]; simpl; congruence.
Qed.

(** C7.  A leaf path is shortened by the collision validation.  If a
    [getNode] lookup of the validation raises its error (at the start or at
    the end of the shortened part, at the start of the path, or at the end
    of the path, which is looked up when the nodes at both starts are
    equal), [validate] returns false and the valid part is
    [path.extract ([t_min, t_min])]; and no call of [validate] lets the
    lookup error out. *)
Theorem validate_node_lookup_error fuel (l : Leaf) reverse pathNoCollision :
  let path := LeafPath l in
  let newTmin := (timeRange pathNoCollision).1 in
  let newTmax := (timeRange pathNoCollision).2 in
  let oldTmin := (timeRange path).1 in
  let oldTmax := (timeRange path).2 in
  pathValidation_validate path reverse = (false, pathNoCollision) ->
  getNode (eval pathNoCollision newTmin) = None
  \/ getNode (eval pathNoCollision newTmax) = None
  \/ getNode (eval path oldTmin) = None
  \/ (getNode (eval pathNoCollision newTmin) = getNode (eval path oldTmin)
      /\ getNode (eval path oldTmax) = None) ->
  (forall zeroLength,
      extract path (oldTmin, oldTmin) = Some zeroLength ->
      validate NDEBUG (S fuel) path reverse = Ret (false, zeroLength))
  /\ (forall fuel' path' reverse',
         validate NDEBUG fuel' path' reverse' <> Throw logic_error).
Proof.
  intros path newTmin newTmax oldTmin oldTmax Hcol Hraise.
  subst path newTmin newTmax oldTmin oldTmax. split.
  - intros zeroLength Hextract. unfold validate. simpl.
    rewrite Hcol.
    rewrite (lookupNodes_raises _ _ _ _ _ _ Hraise).
    by rewrite Hextract.
  - intros fuel' path' reverse'. apply impl_validate_no_logic_error.
Qed.

End Facts.

Import Toy.

(** C10 in the concrete world: the segment [p1] stays below the obstacle, and
    so does each sub-path of the vector [[p1; p1]]. *)
Lemma validate_true_validPart_is_path_witness :
  validate false 1 p1 false = Ret (true, p1)
  /\ validate false 2 (PathVector 1 [p1; p1]) false = Ret (true, PathVector 1 [p1; p1])
  /\ (forall validPart,
         validate false 2 (PathVector 1 [p1; p1]) false = Ret (true, validPart) ->
         validPart = PathVector 1 [p1; p1]).
Proof.
  pose proof (validate_true_validPart_is_path (PI := toy_paths) (GI := toy_graph)
                (PV := toy_pathValidation) false) as [Hsame [Hleaf Hvector]].
  split; [|split].
  - apply (Hleaf 0%nat _ false p1). reflexivity.
  - apply (Hvector 1%nat). repeat constructor; exists p1; reflexivity.
  - intros validPart. apply Hsame.
Defined.

(** C8 in the concrete world: [p2] enters the obstacle halfway and all its
    configurations are in node 0. *)
Lemma validate_collision_on_same_edge_witness :
  validate false 1 p2 false = Ret (false, p2_valid).
Proof.
  apply (validate_collision_on_same_edge (PI := toy_paths) (GI := toy_graph)
           (PV := toy_pathValidation) false 0%nat _ false p2_valid [0%nat] [0%nat]);
    reflexivity.
Defined.

(** C7 in the concrete world: a segment that starts at the configuration -1,
    which is in no node of the graph, and ends in the obstacle. *)
Lemma validate_node_lookup_error_witness :
  validate false 1 (segment (-1) 4 0 1) false = Ret (false, segment (-1) (-1) 0 0).
Proof.
  apply (validate_node_lookup_error (PI := toy_paths) (GI := toy_graph)
           (PV := toy_pathValidation) false 0%nat _ false (segment (-1) 3 0 (4 # 5))).
  - reflexivity.
  - left. reflexivity.
  - reflexivity.
Defined.

(** C1.  The vector [[p1; p2; p3]], whose second sub-path enters the obstacle
    halfway, is not valid, and the valid part does not start with [p1]: the
    loop that gathers the valid sub-paths appends [pathAtRank (i)], the
    sub-path that is not valid, once for each of its predecessors. *)
Theorem validate_PathVector_repeats_invalid_subpath :
  validate false 2 (PathVector 1 [p1; p2; p3]) false
  = Ret (false, PathVector 1 [copy p2; p2_valid])
  /\ validate false 1 p1 false = Ret (true, p1)
  /\ validate false 1 p2 false = Ret (false, p2_valid)
  /\ PathVector 1 [copy p2; p2_valid] <> PathVector 1 [p1; p2_valid].
Proof.
  split; [|split; [|split]]; [vm_compute; reflexivity ..|].
  vm_compute. discriminate.
Qed.

End GraphPathValidationFacts.

(** * Properties of the planner *)

Module PlannerFacts.
Import Planner.
Section Statistics.
Context {value_type Configuration ConstraintSet GraphNode Leaf : Type}.
Context `{EqDecision GraphNode}.
Context {VT : ValueType value_type}.
Context {CI : ConfigurationInterface Configuration}.
Context {PI : PathInterface value_type Configuration ConstraintSet Leaf}.
Context {RI : RoadmapInterface value_type Configuration GraphNode Leaf}.

Abbreviation PathT := (Path Leaf).
Abbreviation NodeT := (Node Configuration GraphNode).
Abbreviation RoadmapT := (Roadmap Configuration GraphNode Leaf).
Abbreviation ProblemT := (Problem Configuration GraphNode Leaf).
Abbreviation PlannerT := (ManipulationPlanner value_type Configuration GraphNode Leaf).

(** ** C2 *)

(** C2.  [create] called with a manipulation problem and a roadmap that is
    not a manipulation roadmap throws nothing: the pointer cast yields a
    null pointer and the planner is constructed on it.  When the problem is
    not a manipulation problem, [create] throws [std::invalid_argument],
    and the message is the one about the roadmap, whatever the roadmap. *)
Theorem create_accepts_core_roadmap :
  (forall (p : ProblemT),
      create (manipulation_Problem p) (Some core_Roadmap_only)
      = Ret (ManipulationPlanner_ p None))
  /\ (forall roadmap,
         create (Configuration := Configuration) (GraphNode := GraphNode)
                (Leaf := Leaf) core_Problem_only roadmap
         = Throw (invalid_argument
                    "The roadmap must be of type hpp::manipulation::Roadmap.")).
Proof. split; reflexivity. Qed.

(** ** C3 *)

(** C3.  For an edge that the planner never observed, [getEdgeStat] returns
    six zeros, not seven: the first branch pushes six entries and no entry
    for the successes. *)
Theorem getEdgeStat_never_observed (problem : ProblemT) roadmap (edge : Edge) :
  getEdgeStat (ManipulationPlanner_ problem roadmap) edge = [0; 0; 0; 0; 0; 0]
  /\ List.length (getEdgeStat (ManipulationPlanner_ problem roadmap) edge) = 6.
Proof. split; reflexivity. Qed.

(** For an observed edge the vector has seven entries: the successes, then
    the failures for the first six reasons. *)
Lemma getEdgeStat_observed (s : PlannerT) (edge : Edge) :
  observed s edge = true ->
  getEdgeStat s edge
  = successes s edge :: map (failures s edge) reportedReasons.
Proof.
  unfold getEdgeStat, successes, failures, observed.
  destruct (_ || _); simpl; [discriminate|]. reflexivity.
Qed.

Lemma edgeStatSum_unfold (s : PlannerT) (edge : Edge) :
  edgeStatSum s edge
  = successes s edge + foldr Nat.add 0 (map (failures s edge) reportedReasons).
Proof.
  unfold edgeStatSum. destruct (observed s edge) eqn:Hobs.
  - by rewrite getEdgeStat_observed.
  - unfold getEdgeStat, successes, failures. rewrite Hobs.
    unfold observed in Hobs. destruct (_ || _); [reflexivity|discriminate].
Qed.

Lemma stat_wf_wf (s : PlannerT) :
  stat_wf s <-> wf (indexPerEdgeStatistics_ s) (perEdgeStatistics_ s).
Proof. reflexivity. Qed.

Lemma observed_lookup (s : PlannerT) (edge : Edge) :
  observed s edge = true <->
  exists z, indexPerEdgeStatistics_ s !! id edge = Some z /\ (0 <= z)%Z.
Proof.
  unfold observed. rewrite negb_true_iff, orb_false_iff, Nat.leb_gt, Z.ltb_ge.
  split.
  - intros [Hlen Hpos].
    destruct (lookup_lt_is_Some_2 _ _ Hlen) as [z Hz].
    exists z. split; [done|].
    by rewrite (list_lookup_total_correct _ _ _ Hz) in Hpos.
  - intros [z [Hz Hpos]]. split; [by eapply lookup_lt_Some|].
    by rewrite (list_lookup_total_correct _ _ _ Hz).
Qed.

Lemma view_observed (s : PlannerT) (edge : Edge) :
  stat_wf s -> observed s edge = true ->
  view (indexPerEdgeStatistics_ s) (perEdgeStatistics_ s) (id edge)
  = Some (statisticsOf s edge).
Proof.
  intros Hwf Hobs. apply observed_lookup in Hobs as [z [Hz Hpos]].
  unfold view, statisticsOf. rewrite Hz, bool_decide_eq_true_2 by done.
  rewrite (list_lookup_total_correct _ _ _ Hz).
  destruct (Hwf _ _ Hz Hpos) as [Hlt _].
  by apply list_lookup_lookup_total_lt.
Qed.

Lemma view_unobserved (s : PlannerT) (edge : Edge) :
  observed s edge = false ->
  view (indexPerEdgeStatistics_ s) (perEdgeStatistics_ s) (id edge) = None.
Proof.
  intros Hobs. unfold view.
  destruct (indexPerEdgeStatistics_ s !! id edge) as [z|] eqn:Hz; [|done].
  case_bool_decide; [|done].
  assert (observed s edge = true) by (apply observed_lookup; eauto).
  congruence.
Qed.

Lemma successes_view (s : PlannerT) (edge : Edge) :
  stat_wf s ->
  successes s edge
  = from_option nbSuccess 0
      (view (indexPerEdgeStatistics_ s) (perEdgeStatistics_ s) (id edge)).
Proof.
  intros Hwf. unfold successes. destruct (observed s edge) eqn:Hobs.
  - by rewrite view_observed.
  - by rewrite view_unobserved.
Qed.

Lemma failures_view (s : PlannerT) (edge : Edge) (t : TypeOfFailure) :
  stat_wf s ->
  failures s edge t
  = from_option (fun ss => nbFailure ss (reasons_at (rank t))) 0
      (view (indexPerEdgeStatistics_ s) (perEdgeStatistics_ s) (id edge)).
Proof.
  intros Hwf. unfold failures. destruct (observed s edge) eqn:Hobs.
  - by rewrite view_observed.
  - by rewrite view_unobserved.
Qed.

Lemma resize_lookup (index : list Z) (n i : nat) (z : Z) :
  resize index n !! i = Some z ->
  index !! i = Some z \/ (List.length index <= i /\ z = (-1)%Z).
Proof.
  unfold resize. rewrite lookup_app_Some.
  intros [Hl|[Hlen Hr]]; [by left|right].
  apply lookup_replicate in Hr as [-> _]. done.
Qed.

Lemma wf_resize index per n : wf index per -> wf (resize index n) per.
Proof.
  intros Hwf i z Hi Hpos.
  apply resize_lookup in Hi as [Hi|[_ ->]]; [|lia].
  destruct (Hwf _ _ Hi Hpos) as [Hlt Huniq]. split; [done|].
  intros j Hj. apply resize_lookup in Hj as [Hj|[_ ->]]; [by apply Huniq|lia].
Qed.

Lemma view_resize index per n i : view (resize index n) per i = view index per i.
Proof.
  unfold view.
  destruct (resize index n !! i) as [z|] eqn:Hr.
  - apply resize_lookup in Hr as [Hi|[Hlen ->]].
    + by rewrite Hi.
    + rewrite (lookup_ge_None_2 index i) by done.
      by rewrite bool_decide_eq_false_2 by lia.
  - apply lookup_ge_None_1 in Hr. unfold resize in Hr. rewrite length_app in Hr.
    by rewrite (lookup_ge_None_2 index i) by lia.
Qed.

(** A first observation: a new element of [perEdgeStatistics_]. *)
Lemma wf_insert_new index per i new :
  wf index per -> i < List.length index ->
  (forall z, index !! i = Some z -> (z < 0)%Z) ->
  wf (<[i := Z.of_nat (List.length per)]> index) (per ++ [new])
  /\ forall j, view (<[i := Z.of_nat (List.length per)]> index) (per ++ [new]) j
               = if decide (j = i) then Some new else view index per j.
Proof.
  intros Hwf Hlen Hneg. split.
  - intros j z Hj Hpos. rewrite length_app. simpl.
    destruct (decide (i = j)) as [->|Hne].
    + rewrite list_lookup_insert_eq in Hj by done. inversion Hj; subst.
      split; [lia|].
      intros j'. destruct (decide (j = j')) as [->|Hne']; [done|].
      rewrite list_lookup_insert_ne by done. intros Hj'.
      destruct (Hwf _ _ Hj' ltac:(lia)) as [Hlt _]. lia.
    + rewrite list_lookup_insert_ne in Hj by done.
      destruct (Hwf _ _ Hj Hpos) as [Hlt Huniq]. split; [lia|].
      intros j'. destruct (decide (i = j')) as [<-|Hne'].
      * rewrite list_lookup_insert_eq by done. intros Heq; inversion Heq; lia.
      * rewrite list_lookup_insert_ne by done. apply Huniq.
  - intros j. unfold view. destruct (decide (j = i)) as [->|Hne].
    + rewrite list_lookup_insert_eq by done.
      rewrite bool_decide_eq_true_2 by lia.
      rewrite Nat2Z.id. by rewrite lookup_app_r, Nat.sub_diag by lia.
    + rewrite list_lookup_insert_ne by done.
      destruct (index !! j) as [z|] eqn:Hj; [|done].
      case_bool_decide as Hpos; [|done].
      destruct (Hwf _ _ Hj Hpos) as [Hlt _].
      by rewrite lookup_app_l.
Qed.

(** An update of the statistics that a non-negative index designates. *)
Lemma wf_alter index per i z f :
  wf index per -> index !! i = Some z -> (0 <= z)%Z ->
  wf index (alter f (Z.to_nat z) per)
  /\ forall j, view index (alter f (Z.to_nat z) per) j
               = if decide (j = i) then f <$> view index per j else view index per j.
Proof.
  intros Hwf Hi Hpos. split.
  - intros j z' Hj Hpos'. rewrite length_alter. by apply Hwf.
  - intros j. unfold view. destruct (decide (j = i)) as [->|Hne].
    + rewrite Hi, bool_decide_eq_true_2 by done. apply list_lookup_alter_eq.
    + destruct (index !! j) as [z'|] eqn:Hj; [|done].
      case_bool_decide as Hpos'; [|done].
      apply list_lookup_alter_ne. intros Heq.
      assert (z' = z) as -> by lia.
      destruct (Hwf _ _ Hi Hpos) as [_ Huniq]. by apply Hne, Huniq.
Qed.

(** [edgeStat]: the statistics of the edge exist afterwards, new ones if the
    edge was not observed; the statistics of the other edges are as before. *)
Lemma edgeStat_view (s : PlannerT) (edge : Edge) :
  stat_wf s ->
  exists s1 es,
    edgeStat edge s = (s1, Ret es)
    /\ stat_wf s1
    /\ indexPerEdgeStatistics_ s1 !! id edge = Some (Z.of_nat es)
    /\ roadmap_ s1 = roadmap_ s /\ extendStep_ s1 = extendStep_ s
    /\ forall j, view (indexPerEdgeStatistics_ s1) (perEdgeStatistics_ s1) j
                 = if decide (j = id edge)
                   then Some (default (newSuccessStatistics (name edge) 2)
                                (view (indexPerEdgeStatistics_ s)
                                   (perEdgeStatistics_ s) j))
                   else view (indexPerEdgeStatistics_ s) (perEdgeStatistics_ s) j.
Proof.
  intros Hwf. apply stat_wf_wf in Hwf. unfold edgeStat.
  set (index := indexPerEdgeStatistics_ s) in *.
  set (per := perEdgeStatistics_ s) in *.
  set (index1 := if List.length index <=? id edge
                 then resize index (id edge + 1) else index).
  assert (wf index1 per) as Hwf1.
  { subst index1. destruct (_ <=? _); [by apply wf_resize|done]. }
  assert (forall j, view index1 per j = view index per j) as Hview1.
  { intros j. subst index1. destruct (_ <=? _); [apply view_resize|done]. }
  assert (id edge < List.length index1) as Hlen1.
  { subst index1. destruct (Nat.leb_spec (List.length index) (id edge)); [|done].
    unfold resize. rewrite length_app, length_replicate. lia. }
  destruct (lookup_lt_is_Some_2 _ _ Hlen1) as [z Hz].
  rewrite (list_lookup_total_correct _ _ _ Hz).
  destruct (Z.ltb_spec z 0) as [Hneg|Hpos].
  - destruct (wf_insert_new index1 per (id edge)
                (newSuccessStatistics (name edge) 2) Hwf1 Hlen1) as [Hwf2 Hview2].
    { intros z' Hz'. congruence. }
    eexists _, _. split; [reflexivity|]. simpl.
    rewrite (list_lookup_total_correct _ _ (Z.of_nat (List.length per)))
      by (by apply list_lookup_insert_eq).
    rewrite Nat2Z.id.
    split; [done|]. split; [by apply list_lookup_insert_eq|].
    split; [done|]. split; [done|].
    intros j. rewrite Hview2. destruct (decide (j = id edge)) as [->|]; [|apply Hview1].
    rewrite <- Hview1. unfold view. rewrite Hz.
    by rewrite bool_decide_eq_false_2 by lia.
  - eexists _, _. split; [reflexivity|]. simpl.
    rewrite (list_lookup_total_correct _ _ _ Hz).
    split; [done|]. split; [by rewrite Z2Nat.id|].
    split; [done|]. split; [done|].
    intros j. rewrite Hview1. destruct (decide (j = id edge)) as [->|]; [|done].
    rewrite <- Hview1. unfold view. rewrite Hz, bool_decide_eq_true_2 by done.
    destruct (Hwf1 _ _ Hz Hpos) as [Hlt _].
    destruct (lookup_lt_is_Some_2 _ _ Hlt) as [ss ->]. done.
Qed.

(** ** What one call of [extend] records *)

Lemma extendEvents_units evs :
  In evs extendEvents -> 1 <= reportedUnits evs <= 3.
Proof.
  unfold extendEvents. simpl.
  intros Hin.
  repeat (destruct Hin as [<-|Hin]; [simpl; lia|]). destruct Hin.
Qed.

(** The effect of a call of [extend] that selected [edge] on the state of
    the planner: [edgeStat], then a sequence of events recorded in the
    statistics of the edge.  When the call returns, the sequence is one of
    [extendEvents]. *)
Ltac events_are evs :=
  exists evs; simpl;
  split; [reflexivity|]; split; [reflexivity|]; split; [reflexivity|];
  split; [reflexivity|];
  first [ intros [? ?]; discriminate
        | intros _; unfold extendEvents; simpl; tauto ].

Ltac find_events :=
  first [ events_are constr:(@nil Event)
        | events_are constr:([Failure PATH_PROJECTION_SHORTER])
        | events_are constr:([Failure PROJECTION])
        | events_are constr:([Failure STEERING_METHOD])
        | events_are constr:([Failure PATH_PROJECTION_ZERO])
        | events_are constr:([Failure PATH_VALIDATION_ZERO])
        | events_are constr:([Failure PATH_PROJECTION_SHORTER; Failure PATH_VALIDATION_ZERO])
        | events_are constr:([Success])
        | events_are constr:([Failure PARTLY_EXTENDED])
        | events_are constr:([Failure PATH_VALIDATION_SHORTER; Failure PARTLY_EXTENDED])
        | events_are constr:([Failure PATH_VALIDATION_SHORTER; Success])
        | events_are constr:([Failure PATH_PROJECTION_SHORTER; Failure PARTLY_EXTENDED])
        | events_are constr:([Failure PATH_PROJECTION_SHORTER; Failure PATH_VALIDATION_SHORTER;
                      Failure PARTLY_EXTENDED])
        | events_are constr:([Failure PATH_VALIDATION_SHORTER; Failure PATH_PROJECTION_SHORTER])
        | events_are constr:([Failure PATH_PROJECTION_SHORTER; Failure PATH_VALIDATION_SHORTER;
                      Failure PATH_PROJECTION_SHORTER]) ].

Lemma extend_validate_events (problem : ProblemT) es (projShorter : bool) projPath validPath
    (s1 : PlannerT) (before : list Event) :
  before = (if projShorter then [Failure PATH_PROJECTION_SHORTER] else []) ->
  exists evs,
    let '(s', res) := extend_validate problem es projShorter projPath validPath s1 in
    indexPerEdgeStatistics_ s' = indexPerEdgeStatistics_ s1
    /\ perEdgeStatistics_ s' = recordEvents es evs (perEdgeStatistics_ s1)
    /\ roadmap_ s' = roadmap_ s1 /\ extendStep_ s' = extendStep_ s1
    /\ (returns res -> In (before ++ evs) extendEvents).
Proof.
  intros ->. unfold extend_validate.
  destruct (pathValidation problem projPath false) as [[fullyValid fullValidPath]|e|].
  - destruct (v_eqb (pathLength fullValidPath) v_zero).
    + destruct projShorter; find_events.
    + unfold bindM, getM, retM, es_addFailure, es_addSuccess, modifyM.
      destruct fullyValid; simpl.
      * rewrite orb_true_r. destruct projShorter; simpl; find_events.
      * rewrite orb_false_r. destruct (v_eqb (extendStep_ s1) v_one); simpl.
        -- destruct projShorter; simpl; find_events.
        -- destruct (extract fullValidPath _); destruct projShorter; simpl; find_events.
  - destruct e, projShorter; find_events.
  - find_events.
Qed.

Lemma extend_events (problem : ProblemT) n q validPath (s s1 : PlannerT) edge es :
  chooseEdge problem n = Some edge ->
  edgeStat edge (set_qProj q s) = (s1, Ret es) ->
  exists evs,
    let '(s', res) := extend problem n q validPath s in
    indexPerEdgeStatistics_ s' = indexPerEdgeStatistics_ s1
    /\ perEdgeStatistics_ s' = recordEvents es evs (perEdgeStatistics_ s1)
    /\ roadmap_ s' = roadmap_ s1 /\ extendStep_ s' = extendStep_ s1
    /\ (returns res -> In evs extendEvents).
Proof.
  intros Hchoose HedgeStat. unfold extend. rewrite Hchoose.
  unfold bindM at 1. unfold modifyM at 1. unfold bindM at 1. rewrite HedgeStat.
  destruct (applyConstraints problem edge n q) as [applied q'].
  unfold bindM at 1. unfold modifyM at 1.
  destruct applied; simpl; [|find_events].
  destruct (build problem edge (configuration n) q') as [path|]; [|find_events].
  destruct (pathProjector problem) as [apply|].
  - destruct (apply path) as [projPath|[projPath|]].
    + destruct (extend_validate_events problem es false projPath validPath
                  (set_qProj q' s1) [] eq_refl) as [evs Hevs].
      exists evs. destruct (extend_validate _ _ _ _ _ _) as [s' res]. apply Hevs.
    + destruct (v_eqb (pathLength projPath) v_zero); [find_events|].
      unfold bindM at 1. unfold es_addFailure at 1. unfold modifyM at 1.
      match goal with |- context [extend_validate _ _ _ _ _ ?st] =>
        destruct (extend_validate_events problem es true projPath validPath st
                    [Failure PATH_PROJECTION_SHORTER] eq_refl) as [evs Hevs] end.
      exists (Failure PATH_PROJECTION_SHORTER :: evs).
      destruct (extend_validate _ _ _ _ _ _) as [s' res]. apply Hevs.
    + find_events.
  - destruct (extend_validate_events problem es false path validPath
                (set_qProj q' s1) [] eq_refl) as [evs Hevs].
    exists evs. destruct (extend_validate _ _ _ _ _ _) as [s' res]. apply Hevs.
Qed.

(** ** Counting *)

Lemma statSum_recordEvent ev ss :
  statSum (recordEvent ev ss) = statSum ss + reported ev.
Proof.
  destruct ev as [|t]; [|destruct t]; unfold statSum, nbFailure; simpl; lia.
Qed.

Lemma statSum_recordEvents evs ss :
  statSum (foldl (fun ss ev => recordEvent ev ss) ss evs)
  = statSum ss + reportedUnits evs.
Proof.
  revert ss; induction evs as [|ev evs IH]; intros ss; simpl; [lia|].
  rewrite IH, statSum_recordEvent. lia.
Qed.

Lemma edgeStatSum_view (s : PlannerT) (edge : Edge) :
  stat_wf s ->
  edgeStatSum s edge
  = from_option statSum 0
      (view (indexPerEdgeStatistics_ s) (perEdgeStatistics_ s) (id edge)).
Proof.
  intros Hwf. rewrite edgeStatSum_unfold, successes_view by done.
  unfold reportedReasons. simpl map.
  rewrite !failures_view by done.
  destruct (view _ _ _); reflexivity.
Qed.

Lemma recordEvents_view index per i es evs :
  wf index per -> index !! i = Some (Z.of_nat es) ->
  wf index (recordEvents es evs per)
  /\ forall j, view index (recordEvents es evs per) j
               = if decide (j = i)
                 then (fun ss => foldl (fun ss ev => recordEvent ev ss) ss evs)
                        <$> view index per j
                 else view index per j.
Proof.
  intros Hwf Hi. revert per Hwf; induction evs as [|ev evs IH]; intros per Hwf.
  - split; [done|]. intros j. simpl. destruct (decide (j = i)); [|done].
    by destruct (view index per j).
  - simpl.
    destruct (wf_alter index per i (Z.of_nat es) (recordEvent ev) Hwf Hi ltac:(lia))
      as [Hwf' Hview']. rewrite Nat2Z.id in Hwf', Hview'.
    destruct (IH _ Hwf') as [Hwf'' Hview'']. split; [done|].
    intros j. rewrite Hview'', Hview'. destruct (decide (j = i)); [|done].
    by destruct (view index per j).
Qed.

(** A call of [extend] that returns adds between one and three units to
    the entries of the edge it selected, and nothing to the other edges. *)
Lemma extend_edgeStatSum (problem : ProblemT) n q validPath (s s' : PlannerT) res :
  stat_wf s ->
  extend problem n q validPath s = (s', res) -> returns res ->
  stat_wf s'
  /\ forall edge,
      let k := if selects edge {| a_problem := problem; a_near := n; a_rand := q;
                                  a_validPath := validPath |}
               then 1 else 0 in
      edgeStatSum s edge + k <= edgeStatSum s' edge <= edgeStatSum s edge + 3 * k.
Proof.
  intros Hwf Hext Hret. unfold selects. simpl.
  destruct (chooseEdge problem n) as [chosen|] eqn:Hchoose.
  - destruct (edgeStat_view (set_qProj q s) chosen Hwf)
      as (s1 & es & HedgeStat & Hwf1 & Hslot & _ & _ & Hview1).
    destruct (extend_events problem n q validPath s s1 chosen es Hchoose HedgeStat)
      as [evs Hevs].
    rewrite Hext in Hevs. destruct Hevs as (Hindex & Hper & _ & _ & Hin).
    specialize (Hin Hret). apply extendEvents_units in Hin.
    destruct (recordEvents_view _ _ _ _ evs Hwf1 Hslot) as [Hwf' Hview'].
    assert (stat_wf s') as Hwfs'.
    { apply stat_wf_wf. by rewrite Hindex, Hper. }
    split; [done|]. intros edge.
    rewrite (edgeStatSum_view s') by done. rewrite (edgeStatSum_view s) by done.
    rewrite Hindex, Hper, Hview', Hview1. simpl.
    destruct (decide (id edge = id chosen)) as [Heq|Hne].
    + rewrite (proj2 (Nat.eqb_eq _ _)) by done. simpl.
      rewrite statSum_recordEvents.
      destruct (view _ _ (id edge)) as [ss|]; simpl; [lia|].
      unfold statSum. simpl. lia.
    + rewrite (proj2 (Nat.eqb_neq _ _)) by congruence. lia.
  - unfold extend in Hext. rewrite Hchoose in Hext. inversion Hext; subst.
    split; [done|]. intros edge. simpl. lia.
Qed.

Lemma extendAll_edgeStatSum (attempts : list Attempt) (s s' : PlannerT) edge :
  stat_wf s -> extendAll attempts s = (s', Ret tt) ->
  stat_wf s'
  /\ edgeStatSum s edge + nbAttempts edge attempts <= edgeStatSum s' edge
     <= edgeStatSum s edge + 3 * nbAttempts edge attempts.
Proof.
  revert s; induction attempts as [|a attempts IH]; intros s Hwf Hrun.
  - inversion Hrun; subst. split; [done|]. unfold nbAttempts. simpl. lia.
  - simpl in Hrun. unfold bindM in Hrun.
    destruct (extend (a_problem a) (a_near a) (a_rand a) (a_validPath a) s)
      as [s1 [r| |]] eqn:Hext; try discriminate.
    destruct (extend_edgeStatSum _ _ _ _ _ _ _ Hwf Hext) as [Hwf1 Hone];
      [by eexists|].
    destruct (IH _ Hwf1 Hrun) as [Hwf' Hall]. split; [done|].
    specialize (Hone edge). destruct a as [problem n q validPath]. simpl in *.
    unfold nbAttempts in *. simpl.
    destruct (selects edge _); simpl; lia.
Qed.

(** The consistency of the statistics is an invariant of the planner: it
    holds when the planner is constructed and [extend] keeps it, whatever
    its outcome. *)
Lemma stat_wf_constructed (problem : ProblemT) roadmap :
  stat_wf (value_type := value_type) (ManipulationPlanner_ problem roadmap).
Proof. intros i z Hi. discriminate. Qed.

Lemma extend_stat_wf (problem : ProblemT) n q validPath (s : PlannerT) :
  stat_wf s -> stat_wf (extend problem n q validPath s).1.
Proof.
  intros Hwf. destruct (chooseEdge problem n) as [chosen|] eqn:Hchoose.
  - destruct (edgeStat_view (set_qProj q s) chosen Hwf)
      as (s1 & es & HedgeStat & Hwf1 & Hslot & _).
    destruct (extend_events problem n q validPath s s1 chosen es Hchoose HedgeStat)
      as [evs Hevs].
    destruct (extend problem n q validPath s) as [s' res].
    destruct Hevs as (Hindex & Hper & _). simpl.
    destruct (recordEvents_view _ _ _ _ evs Hwf1 Hslot) as [Hwf' _].
    unfold stat_wf. by rewrite Hindex, Hper.
  - unfold extend. by rewrite Hchoose.
Qed.

(** ** C5 *)

(** C5, as amended.  After any sequence of calls of [extend] that return,
    starting with no statistics, the sum of the entries of
    [getEdgeStat (edge)] is at least the number of calls that selected the
    edge and at most three times that number: a call adds one unit for its
    outcome and one more for each of the informations "path could not be
    fully projected" and "path could not be fully validated", and the
    seventh reason is not among the entries. *)
Theorem getEdgeStat_sum_bounds (attempts : list Attempt) (s s' : PlannerT) edge :
  indexPerEdgeStatistics_ s = [] -> perEdgeStatistics_ s = [] ->
  extendAll attempts s = (s', Ret tt) ->
  nbAttempts edge attempts <= foldr Nat.add 0 (getEdgeStat s' edge)
  <= 3 * nbAttempts edge attempts.
Proof.
  intros Hindex Hper Hrun.
  assert (stat_wf s) as Hwf.
  { intros i z Hi. rewrite Hindex in Hi. discriminate. }
  destruct (extendAll_edgeStatSum attempts s s' edge Hwf Hrun) as [_ Hsum].
  assert (edgeStatSum s edge = 0) as Hzero.
  { unfold edgeStatSum, getEdgeStat. rewrite Hindex. reflexivity. }
  rewrite Hzero in Hsum. exact Hsum.
Qed.

(** ** C4 *)

(** C4, as amended.  When the validation finds the whole path valid (and
    the path has a length, and its projection did not shorten it),
    [extend] returns true with the whole valid path as [validPath],
    whatever [extendStep_] is: nothing is extracted.  It records one
    success for the edge and no failure, "extended partly" included. *)
Theorem extend_fully_valid_keeps_whole_path (problem : ProblemT) n_near q_rand
    validPath (s : PlannerT) edge q path projPath fullValidPath :
  stat_wf s ->
  chooseEdge problem n_near = Some edge ->
  applyConstraints problem edge n_near q_rand = (true, q) ->
  build problem edge (configuration n_near) q = Some path ->
  projectedInFull problem path = Some projPath ->
  pathValidation problem projPath false = Ret (true, fullValidPath) ->
  v_eqb (pathLength fullValidPath) v_zero = false ->
  exists s',
    extend problem n_near q_rand validPath s = (s', Ret (true, Some fullValidPath))
    /\ successes s' edge = S (successes s edge)
    /\ forall t, failures s' edge t = failures s edge t.
Proof.
  intros Hwf Hchoose Happly Hbuild Hproj Hvalid Hlen.
  destruct (edgeStat_view (set_qProj q_rand s) edge Hwf)
    as (s1 & es & HedgeStat & Hwf1 & Hslot & _ & _ & Hview1).
  destruct (recordEvents_view _ _ _ _ [Success] Hwf1 Hslot) as [Hwf' Hview'].
  assert (extend problem n_near q_rand validPath s
          = (set_statistics (indexPerEdgeStatistics_ s1)
               (recordEvents es [Success] (perEdgeStatistics_ s1)) (set_qProj q s1),
             Ret (true, Some fullValidPath))) as Hext.
  { unfold extend. rewrite Hchoose.
    unfold bindM at 1. unfold modifyM at 1. unfold bindM at 1.
    rewrite HedgeStat, Happly. unfold bindM at 1. unfold modifyM at 1.
    simpl negb. cbv iota. rewrite Hbuild.
    assert (extend_validate problem es false projPath validPath (set_qProj q s1)
            = (set_statistics (indexPerEdgeStatistics_ s1)
                 (recordEvents es [Success] (perEdgeStatistics_ s1)) (set_qProj q s1),
               Ret (true, Some fullValidPath))) as Hval.
    { unfold extend_validate. rewrite Hvalid, Hlen.
      unfold bindM, getM, retM, es_addSuccess, modifyM. simpl.
      rewrite orb_true_r. reflexivity. }
    unfold projectedInFull in Hproj.
    destruct (pathProjector problem) as [apply|].
    - destruct (apply path) as [projPath'|]; [|discriminate].
      inversion Hproj; subst. exact Hval.
    - inversion Hproj; subst. exact Hval. }
  eexists. split; [exact Hext|].
  assert (stat_wf (set_statistics (indexPerEdgeStatistics_ s1)
                     (recordEvents es [Success] (perEdgeStatistics_ s1))
                     (set_qProj q s1))) as Hwfs' by exact Hwf'.
  split.
  - rewrite successes_view by done. rewrite successes_view by done.
    simpl indexPerEdgeStatistics_. simpl perEdgeStatistics_.
    rewrite Hview', Hview1. rewrite !decide_True by done. simpl.
    by destruct (view _ _ (id edge)).
  - intros t. rewrite failures_view by done. rewrite failures_view by done.
    simpl indexPerEdgeStatistics_. simpl perEdgeStatistics_.
    rewrite Hview', Hview1. rewrite !decide_True by done. simpl.
    by destruct (view _ _ (id edge)).
Qed.

End Statistics.

Import Toy.

(** C4 in the concrete world: [extendStep_] is 1/2, the path from 0 to 2 takes
    2 seconds and stays below the obstacle. *)
Lemma extend_fully_valid_keeps_whole_path_witness :
  exists s',
    extend (toy_problem 2 graph_validation) node0 2%Q None
      (set_extendStep (1 # 2)%Q (planner0 2 graph_validation))
    = (s', Ret (true, Some (segment 0 2 0 2)))
    /\ successes s' e0 = 1
    /\ forall t, failures s' e0 t = 0.
Proof.
  apply (extend_fully_valid_keeps_whole_path (toy_problem 2 graph_validation) node0 2%Q
           None (set_extendStep (1 # 2)%Q (planner0 2 graph_validation)) e0 2%Q
           (segment 0 2 0 2) (segment 0 2 0 2) (segment 0 2 0 2)).
  - intros i z Hi. discriminate.
  - reflexivity.
  - reflexivity.
  - reflexivity.
  - reflexivity.
  - reflexivity.
  - reflexivity.
Defined.

(** C4 as stated fails: with [extendStep_ = 1/2] and a path of 2 seconds that
    the validation accepts in full, [extend] does not return a [validPath] of
    1 second and records no "extended partly". *)
Lemma extend_half_step_counterexample :
  let problem := toy_problem 2 graph_validation in
  let s := set_extendStep (1 # 2)%Q (planner0 2 graph_validation) in
  let path := segment 0 2 0 2 in
  build problem e0 0%Q 2%Q = Some path
  /\ pathLength path = 2%Q
  /\ pathValidation problem path false = Ret (true, path)
  /\ ~ (exists s' validPath,
           extend problem node0 2%Q None s = (s', Ret (true, Some validPath))
           /\ (pathLength validPath == 1)%Q
           /\ failures s' e0 PARTLY_EXTENDED = 1).
Proof.
  split; [reflexivity|]. split; [reflexivity|]. split; [reflexivity|].
  intros (s' & validPath & Hext & Hlen & _).
  vm_compute in Hext. inversion Hext; subst. vm_compute in Hlen. discriminate.
Qed.

(** C5 in the concrete world: two calls, the second towards the obstacle. *)
Lemma getEdgeStat_sum_bounds_witness :
  2 <= foldr Nat.add 0
         (getEdgeStat (extendAll [attempt 2; attempt 4] (planner0 2 graph_validation)).1 e0)
  <= 3 * 2.
Proof.
  apply (getEdgeStat_sum_bounds [attempt 2; attempt 4] (planner0 2 graph_validation)
           _ e0); reflexivity.
Defined.

(** C5 as stated fails: one call of [extend] on a path from 0 towards 8 that
    the projector shortens (to the part from 0 to 6) and that is then valid
    up to the obstacle only records "path could not be fully projected",
    "path could not be fully validated" and "extended partly": the entries of
    [getEdgeStat] add up to 2 after 1 attempt. *)
Lemma getEdgeStat_sum_counterexample :
  let attempts := [attempt_projected 8] in
  let run := extendAll attempts (planner0 8 graph_validation) in
  run.2 = Ret tt
  /\ nbAttempts e0 attempts = 1
  /\ getEdgeStat run.1 e0 = [0; 0; 0; 0; 0; 1; 1]
  /\ failures run.1 e0 PARTLY_EXTENDED = 1
  /\ foldr Nat.add 0 (getEdgeStat run.1 e0) <> nbAttempts e0 attempts.
Proof.
  split; [reflexivity|]. split; [reflexivity|]. split; [reflexivity|].
  split; [reflexivity|].
  vm_compute. discriminate.
Qed.

End PlannerFacts.

(** * Properties of the roadmap connection and of [oneStep] *)

Module ConnectionFacts.
Import RoadmapOps Planner.
Section Connection.
Context {value_type Configuration ConstraintSet GraphNode Leaf : Type}.
Context `{EqDecision GraphNode}.
Context {VT : ValueType value_type}.
Context {CI : ConfigurationInterface Configuration}.
Context {PI : PathInterface value_type Configuration ConstraintSet Leaf}.
Context {RI : RoadmapInterface value_type Configuration GraphNode Leaf}.
Variable NDEBUG : bool.

Abbreviation PathT := (Path Leaf).
Abbreviation NodeT := (Node Configuration GraphNode).
Abbreviation RoadmapT := (Roadmap Configuration GraphNode Leaf).
Abbreviation ProblemT := (Problem Configuration GraphNode Leaf).
Abbreviation PlannerT := (ManipulationPlanner value_type Configuration GraphNode Leaf).

Section Relates.
Context {S : Type} (R : S -> S -> Prop).
Hypothesis R_refl : forall s, R s s.
Hypothesis R_trans : forall s1 s2 s3, R s1 s2 -> R s2 s3 -> R s1 s3.

Lemma relates_ret {A} (a : A) : relates R (retM a).
Proof using R_refl. intros s. apply R_refl. Qed.

Lemma relates_throw {A} e : relates R (throwM (A := A) e).
Proof using R_refl. intros s. apply R_refl. Qed.

Lemma relates_liftO {A} (o : outcome A) : relates R (liftO o).
Proof using R_refl. intros s. apply R_refl. Qed.

Lemma relates_get : relates R getM.
Proof using R_refl. intros s. apply R_refl. Qed.

Lemma relates_bind {A B} (m : PlannerM S A) (k : A -> PlannerM S B) :
  relates R m -> (forall a, relates R (k a)) -> relates R (bindM m k).
Proof using R_trans.
  intros Hm Hk s. unfold bindM. specialize (Hm s).
  destruct (m s) as [s' [a|e|]]; simpl in *; [|done..].
  eapply R_trans; [exact Hm|apply Hk].
Qed.
End Relates.

(** ** Edges are added only where they are missing *)

Lemma onlyMissing_refl (r : RoadmapT) : onlyMissing r r.
Proof. intros a b. by left. Qed.

Lemma onlyMissing_trans (r1 r2 r3 : RoadmapT) :
  onlyMissing r1 r2 -> onlyMissing r2 r3 -> onlyMissing r1 r3.
Proof.
  intros H12 H23 a b.
  destruct (H12 a b) as [H1|[H1 H1']], (H23 a b) as [H2|[H2 H2']].
  - left. congruence.
  - right. split; [congruence|done].
  - right. split; [done|]. intros Hne. rewrite H2. by apply H1'.
  - right. split; [done|]. intros Hne. by apply H2'.
Qed.

Lemma countEdges_addEdge (n1 n2 : NodeT) (p : PathT) (r : RoadmapT) a b :
  countEdges (addEdge n1 n2 p r) a b
  = countEdges r a b
    + (if Nat.eqb (handle n1) a && Nat.eqb (handle n2) b then 1 else 0).
Proof.
  unfold countEdges, addEdge. simpl.
  rewrite List.filter_app, length_app. simpl.
  destruct (_ && _); reflexivity.
Qed.

Lemma existsb_count {A} (f : A -> bool) (l : list A) :
  existsb f l = negb (Nat.eqb (List.length (List.filter f l)) 0).
Proof.
  induction l as [|x l IH]; simpl; [done|].
  destruct (f x); simpl; [done|apply IH].
Qed.

Lemma isOutNeighbor_count (r : RoadmapT) (n1 n2 : NodeT) :
  isOutNeighbor r n1 n2 = negb (Nat.eqb (countEdges r (handle n1) (handle n2)) 0).
Proof. apply existsb_count. Qed.

Lemma isInNeighbor_count (r : RoadmapT) (n1 n2 : NodeT) :
  isInNeighbor r n1 n2 = negb (Nat.eqb (countEdges r (handle n2) (handle n1)) 0).
Proof. apply existsb_count. Qed.

(** Adding the edge from [n1] to [n2] where there is none. *)
Lemma onlyMissing_addEdge (n1 n2 : NodeT) (p : PathT) (r : RoadmapT) :
  countEdges r (handle n1) (handle n2) = 0 ->
  onlyMissing r (addEdge n1 n2 p r).
Proof.
  intros Hnone a b. rewrite countEdges_addEdge.
  destruct (Nat.eqb_spec (handle n1) a) as [<-|]; simpl; [|left; lia].
  destruct (Nat.eqb_spec (handle n2) b) as [<-|]; simpl; [|left; lia].
  right. split; [done|]. intros _. lia.
Qed.

Lemma not_neighbor_count (r : RoadmapT) a b :
  negb (Nat.eqb (countEdges r a b) 0) = false -> countEdges r a b = 0.
Proof. rewrite negb_false_iff. apply Nat.eqb_eq. Qed.

Ltac count_edges :=
  intros a b; rewrite ?countEdges_addEdge;
  repeat match goal with
         | |- context [Nat.eqb ?x ?y] => destruct (Nat.eqb_spec x y); subst; simpl
         end;
  first [ left; lia | right; split; [lia|intros ?; lia] | right; split; [lia|done] ].

(** The end of the body of the inner loops, for a pair that is not
    connected in both directions: only the missing directions are added. *)
Lemma connectValidated_onlyMissing (problem : ProblemT) (n1 n2 : NodeT)
    (projPath : PathT) (r : RoadmapT) :
  isOutNeighbor r n1 n2 && isInNeighbor r n1 n2 = false ->
  onlyMissing r
    (connectValidated problem n1 n2 (isOutNeighbor r n1 n2) (isInNeighbor r n1 n2)
       projPath r).1.
Proof.
  intros Hnot. unfold connectValidated, bindM, liftO.
  destruct (pathValidation problem projPath false) as [[[] validPath]|e|]; simpl;
    try apply onlyMissing_refl.
  rewrite isOutNeighbor_count, isInNeighbor_count in *.
  destruct (negb (Nat.eqb (countEdges r (handle n1) (handle n2)) 0)) eqn:H12;
    destruct (negb (Nat.eqb (countEdges r (handle n2) (handle n1)) 0)) eqn:H21;
    try discriminate; simpl;
    try apply not_neighbor_count in H12; try apply not_neighbor_count in H21.
  - destruct (extract projPath _) as [reversed|]; simpl; [|apply onlyMissing_refl].
    count_edges.
  - count_edges.
  - destruct (extract projPath _) as [reversed|]; simpl; count_edges.
Qed.

Lemma connectPair_onlyMissing (problem : ProblemT) (n1 n2 : NodeT) :
  relates onlyMissing (connectPair NDEBUG problem n1 n2).
Proof.
  intros r. unfold connectPair, bindM at 1, getM.
  destruct (isOutNeighbor r n1 n2 && isInNeighbor r n1 n2) eqn:Hboth;
    [apply onlyMissing_refl|].
  unfold bindM, liftO, assertO.
  destruct (NDEBUG || _); simpl; [|apply onlyMissing_refl].
  destruct (steeringMethod problem _ _) as [path|]; [|apply onlyMissing_refl].
  destruct (pathProjector problem) as [apply|].
  - destruct (apply path) as [projPath|]; [|apply onlyMissing_refl].
    by apply connectValidated_onlyMissing.
  - by apply connectValidated_onlyMissing.
Qed.

Create HintDb connect.
#[local] Hint Resolve onlyMissing_refl onlyMissing_trans : connect.

Lemma connectToNearest_onlyMissing (problem : ProblemT) (n1 : NodeT) knearest :
  relates onlyMissing (connectToNearest NDEBUG problem n1 knearest).
Proof.
  induction knearest as [|n2 knearest IH]; simpl.
  - apply relates_ret; auto with connect.
  - apply relates_bind; [eauto with connect|apply connectPair_onlyMissing|].
    intros []; [apply relates_ret; auto with connect|apply IH].
Qed.

Lemma connectToComponents_onlyMissing (problem : ProblemT) (n1 : NodeT) ccs :
  relates onlyMissing (connectToComponents NDEBUG problem n1 ccs).
Proof.
  induction ccs as [|cc ccs IH]; simpl.
  - apply relates_ret; auto with connect.
  - apply relates_bind; [eauto with connect|apply relates_get; auto with connect|].
    intros r. destruct (Nat.eqb cc _); [apply IH|].
    apply relates_bind; [eauto with connect|apply connectToNearest_onlyMissing|].
    intros []; [apply relates_ret; auto with connect|apply IH].
Qed.

Lemma tryConnectToRoadmap_from_onlyMissing (problem : ProblemT) nodes nbConnection :
  relates onlyMissing (tryConnectToRoadmap_from NDEBUG problem nodes nbConnection).
Proof.
  revert nbConnection; induction nodes as [|n1 nodes IH]; intros nbConnection; simpl.
  - apply relates_ret; auto with connect.
  - apply relates_bind; [eauto with connect|apply relates_get; auto with connect|].
    intros r.
    apply relates_bind; [eauto with connect|apply connectToComponents_onlyMissing|].
    intros connectSucceed. apply IH.
Qed.

(** ** At most one connection, of at most two edges, for each node *)

Lemma connects_false : connects (retM false : PlannerM RoadmapT bool).
Proof. intros r. simpl. split; [lia|done]. Qed.

Lemma connectValidated_connects (problem : ProblemT) (n1 n2 : NodeT) _1to2 _2to1
    (projPath : PathT) :
  connects (connectValidated problem n1 n2 _1to2 _2to1 projPath).
Proof.
  intros r. unfold connectValidated, bindM, liftO.
  destruct (pathValidation problem projPath false) as [[[] validPath]|e|]; simpl;
    try (split; [lia|done]).
  destruct _1to2, _2to1; simpl; try destruct (extract projPath _); simpl;
    rewrite ?length_app; simpl; split; try lia; discriminate.
Qed.

Lemma connects_get (k : RoadmapT -> PlannerM RoadmapT bool) :
  (forall r, connects (k r)) -> connects (bindM getM k).
Proof. intros Hk r. unfold bindM, getM. apply Hk. Qed.

Lemma connects_assert (c : bool) (m : PlannerM RoadmapT bool) :
  connects m -> connects (bindM (liftO (assertO NDEBUG c)) (fun _ => m)).
Proof.
  intros Hm r. unfold bindM, liftO, assertO.
  destruct (NDEBUG || c); simpl; [apply Hm|split; [lia|discriminate]].
Qed.

Lemma connectPair_connects (problem : ProblemT) (n1 n2 : NodeT) :
  connects (connectPair NDEBUG problem n1 n2).
Proof.
  unfold connectPair. apply connects_get. intros r.
  destruct (_ && _); [apply connects_false|].
  apply connects_assert.
  destruct (steeringMethod problem _ _) as [path|]; [|apply connects_false].
  destruct (pathProjector problem) as [apply|].
  - destruct (apply path) as [projPath|]; [|apply connects_false].
    apply connectValidated_connects.
  - apply connectValidated_connects.
Qed.

(** A loop that is left at the first connection. *)
Lemma connects_until {A} (body : A -> PlannerM RoadmapT bool)
    (loop : PlannerM RoadmapT bool) (a : A) :
  connects (body a) -> connects loop ->
  connects (bindM (body a) (fun connected : bool =>
                              if connected then retM true else loop)).
Proof.
  intros Hbody Hloop r. unfold bindM. specialize (Hbody r).
  destruct (body a r) as [r1 [[]|e|]]; simpl in *; try (split; [lia|discriminate]).
  destruct Hbody as [_ Hsame]. rewrite (Hsame eq_refl). apply Hloop.
Qed.

Lemma connectToNearest_connects (problem : ProblemT) (n1 : NodeT) knearest :
  connects (connectToNearest NDEBUG problem n1 knearest).
Proof.
  induction knearest as [|n2 knearest IH]; simpl; [apply connects_false|].
  apply (connects_until (connectPair NDEBUG problem n1));
    [apply connectPair_connects|apply IH].
Qed.

Lemma connectToComponents_connects (problem : ProblemT) (n1 : NodeT) ccs :
  connects (connectToComponents NDEBUG problem n1 ccs).
Proof.
  induction ccs as [|cc ccs IH]; simpl; [apply connects_false|].
  apply connects_get. intros r.
  destruct (Nat.eqb cc _); [apply IH|].
  apply (connects_until
           (fun knearest => connectToNearest NDEBUG problem n1 knearest));
    [apply connectToNearest_connects|apply IH].
Qed.

Lemma tryConnectToRoadmap_from_bounds (problem : ProblemT) nodes nbConnection r :
  let run := tryConnectToRoadmap_from NDEBUG problem nodes nbConnection r in
  List.length (edges_ run.1) <= List.length (edges_ r) + 2 * List.length nodes
  /\ forall nb, run.2 = Ret nb -> nb <= nbConnection + List.length nodes.
Proof.
  revert nbConnection r; induction nodes as [|n1 nodes IH]; intros nbConnection r;
    simpl.
  - split; [lia|]. intros nb Hnb. inversion Hnb. lia.
  - unfold bindM at 1, getM. unfold bindM.
    pose proof (connectToComponents_connects problem n1 (connectedComponents r) r)
      as [Hedges _].
    destruct (connectToComponents NDEBUG problem n1 (connectedComponents r) r)
      as [r1 [connectSucceed|e|]]; simpl in *; try (split; [lia|discriminate]).
    specialize (IH (if connectSucceed then S nbConnection else nbConnection) r1).
    simpl in IH. destruct IH as [IHedges IHnb]. split; [lia|].
    intros nb Hnb. specialize (IHnb nb Hnb). destruct connectSucceed; lia.
Qed.

(** ** C9 *)

(** C9.  [tryConnectToRoadmap] adds no edge between two nodes that are
    connected in both directions.  The candidates are the [K = 7] nearest
    nodes of each other component.  A candidate that is both an
    out-neighbour and an in-neighbour of the new node is skipped.  Over the
    whole call, no edge is added from a node to a node where one exists,
    between two different nodes at most the one that is missing is added,
    and each new node gives at most one connection, of at most two edges,
    before the next one is tried. *)
Theorem tryConnectToRoadmap_adds_missing_edges_only (problem : ProblemT)
    (nodes : list NodeT) (r : RoadmapT) :
  let run := tryConnectToRoadmap NDEBUG problem nodes r in
  K = 7
  /\ (forall n1 n2 r0,
         isOutNeighbor r0 n1 n2 = true -> isInNeighbor r0 n1 n2 = true ->
         connectPair NDEBUG problem n1 n2 r0 = (r0, Ret false))
  /\ (forall a b, 1 <= countEdges r a b -> countEdges run.1 a b = countEdges r a b)
  /\ (forall a b, a <> b -> countEdges r a b = 0 -> countEdges run.1 a b <= 1)
  /\ List.length (edges_ run.1) <= List.length (edges_ r) + 2 * List.length nodes
  /\ (forall nb, run.2 = Ret nb -> nb <= List.length nodes).
Proof.
  intros run.
  pose proof (tryConnectToRoadmap_from_onlyMissing problem nodes 0 r) as Honly.
  pose proof (tryConnectToRoadmap_from_bounds problem nodes 0 r) as [Hedges Hnb].
  fold (tryConnectToRoadmap NDEBUG problem nodes r) in Honly, Hedges, Hnb.
  fold run in Honly, Hedges, Hnb.
  split; [reflexivity|]. split; [|split; [|split; [|split]]].
  - intros n1 n2 r0 Hout Hin. unfold connectPair, bindM, getM.
    by rewrite Hout, Hin.
  - intros a b Hsome. destruct (Honly a b) as [Heq|[Hnone _]]; [done|lia].
  - intros a b Hne Hnone. destruct (Honly a b) as [Heq|[_ Hone]]; [lia|].
    rewrite Hone by done. lia.
  - exact Hedges.
  - exact Hnb.
Qed.

End Connection.

Import Toy.

(** C9 in the concrete world: [node0] and [node1] are connected in both
    directions, [node2] is alone in its component; [node0] is the new node. *)
Lemma tryConnectToRoadmap_adds_missing_edges_only_witness :
  let run := tryConnectToRoadmap false (toy_problem 0 graph_validation) [node0] roadmap1 in
  connectPair false (toy_problem 0 graph_validation) node0 node1 roadmap1
  = (roadmap1, Ret false)
  /\ countEdges run.1 0 1 = 1
  /\ countEdges run.1 0 2 <= 1
  /\ run.2 = Ret 1.
Proof.
  intros run.
  pose proof (tryConnectToRoadmap_adds_missing_edges_only false
                (toy_problem 0 graph_validation) [node0] roadmap1)
    as (_ & Hskip & Hkept & Hmissing & _ & _).
  split; [|split; [|split]].
  - apply Hskip; reflexivity.
  - apply (Hkept 0 1). vm_compute. lia.
  - apply (Hmissing 0 2); [lia|reflexivity].
  - reflexivity.
Defined.

End ConnectionFacts.

(** * Properties of [oneStep] *)

Module StepFacts.
Import RoadmapOps Planner.
Section Step.
Context {value_type Configuration ConstraintSet GraphNode Leaf : Type}.
Context `{EqDecision GraphNode}.
Context {VT : ValueType value_type}.
Context {CI : ConfigurationInterface Configuration}.
Context {PI : PathInterface value_type Configuration ConstraintSet Leaf}.
Context {RI : RoadmapInterface value_type Configuration GraphNode Leaf}.
Variable NDEBUG : bool.

Abbreviation PathT := (Path Leaf).
Abbreviation NodeT := (Node Configuration GraphNode).
Abbreviation RoadmapT := (Roadmap Configuration GraphNode Leaf).
Abbreviation ProblemT := (Problem Configuration GraphNode Leaf).
Abbreviation PlannerT := (ManipulationPlanner value_type Configuration GraphNode Leaf).
Abbreviation StepT :=
  (StepState (Configuration := Configuration) (GraphNode := GraphNode) (Leaf := Leaf)).

Lemma edgeStat_roadmap (edge : Edge) (s : PlannerT) :
  exists s1 es, edgeStat edge s = (s1, Ret es) /\ roadmap_ s1 = roadmap_ s.
Proof.
  unfold edgeStat. destruct (Z.ltb _ _); eexists _, _; split; reflexivity.
Qed.

(** [extend] does not touch the roadmap. *)
Lemma extend_roadmap (problem : ProblemT) n q validPath (s : PlannerT) :
  roadmap_ (extend problem n q validPath s).1 = roadmap_ s.
Proof.
  destruct (chooseEdge problem n) as [edge|] eqn:Hchoose.
  - destruct (edgeStat_roadmap edge (set_qProj q s)) as (s1 & es & HedgeStat & Hr).
    destruct (PlannerFacts.extend_events problem n q validPath s s1 edge es
                Hchoose HedgeStat) as [evs Hevs].
    destruct (extend problem n q validPath s) as [s' res].
    destruct Hevs as (_ & _ & Hr' & _). simpl. by rewrite Hr', Hr.
  - unfold extend. by rewrite Hchoose.
Qed.

(** ** The roadmap during the extension loop *)

Lemma addNodeAndEdges_nodes (near : NodeT) q_new (p : PathT) (r r' : RoadmapT) n :
  addNodeAndEdges near q_new p r = (r', Ret n) ->
  nodes_ r' = nodes_ r ++ [n]
  /\ List.length (edges_ r') = List.length (edges_ r) + 2.
Proof.
  unfold addNodeAndEdges. destruct (extract p _) as [reversed|]; [|discriminate].
  simpl. intros Heq; inversion Heq; subst. simpl.
  split; [done|]. rewrite !length_app. simpl. lia.
Qed.

Lemma extendPair_extended (problem : ProblemT) q_rand cc gn r0
    (st st' : StepT) (s s' : PlannerT) :
  extended r0 s st ->
  extendPair problem q_rand cc gn st s = (s', Ret st') ->
  extended r0 s' st'.
Proof.
  intros (r & Hr & Hnodes & Hedges). unfold extendPair.
  unfold bindM at 1, onRoadmap at 1. rewrite Hr. simpl.
  destruct (nearestNode r q_rand cc gn) as [near|].
  - pose proof (extend_roadmap problem near q_rand (path st) (set_roadmap (Some r) s))
      as Hext.
    unfold bindM at 1.
    destruct (extend problem near q_rand (path st) (set_roadmap (Some r) s))
      as [s1 [[pathIsValid path']|e|]]; simpl in Hext; try discriminate.
    assert (extended r0 s1 {| newNodes := newNodes st; delayedEdges := delayedEdges st;
                              path := path' |}) as Hsame.
    { exists r. by rewrite Hext. }
    destruct pathIsValid; [|by intros Heq; inversion Heq; subst].
    destruct path' as [p|]; [|discriminate]. simpl.
    destruct (negb (v_eqb _ _)); [|by intros Heq; inversion Heq; subst].
    destruct (negb (belongs _ _)).
    + unfold bindM, onRoadmap. rewrite Hext.
      destruct (addNodeAndEdges near (eval p (timeRange p).2) p r)
        as [r' [n|e|]] eqn:Hadd; try discriminate.
      intros Heq; inversion Heq; subst.
      apply addNodeAndEdges_nodes in Hadd as [Hn He].
      exists r'. simpl. split; [done|]. rewrite Hn, He, Hnodes, Hedges.
      rewrite length_app. simpl. split; [by rewrite app_assoc|lia].
    + intros Heq; inversion Heq; subst. destruct Hsame as (r1 & H1 & H2 & H3).
      by exists r1.
  - intros Heq; inversion Heq; subst. exists r. done.
Qed.

Lemma extendGraphNodes_extended (problem : ProblemT) q_rand cc gns r0
    (st st' : StepT) (s s' : PlannerT) :
  extended r0 s st ->
  extendGraphNodes problem q_rand cc gns st s = (s', Ret st') ->
  extended r0 s' st'.
Proof.
  revert st s; induction gns as [|gn gns IH]; intros st s Hext; simpl.
  - by intros Heq; inversion Heq; subst.
  - unfold bindM.
    destruct (extendPair problem q_rand cc gn st s) as [s1 [st1|e|]] eqn:Hpair;
      try discriminate.
    apply IH. by eapply extendPair_extended.
Qed.

Lemma extendComponents_extended (problem : ProblemT) q_rand ccs r0
    (st st' : StepT) (s s' : PlannerT) :
  extended r0 s st ->
  extendComponents problem q_rand ccs st s = (s', Ret st') ->
  extended r0 s' st'.
Proof.
  revert st s; induction ccs as [|cc ccs IH]; intros st s Hext; simpl.
  - by intros Heq; inversion Heq; subst.
  - unfold bindM.
    destruct (extendGraphNodes problem q_rand cc (graphNodes problem) st s)
      as [s1 [st1|e|]] eqn:Hgns; try discriminate.
    apply IH. by eapply extendGraphNodes_extended.
Qed.

Lemma insertDelayedEdges_sizes (delayed : list (NodeT * Configuration * PathT))
    (r r' : RoadmapT) :
  insertDelayedEdges delayed r = (r', Ret tt) ->
  List.length (nodes_ r') = List.length (nodes_ r) + List.length delayed
  /\ List.length (edges_ r') = List.length (edges_ r) + 2 * List.length delayed.
Proof.
  revert r; induction delayed as [|[[near q_new] validPath] delayed IH]; intros r; simpl.
  - intros Heq; inversion Heq; subst. lia.
  - unfold bindM, modifyM. simpl.
    destruct (extract validPath _) as [reversed|]; [|discriminate]. simpl.
    intros Hrest. apply IH in Hrest as [Hn He]. simpl in *.
    rewrite !length_app in *. simpl in *. lia.
Qed.

(** ** C6 *)

(** C6, as amended.  Within one call of [oneStep], a node that
    [addNodeAndEdges] adds during the extension loop is in the roadmap at
    once: when the loop ends, the nodes of the roadmap are those it had when
    the step started followed by the new nodes, with two edges for each,
    and each iteration searches its nearest neighbour in the roadmap as the
    iterations before it left it.  The delayed edges are not in the
    roadmap when the loop ends; they are inserted after it, a node and two
    edges for each, and the connection phases run on the roadmap that holds
    both the direct and the delayed insertions. *)
Theorem oneStep_phases (problem : ProblemT) (s0 s1 : PlannerT) (r0 : RoadmapT)
    (st : StepT) :
  roadmap_ s0 = Some r0 ->
  extensionLoop problem (shoot problem) s0 = (s1, Ret st) ->
  exists r1,
    roadmap_ s1 = Some r1
    /\ nodes_ r1 = nodes_ r0 ++ newNodes st
    /\ List.length (edges_ r1) = List.length (edges_ r0) + 2 * List.length (newNodes st)
    /\ forall r2,
        insertDelayedEdges (delayedEdges st) r1 = (r2, Ret tt) ->
        List.length (nodes_ r2) = List.length (nodes_ r1) + List.length (delayedEdges st)
        /\ List.length (edges_ r2)
           = List.length (edges_ r1) + 2 * List.length (delayedEdges st)
        /\ oneStep NDEBUG problem s0
           = (let '(r3, res) := connectNewNodes NDEBUG problem (newNodes st) r2 in
              (set_roadmap (Some r3) s1, res)).
Proof.
  intros Hr0 Hloop.
  assert (extended r0 s1 st) as (r1 & Hr1 & Hnodes & Hedges).
  { unfold extensionLoop in Hloop. unfold bindM at 1, onRoadmap in Hloop.
    rewrite Hr0 in Hloop. simpl in Hloop.
    eapply extendComponents_extended; [|exact Hloop].
    exists r0. simpl. rewrite app_nil_r. split; [done|]. split; [done|lia]. }
  exists r1. split; [done|]. split; [done|]. split; [done|].
  intros r2 Hdelayed.
  destruct (insertDelayedEdges_sizes _ _ _ Hdelayed) as [Hn He].
  split; [done|]. split; [done|].
  unfold oneStep. unfold bindM at 1. rewrite Hloop.
  unfold bindM, onRoadmap. rewrite Hr1, Hdelayed. simpl.
  destruct (connectNewNodes NDEBUG problem (newNodes st) r2) as [r3 res].
  reflexivity.
Qed.

End Step.

Import Toy.

(** C6 in the concrete world: no obstacle, the random configuration is 20.
    The step extends [node0] to a node at 12 and this node to a node at 20;
    nothing is delayed. *)
Lemma oneStep_phases_witness :
  exists r1 : Roadmap Q nat Segment,
    List.length (nodes_ r1) = 3
    /\ List.length (edges_ r1) = 4
    /\ forall r2, insertDelayedEdges [] r1 = (r2, Ret tt) ->
                  List.length (nodes_ r2) = 3 /\ List.length (edges_ r2) = 4.
Proof.
  destruct (oneStep_phases false (toy_problem 20 no_obstacle) (planner0 20 no_obstacle)
              (extensionLoop (toy_problem 20 no_obstacle) 20%Q (planner0 20 no_obstacle)).1
              roadmap0
              {| newNodes := [ {| handle := 1; configuration := 12%Q; graphNode := 1%nat |};
                               {| handle := 2; configuration := 20%Q; graphNode := 1%nat |} ];
                 delayedEdges := [];
                 path := Some (segment 12 20 0 2) |})
    as (r1 & _ & Hnodes & Hedges & Hphases).
  - reflexivity.
  - reflexivity.
  - exists r1. split; [by rewrite Hnodes|]. split; [exact Hedges|].
    intros r2 Hdelayed. destruct (Hphases r2 Hdelayed) as (Hn & He & _).
    rewrite Hn, He, Hnodes, Hedges. done.
Defined.

(** C6 as stated fails.  The roadmap holds [node0], in the constraint-graph
    node 0; the step visits the pairs (component 0, node 0) and (component 0,
    node 1).  The first iteration adds a node at 12, in the constraint-graph
    node 1; at the start of the step no node of the component was in that
    graph node, yet the second iteration obtains the new node as nearest
    neighbour and extends it: the roadmap ends with an edge between two nodes
    that were both added during this loop. *)
Lemma extension_sees_new_node_counterexample :
  let problem := toy_problem 20 no_obstacle in
  let s0 := planner0 20 no_obstacle in
  let st0 := {| newNodes := []; delayedEdges := []; path := None |} in
  let n1 := {| handle := 1; configuration := 12%Q; graphNode := 1%nat |} in
  connectedComponents roadmap0 = [0]
  /\ graphNodes problem = [0; 1]
  /\ ~ In n1 (nodes_ roadmap0)
  /\ nearestNode roadmap0 20%Q 0 1 = None
  /\ exists s1 st1 r1,
      extendPair problem 20%Q 0 0 st0 s0 = (s1, Ret st1)
      /\ newNodes st1 = [n1]
      /\ roadmap_ s1 = Some r1
      /\ nearestNode r1 20%Q 0 1 = Some n1
      /\ exists s2 st2 r2,
          extensionLoop problem 20%Q s0 = (s2, Ret st2)
          /\ roadmap_ s2 = Some r2
          /\ countEdges r2 1 2 = 1.
Proof.
  split; [reflexivity|]. split; [reflexivity|]. split.
  { intros [Heq|[]]. discriminate. }
  split; [reflexivity|].
  eexists _, _, _. split; [vm_compute; reflexivity|].
  split; [reflexivity|]. split; [reflexivity|]. split; [reflexivity|].
  eexists _, _, _. split; [vm_compute; reflexivity|].
  split; reflexivity.
Qed.

End StepFacts.

(** * Further properties of the graph path validation *)

Module ValidationExtras.
Import GraphPathValidation ValidationNotions.
Section Extras.
Context {value_type Configuration ConstraintSet Leaf GraphNode GraphEdge : Type}.
Context `{EqDecision GraphNode}.
Context {PI : PathInterface value_type Configuration ConstraintSet Leaf}.
Context {GI : GraphInterface Configuration ConstraintSet GraphNode GraphEdge}.
Context {PV : PathValidationInterface Leaf}.
Variable NDEBUG : bool.

Abbreviation PathT := (Path Leaf).

Lemma validateSubPaths_None rec outputSize reverse done (todo : list PathT) :
  validateSubPaths rec outputSize reverse done todo = Ret None ->
  Forall (fun p => exists v, rec p reverse = Ret (true, v)) todo.
Proof.
  revert done; induction todo as [|p todo IH]; intros done; simpl; [constructor|].
  destruct (rec p reverse) as [[[] v]|e|] eqn:Hp; simpl; try discriminate.
  intros Hrest. constructor; [by exists v|by eapply IH].
Qed.

Lemma Forall_concat_leaves (P : PathT -> Prop) (paths : list PathT) :
  Forall (fun p => Forall P (leaves p)) paths -> Forall P (concat (map leaves paths)).
Proof.
  induction 1 as [|p paths Hp _ IH]; simpl; [constructor|].
  apply Forall_app. by split.
Qed.

Lemma Forall_leaves_sub (P : PathT -> Prop) (paths : list PathT) :
  Forall P (concat (map leaves paths)) -> Forall (fun p => Forall P (leaves p)) paths.
Proof.
  induction paths as [|p paths IH]; simpl; [constructor|].
  rewrite Forall_app. intros [Hp Hrest]. constructor; [done|by apply IH].
Qed.

(** X1.  A path that [validate] accepts is free of collision: the collision
    validation accepts each of its leaf paths, in the direction of the
    validation. *)
Theorem validate_true_collision_free fuel (path validPart : PathT) reverse :
  validate NDEBUG fuel path reverse = Ret (true, validPart) ->
  Forall (collisionFree reverse) (leaves path).
Proof.
  unfold validate. revert path validPart.
  induction fuel as [|fuel IH]; intros path validPart; [discriminate|].
  destruct path as [l|outputSize paths]; simpl.
  - destruct (pathValidation_validate (LeafPath l) reverse) as [[] pathNoCollision] eqn:Hcol.
    + intros _. repeat constructor. unfold collisionFree. by rewrite Hcol.
    + destruct (lookupNodes _ _ _ _ _ _) as [[[] [origNodes destNodes]]|].
      * discriminate.
      * destruct (assertO NDEBUG _) as [[]| |]; simpl; try discriminate.
        intros Heq. apply GraphPathValidationFacts.tryPossibleEdges_false in Heq.
        discriminate.
      * destruct (extract _ _); discriminate.
  - unfold impl_validate_PathVector.
    destruct (validateSubPaths _ _ _ _ _) as [[p|]| |] eqn:Hloop; simpl; try discriminate.
    intros _. apply validateSubPaths_None in Hloop.
    assert (Forall (fun p => exists v, impl_validate NDEBUG fuel p reverse = Ret (true, v))
              paths) as Hall.
    { destruct reverse; [|done]. apply Forall_rev in Hloop. by rewrite rev_involutive in Hloop. }
    apply Forall_concat_leaves. eapply Forall_impl; [exact Hall|].
    intros p [v Hv]. by eapply IH.
Qed.

Lemma depth_sub (p : PathT) (paths : list PathT) :
  In p paths -> depth p <= foldr Nat.max 0 (map depth paths).
Proof.
  induction paths as [|q paths IH]; simpl; [done|].
  intros [->|Hin]; [lia|]. specialize (IH Hin). lia.
Qed.

(** X2.  Conversely, a path all of whose leaf paths pass the collision
    validation is accepted, with itself as valid part, as soon as the
    recursion budget exceeds the depth of nesting of the path: no query to
    the constraint graph is needed. *)
Theorem validate_collision_free_accepted fuel (path : PathT) reverse :
  depth path < fuel ->
  Forall (collisionFree reverse) (leaves path) ->
  validate NDEBUG fuel path reverse = Ret (true, path).
Proof.
  unfold validate. revert path.
  induction fuel as [|fuel IH]; intros path Hdepth Hfree; [lia|].
  destruct path as [l|outputSize paths]; simpl.
  - inversion Hfree as [|? ? Hl _]; subst. unfold collisionFree in Hl.
    destruct (pathValidation_validate (LeafPath l) reverse) as [ok pathNoCollision].
    simpl in Hl. by rewrite Hl.
  - unfold impl_validate_PathVector.
    rewrite GraphPathValidationFacts.validateSubPaths_all_valid; [done|].
    simpl in Hdepth, Hfree. apply Forall_leaves_sub in Hfree.
    assert (Forall (fun p => exists v, impl_validate NDEBUG fuel p reverse = Ret (true, v))
              paths) as Hall.
    { apply Forall_forall. intros p Hin. exists p. apply IH.
      - pose proof (depth_sub p paths (proj1 (list_elem_of_In _ _) Hin)). lia.
      - rewrite Forall_forall in Hfree. by apply Hfree. }
    destruct reverse; [by apply Forall_rev|done].
Qed.

Lemma assertO_throws (c : bool) e :
  assertO NDEBUG c = Throw e -> mayThrow NDEBUG e.
Proof.
  unfold assertO, mayThrow. destruct NDEBUG, c; simpl; intros Heq; inversion Heq; auto.
Qed.

Lemma validateSubPaths_throws rec outputSize reverse done (todo : list PathT) e :
  (forall p e, rec p reverse = Throw e -> mayThrow NDEBUG e) ->
  validateSubPaths rec outputSize reverse done todo = Throw e -> mayThrow NDEBUG e.
Proof.
  intros Hrec; revert done; induction todo as [|p todo IH]; intros done; simpl.
  - discriminate.
  - destruct (rec p reverse) as [[[] v]|e'|] eqn:Hp; simpl.
    + apply IH.
    + discriminate.
    + intros Heq; inversion Heq; subst. by eapply Hrec.
    + discriminate.
Qed.

Lemma tryPossibleEdges_throws rec path pathNoCollision
    (newTmin newTmax oldTmin : value_type) reverse fromBack e :
  (forall p e, rec p reverse = Throw e -> mayThrow NDEBUG e) ->
  tryPossibleEdges NDEBUG rec path pathNoCollision newTmin newTmax oldTmin
    reverse fromBack = Throw e -> mayThrow NDEBUG e.
Proof.
  intros Hrec; induction fromBack as [|back rest IH]; simpl.
  - destruct (extract path (oldTmin, oldTmin)); intros Heq; inversion Heq.
    by left.
  - destruct (assertO NDEBUG _) as [[]|e'|] eqn:Hassert; simpl.
    + destruct (isSatisfied _ (eval pathNoCollision newTmax)); [|apply IH].
      match goal with |- context [rec ?p reverse] =>
        destruct (rec p reverse) as [[]|e'|] eqn:Hp end; simpl; try discriminate.
      intros Heq; inversion Heq; subst. by eapply Hrec.
    + intros Heq; inversion Heq; subst. by eapply assertO_throws.
    + discriminate.
Qed.

(** X3.  [validate] lets out no exception but the projection error of an
    extraction and, when assertions are compiled in, a failed assertion: the
    errors of the constraint graph are handled inside. *)
Theorem validate_throws_only fuel (path : PathT) reverse e :
  validate NDEBUG fuel path reverse = Throw e -> mayThrow NDEBUG e.
Proof.
  unfold validate. revert path reverse e.
  induction fuel as [|fuel IH]; intros path reverse e; [discriminate|].
  destruct path as [l|outputSize paths]; simpl.
  - destruct (pathValidation_validate (LeafPath l) reverse) as [[] pathNoCollision].
    + discriminate.
    + destruct (lookupNodes _ _ _ _ _ _) as [[[] [origNodes destNodes]]|].
      * discriminate.
      * destruct (assertO NDEBUG _) as [[]|e'|] eqn:Hassert; simpl.
        -- apply tryPossibleEdges_throws. intros p e'. apply IH.
        -- intros Heq; inversion Heq; subst. by eapply assertO_throws.
        -- discriminate.
      * destruct (extract _ _); intros Heq; inversion Heq. by left.
  - unfold impl_validate_PathVector.
    destruct (validateSubPaths _ _ _ _ _) as [[p|]|e'|] eqn:Hloop; simpl;
      try discriminate.
    intros Heq; inversion Heq; subst.
    eapply validateSubPaths_throws; [|exact Hloop]. intros p e'. apply IH.
Qed.

(** X4.  When a sub-path of a path vector is rejected, in either direction,
    the valid part is a path vector with the output size of the vector; it
    holds one copy of the rejected sub-path for each sub-path visited before
    it, and ends with the valid part of the rejected sub-path. *)
Theorem validate_PathVector_valid_part fuel outputSize
    (before after : list PathT) (sub v : PathT) (reverse : bool) :
  let visited := if reverse then after else before in
  Forall (fun p => exists w, validate NDEBUG fuel p reverse = Ret (true, w)) visited ->
  validate NDEBUG fuel sub reverse = Ret (false, v) ->
  validate NDEBUG (S fuel) (PathVector outputSize (before ++ sub :: after)) reverse
  = Ret (false, PathVector outputSize
                  (replicate (List.length visited) (copy sub) ++ [v])).
Proof.
  intros visited Hall Hsub. unfold validate in *. simpl.
  unfold impl_validate_PathVector. subst visited. destruct reverse.
  - rewrite rev_app_distr. simpl. rewrite <- app_assoc. simpl.
    rewrite (GraphPathValidationFacts.validateSubPaths_first_invalid
               _ _ _ _ _ _ _ v (Forall_rev Hall) Hsub).
    simpl. by rewrite length_rev.
  - by rewrite (GraphPathValidationFacts.validateSubPaths_first_invalid
                  _ _ _ _ _ _ _ v Hall Hsub).
Qed.

Lemma lookupNodes_modeChange (path pathNoCollision : PathT) origNodes destNodes :
  modeChange path pathNoCollision origNodes destNodes ->
  lookupNodes path pathNoCollision (timeRange pathNoCollision).1
    (timeRange pathNoCollision).2 (timeRange path).1 (timeRange path).2
  = Some (false, (origNodes, destNodes)).
Proof.
  intros (H1 & H2 & oldOrig & H3 & Hdiff). unfold lookupNodes.
  rewrite H1, H2, H3. simpl.
  destruct Hdiff as [Hne|(oldDest & H4 & Hne)].
  - by rewrite bool_decide_eq_false_2.
  - case_bool_decide; [|done]. rewrite H4. simpl.
    by rewrite bool_decide_eq_false_2.
Qed.

Lemma tryPossibleEdges_none_explains rec (path pathNoCollision : PathT) reverse
    (fromBack : list (list GraphEdge)) :
  Forall (fun edges => asserted NDEBUG pathNoCollision edges
                       /\ explains pathNoCollision edges = false) fromBack ->
  tryPossibleEdges NDEBUG rec path pathNoCollision (timeRange pathNoCollision).1
    (timeRange pathNoCollision).2 (timeRange path).1 reverse fromBack
  = match extract path ((timeRange path).1, (timeRange path).1) with
    | Some validPart => Ret (false, validPart)
    | None => Throw projection_error
    end.
Proof.
  induction 1 as [|edges fromBack [Hassert Hnot] _ IH]; simpl; [done|].
  unfold asserted, candidateConstraint in Hassert.
  unfold explains, candidateConstraint in Hnot.
  unfold assertO. rewrite Hassert. simpl. by rewrite Hnot.
Qed.

(** X5.  A leaf path is shortened by the collision validation and the
    shortened part changes of constraint-graph nodes.  If no candidate of
    [getEdge] has its path constraint satisfied at the end of the shortened
    part (in particular if there is no candidate), the forward validation
    returns false with the zero-length extraction at the start of the path. *)
Theorem validate_no_edge_explains fuel (l : Leaf) (pathNoCollision zeroLength : PathT)
    origNodes destNodes :
  let path := LeafPath l in
  pathValidation_validate path false = (false, pathNoCollision) ->
  modeChange path pathNoCollision origNodes destNodes ->
  Forall (fun edges => asserted NDEBUG pathNoCollision edges
                       /\ explains pathNoCollision edges = false)
         (getEdge origNodes destNodes) ->
  extract path ((timeRange path).1, (timeRange path).1) = Some zeroLength ->
  validate NDEBUG (S fuel) path false = Ret (false, zeroLength).
Proof.
  intros path Hcol Hmode Hnone Hextract. unfold validate. subst path. simpl.
  rewrite Hcol, (lookupNodes_modeChange _ _ _ _ Hmode).
  unfold assertO. rewrite orb_true_r. simpl.
  rewrite tryPossibleEdges_none_explains by (by apply Forall_rev).
  by rewrite Hextract.
Qed.

Lemma tryPossibleEdges_explained rec (path pathNoCollision : PathT) reverse
    (skipped rest : list (list GraphEdge)) (chosen : list GraphEdge) b v :
  Forall (fun edges => asserted NDEBUG pathNoCollision edges
                       /\ explains pathNoCollision edges = false) skipped ->
  asserted NDEBUG pathNoCollision chosen ->
  explains pathNoCollision chosen = true ->
  rec (constraints pathNoCollision (candidateConstraint pathNoCollision chosen)) reverse
  = Ret (b, v) ->
  tryPossibleEdges NDEBUG rec path pathNoCollision (timeRange pathNoCollision).1
    (timeRange pathNoCollision).2 (timeRange path).1 reverse
    (skipped ++ chosen :: rest)
  = Ret (false, v).
Proof.
  intros Hskipped Hassert Hexplains Hrec.
  induction Hskipped as [|edges skipped [Ha Hnot] _ IH]; simpl.
  - unfold asserted, candidateConstraint in Hassert.
    unfold explains, candidateConstraint in Hexplains.
    unfold candidateConstraint in Hrec.
    unfold assertO. rewrite Hassert. simpl. rewrite Hexplains, Hrec. done.
  - unfold asserted, candidateConstraint in Ha.
    unfold explains, candidateConstraint in Hnot.
    unfold assertO. rewrite Ha. simpl. by rewrite Hnot.
Qed.

(** X6.  In the same situation, the candidates of [getEdge] are tried from
    the last one.  The first whose path constraint holds at the end of the
    shortened part is attached to it and the shortened part is validated
    again; whatever this second validation answers, the validation of the
    path returns false, with the valid part of the second validation. *)
Theorem validate_mode_change_validates_again fuel (l : Leaf) (pathNoCollision v : PathT)
    origNodes destNodes (candidates unexplained : list (list GraphEdge))
    (chosen : list GraphEdge) (b : bool) :
  let path := LeafPath l in
  pathValidation_validate path false = (false, pathNoCollision) ->
  modeChange path pathNoCollision origNodes destNodes ->
  getEdge origNodes destNodes = candidates ++ chosen :: unexplained ->
  Forall (fun edges => asserted NDEBUG pathNoCollision edges
                       /\ explains pathNoCollision edges = false) unexplained ->
  asserted NDEBUG pathNoCollision chosen ->
  explains pathNoCollision chosen = true ->
  validate NDEBUG fuel
    (constraints pathNoCollision (candidateConstraint pathNoCollision chosen)) false
  = Ret (b, v) ->
  validate NDEBUG (S fuel) path false = Ret (false, v).
Proof.
  intros path Hcol Hmode Hcandidates Hskipped Hassert Hexplains Hagain.
  unfold validate in *. subst path. simpl.
  rewrite Hcol, (lookupNodes_modeChange _ _ _ _ Hmode).
  unfold assertO at 1. rewrite orb_true_r. simpl.
  rewrite Hcandidates, rev_app_distr. simpl. rewrite <- app_assoc. simpl.
  by rewrite (tryPossibleEdges_explained _ _ _ _ _ _ _ b v
                (Forall_rev Hskipped) Hassert Hexplains Hagain).
Qed.

End Extras.

(** X7.  With assertions compiled in, the validation in reverse direction of
    a leaf path whose collision-free part changes of constraint-graph nodes
    stops on the assertion "This has never been tested with reverse path". *)
Theorem validate_reverse_mode_change_asserts
    {value_type Configuration ConstraintSet Leaf GraphNode GraphEdge : Type}
    `{EqDecision GraphNode}
    {PI : PathInterface value_type Configuration ConstraintSet Leaf}
    {GI : GraphInterface Configuration ConstraintSet GraphNode GraphEdge}
    {PV : PathValidationInterface Leaf}
    fuel (l : Leaf) (pathNoCollision : Path Leaf) origNodes destNodes :
  let path := LeafPath l in
  pathValidation_validate path true = (false, pathNoCollision) ->
  modeChange path pathNoCollision origNodes destNodes ->
  validate false (S fuel) path true = Throw assertion_failed.
Proof.
  intros path Hcol Hmode. unfold validate. subst path. simpl.
  by rewrite Hcol, (lookupNodes_modeChange _ _ _ _ Hmode).
Qed.

Import Toy.

Ltac toy_modeChange :=
  unfold modeChange;
  split; [reflexivity|]; split; [reflexivity|];
  exists [0%nat]; split; [reflexivity|]; right;
  exists [1%nat]; split; [reflexivity|discriminate].

(** X1 in the concrete world: the vector [[p1; p1]] is accepted. *)
Lemma validate_true_collision_free_witness :
  Forall (collisionFree false) (leaves (PathVector 1 [p1; p1])).
Proof.
  apply (validate_true_collision_free false 2 (PathVector 1 [p1; p1])
           (PathVector 1 [p1; p1]) false).
  reflexivity.
Defined.

(** X2 in the concrete world. *)
Lemma validate_collision_free_accepted_witness :
  validate false 2 (PathVector 1 [p1; p1]) false = Ret (true, PathVector 1 [p1; p1]).
Proof.
  apply (validate_collision_free_accepted false 2 (PathVector 1 [p1; p1]) false).
  - simpl. lia.
  - repeat constructor.
Defined.

(** X3 in the concrete world: the reverse validation of [p_far] stops on an
    assertion. *)
Lemma validate_throws_only_witness : mayThrow false assertion_failed.
Proof.
  apply (validate_throws_only false 1 p_far true assertion_failed).
  reflexivity.
Defined.

(** X4 in the concrete world: [p2] is rejected after [p1]. *)
Lemma validate_PathVector_valid_part_witness :
  validate false 2 (PathVector 1 [p1; p2; p3]) false
  = Ret (false, PathVector 1 [copy p2; p2_valid]).
Proof.
  apply (validate_PathVector_valid_part false 1 1 [p1] [p3] p2 p2_valid false).
  - repeat constructor. exists p1. reflexivity.
  - reflexivity.
Defined.

(** X5 in the concrete world: over [strict_graph] the constraints of both
    candidates fail at the configuration 3, where [p_far] meets the
    obstacle. *)
Lemma validate_no_edge_explains_witness :
  validate (GI := strict_graph) false 1 p_far false = Ret (false, segment 0 0 0 0).
Proof.
  apply (validate_no_edge_explains (GI := strict_graph) false 0 _ p_far_valid
           (segment 0 0 0 0) [0%nat] [0%nat]).
  - reflexivity.
  - toy_modeChange.
  - repeat constructor.
  - reflexivity.
Defined.

(** X6 in the concrete world: over [toy_graph] the constraint of the only
    candidate holds; the part of [p_far] below the obstacle is validated
    again, with the constraint attached, and accepted; [p_far] is rejected. *)
Lemma validate_mode_change_validates_again_witness :
  validate false 2 p_far false
  = Ret (false, LeafPath {| q_init := 0; q_end := 3; t_min := 0; t_max := 1 # 4;
                            attached := Some 0%nat |}).
Proof.
  apply (validate_mode_change_validates_again false 1 _ p_far_valid _ [0%nat] [0%nat]
           [] [] [0%nat] true).
  - reflexivity.
  - toy_modeChange.
  - reflexivity.
  - constructor.
  - reflexivity.
  - reflexivity.
  - reflexivity.
Defined.

(** X7 in the concrete world. *)
Lemma validate_reverse_mode_change_asserts_witness :
  validate false 1 p_far true = Throw assertion_failed.
Proof.
  apply (validate_reverse_mode_change_asserts 0 _ p_far_valid [0%nat] [0%nat]).
  - reflexivity.
  - toy_modeChange.
Defined.

End ValidationExtras.

(** * Further properties of the planner *)

Module PlannerExtras.
Import Planner PlannerNotions PlannerFacts.
Section Extras.
Context {value_type Configuration ConstraintSet GraphNode Leaf : Type}.
Context `{EqDecision GraphNode}.
Context {VT : ValueType value_type}.
Context {CI : ConfigurationInterface Configuration}.
Context {PI : PathInterface value_type Configuration ConstraintSet Leaf}.
Context {RI : RoadmapInterface value_type Configuration GraphNode Leaf}.

Abbreviation PathT := (Path Leaf).
Abbreviation NodeT := (Node Configuration GraphNode).
Abbreviation RoadmapT := (Roadmap Configuration GraphNode Leaf).
Abbreviation ProblemT := (Problem Configuration GraphNode Leaf).
Abbreviation PlannerT := (ManipulationPlanner value_type Configuration GraphNode Leaf).
Abbreviation AttemptT :=
  (Attempt (Configuration := Configuration) (GraphNode := GraphNode) (Leaf := Leaf)).

(** ** Counting the events *)

Lemma nbSuccess_recordEvent ev ss :
  nbSuccess (recordEvent ev ss)
  = nbSuccess ss + (if event_eqb Success ev then 1 else 0).
Proof. destruct ev; simpl; lia. Qed.

Lemma nbFailure_recordEvent ev ss t :
  nbFailure (recordEvent ev ss) (reasons_at (rank t))
  = nbFailure ss (reasons_at (rank t)) + (if event_eqb (Failure t) ev then 1 else 0).
Proof.
  destruct ev as [|t']; [unfold nbFailure; simpl; lia|].
  destruct t, t'; unfold nbFailure; simpl; lia.
Qed.

Lemma occurrences_cons ev e evs :
  occurrences ev (e :: evs) = (if event_eqb ev e then 1 else 0) + occurrences ev evs.
Proof. unfold occurrences. simpl. by destruct (event_eqb ev e). Qed.

Lemma nbSuccess_recordEvents evs ss :
  nbSuccess (foldl (fun ss ev => recordEvent ev ss) ss evs)
  = nbSuccess ss + occurrences Success evs.
Proof.
  revert ss; induction evs as [|ev evs IH]; intros ss;
    [unfold occurrences; simpl; lia|].
  rewrite occurrences_cons. simpl foldl. rewrite IH, nbSuccess_recordEvent. lia.
Qed.

Lemma nbFailure_recordEvents evs ss t :
  nbFailure (foldl (fun ss ev => recordEvent ev ss) ss evs) (reasons_at (rank t))
  = nbFailure ss (reasons_at (rank t)) + occurrences (Failure t) evs.
Proof.
  revert ss; induction evs as [|ev evs IH]; intros ss;
    [unfold occurrences; simpl; lia|].
  rewrite occurrences_cons. simpl foldl. rewrite IH, nbFailure_recordEvent. lia.
Qed.

(** The statistics after [edgeStat (edge)] and the events [evs] recorded
    for the edge. *)
Lemma recorded_statistics (s s1 s' : PlannerT) edge es evs :
  stat_wf s ->
  edgeStat edge s = (s1, Ret es) ->
  indexPerEdgeStatistics_ s' = indexPerEdgeStatistics_ s1 ->
  perEdgeStatistics_ s' = recordEvents es evs (perEdgeStatistics_ s1) ->
  stat_wf s'
  /\ forall e,
      successes s' e
      = successes s e + (if Nat.eqb (id e) (id edge) then occurrences Success evs else 0)
      /\ forall t,
          failures s' e t
          = failures s e t
            + (if Nat.eqb (id e) (id edge) then occurrences (Failure t) evs else 0).
Proof.
  intros Hwf HedgeStat Hindex Hper.
  destruct (edgeStat_view s edge Hwf) as (s1' & es' & HedgeStat' & Hwf1 & Hslot & _ & _ & Hview1).
  rewrite HedgeStat in HedgeStat'. inversion HedgeStat'; subst s1' es'.
  destruct (recordEvents_view _ _ _ _ evs Hwf1 Hslot) as [Hwf' Hview'].
  assert (stat_wf s') as Hwfs' by (unfold stat_wf; by rewrite Hindex, Hper).
  split; [done|]. intros e.
  rewrite (successes_view s') by done. rewrite (successes_view s) by done.
  rewrite Hindex, Hper, Hview', Hview1.
  split; [|intros t; rewrite (failures_view s') by done;
                     rewrite (failures_view s) by done;
                     rewrite Hindex, Hper, Hview', Hview1].
  - destruct (decide (id e = id edge)) as [Heq|Hne].
    + rewrite (proj2 (Nat.eqb_eq _ _)) by done. simpl.
      rewrite nbSuccess_recordEvents. by destruct (view _ _ (id e)).
    + rewrite (proj2 (Nat.eqb_neq _ _)) by done. lia.
  - destruct (decide (id e = id edge)) as [Heq|Hne].
    + rewrite (proj2 (Nat.eqb_eq _ _)) by done. simpl.
      rewrite nbFailure_recordEvents. by destruct (view _ _ (id e)).
    + rewrite (proj2 (Nat.eqb_neq _ _)) by done. lia.
Qed.

(** ** [edgeStat] *)

Lemma edgeStat_unfold (edge : Edge) (s : PlannerT) :
  let index := indexPerEdgeStatistics_ s in
  let per := perEdgeStatistics_ s in
  let index1 := if List.length index <=? id edge
                then resize index (id edge + 1) else index in
  let index2 := <[id edge := Z.of_nat (List.length per)]> index1 in
  edgeStat edge s
  = if (index1 !!! id edge <? 0)%Z
    then (set_statistics index2 (per ++ [newSuccessStatistics (name edge) 2]) s,
          Ret (Z.to_nat (index2 !!! id edge)))
    else (set_statistics index1 per s, Ret (Z.to_nat (index1 !!! id edge))).
Proof. simpl. unfold edgeStat. destruct (Z.ltb _ _); reflexivity. Qed.

Lemma resize_total_lookup (index : list Z) (i : nat) :
  List.length index <= i -> resize index (i + 1) !!! i = (-1)%Z.
Proof.
  intros Hlen. apply list_lookup_total_correct. unfold resize.
  rewrite lookup_app_r by done. apply lookup_replicate_2. lia.
Qed.

Lemma length_resize (index : list Z) (i : nat) :
  List.length index <= i -> List.length (resize index (i + 1)) = i + 1.
Proof. intros Hlen. unfold resize. rewrite length_app, length_replicate. lia. Qed.

(** X8.  [edgeStat] creates the statistics of an edge at the first call for
    this edge and never again: afterwards the edge is observed; a second
    call returns the same statistics and changes nothing; the vector of
    statistics grows by one element if the edge was not observed and not at
    all if it was; and the counts of every edge are what they were. *)
Theorem edgeStat_creates_once (s : PlannerT) (edge : Edge) :
  exists s1 es,
    edgeStat edge s = (s1, Ret es)
    /\ observed s1 edge = true
    /\ edgeStat edge s1 = (s1, Ret es)
    /\ List.length (perEdgeStatistics_ s1)
       = List.length (perEdgeStatistics_ s) + (if observed s edge then 0 else 1)
    /\ (stat_wf s ->
        stat_wf s1
        /\ forall e, successes s1 e = successes s e
                     /\ forall t, failures s1 e t = failures s e t).
Proof.
  pose proof (edgeStat_unfold edge s) as Hfirst. simpl in Hfirst.
  set (index := indexPerEdgeStatistics_ s) in *.
  set (per := perEdgeStatistics_ s) in *.
  set (index1 := if List.length index <=? id edge
                 then resize index (id edge + 1) else index) in *.
  assert (id edge < List.length index1) as Hlen1.
  { subst index1. destruct (Nat.leb_spec (List.length index) (id edge)); [|done].
    rewrite length_resize by done. lia. }
  assert (observed s edge = negb (index1 !!! id edge <? 0)%Z) as Hobs.
  { unfold observed. fold index. subst index1.
    destruct (Nat.leb_spec (List.length index) (id edge)) as [Hle|Hgt]; simpl; [|done].
    by rewrite resize_total_lookup. }
  assert (forall s1 es,
             edgeStat edge s = (s1, Ret es) ->
             stat_wf s ->
             stat_wf s1
             /\ forall e, successes s1 e = successes s e
                          /\ forall t, failures s1 e t = failures s e t) as Hcounts.
  { intros s1 es HedgeStat Hwf.
    destruct (recorded_statistics s s1 s1 edge es [] Hwf HedgeStat eq_refl eq_refl)
      as [Hwf1 Hsame].
    split; [done|]. intros e. destruct (Hsame e) as [Hs Hf].
    split; [rewrite Hs; destruct (Nat.eqb _ _); unfold occurrences; simpl; lia|].
    intros t. rewrite Hf. destruct (Nat.eqb _ _); unfold occurrences; simpl; lia. }
  destruct (Z.ltb_spec (index1 !!! id edge) 0) as [Hneg|Hpos].
  - set (index2 := <[id edge := Z.of_nat (List.length per)]> index1) in *.
    assert (index2 !!! id edge = Z.of_nat (List.length per)) as Hslot.
    { apply list_lookup_total_correct. by apply list_lookup_insert_eq. }
    assert (List.length index2 = List.length index1) as Hlen2 by apply length_insert.
    eexists _, _. split; [exact Hfirst|].
    split; [|split; [|split]].
    + unfold observed. simpl. rewrite Hlen2, Hslot.
      destruct (Nat.leb_spec (List.length index1) (id edge)); [lia|].
      simpl. destruct (Z.ltb_spec (Z.of_nat (List.length per)) 0); [lia|done].
    + rewrite edgeStat_unfold. simpl. fold index2.
      destruct (Nat.leb_spec (List.length index2) (id edge)); [lia|].
      rewrite Hslot.
      destruct (Z.ltb_spec (Z.of_nat (List.length per)) 0); [lia|done].
    + simpl. rewrite length_app, Hobs. simpl.
      destruct (Z.ltb_spec (index1 !!! id edge) 0); [done|lia].
    + apply (Hcounts _ _ Hfirst).
  - eexists _, _. split; [exact Hfirst|].
    split; [|split; [|split]].
    + unfold observed. simpl.
      destruct (Nat.leb_spec (List.length index1) (id edge)); [lia|].
      simpl. destruct (Z.ltb_spec (index1 !!! id edge) 0); [lia|done].
    + rewrite edgeStat_unfold. simpl.
      destruct (Nat.leb_spec (List.length index1) (id edge)); [lia|].
      destruct (Z.ltb_spec (index1 !!! id edge) 0); [lia|done].
    + simpl. rewrite Hobs.
      destruct (Z.ltb_spec (index1 !!! id edge) 0); [lia|]. simpl. fold per. lia.
    + apply (Hcounts _ _ Hfirst).
Qed.

(** ** [extend] *)

Lemma edgeStat_fields (edge : Edge) (s : PlannerT) :
  exists s1 es,
    edgeStat edge s = (s1, Ret es)
    /\ roadmap_ s1 = roadmap_ s /\ extendStep_ s1 = extendStep_ s
    /\ observed s1 edge = true.
Proof.
  pose proof (edgeStat_unfold edge s) as Hfirst. simpl in Hfirst.
  set (index := indexPerEdgeStatistics_ s) in *.
  set (per := perEdgeStatistics_ s) in *.
  set (index1 := if List.length index <=? id edge
                 then resize index (id edge + 1) else index) in *.
  assert (id edge < List.length index1) as Hlen1.
  { subst index1. destruct (Nat.leb_spec (List.length index) (id edge)); [|done].
    rewrite length_resize by done. lia. }
  destruct (Z.ltb_spec (index1 !!! id edge) 0) as [Hneg|Hpos].
  - set (index2 := <[id edge := Z.of_nat (List.length per)]> index1) in *.
    assert (index2 !!! id edge = Z.of_nat (List.length per)) as Hslot.
    { apply list_lookup_total_correct. by apply list_lookup_insert_eq. }
    assert (List.length index2 = List.length index1) as Hlen2 by apply length_insert.
    eexists _, _. split; [exact Hfirst|]. repeat split.
    unfold observed. simpl. rewrite Hlen2, Hslot.
    destruct (Nat.leb_spec (List.length index1) (id edge)); [lia|].
    simpl. destruct (Z.ltb_spec (Z.of_nat (List.length per)) 0); [lia|done].
  - eexists _, _. split; [exact Hfirst|]. repeat split.
    unfold observed. simpl.
    destruct (Nat.leb_spec (List.length index1) (id edge)); [lia|].
    simpl. destruct (Z.ltb_spec (index1 !!! id edge) 0); [lia|done].
Qed.

(** X9.  [extend] records its statistics only: whatever its outcome, it
    leaves the roadmap and [extendStep_] as they are.  The nodes and edges
    of the roadmap are added by the caller. *)
Theorem extend_leaves_roadmap (problem : ProblemT) n q validPath (s : PlannerT) :
  roadmap_ (extend problem n q validPath s).1 = roadmap_ s
  /\ extendStep_ (extend problem n q validPath s).1 = extendStep_ s.
Proof.
  destruct (chooseEdge problem n) as [edge|] eqn:Hchoose.
  - destruct (edgeStat_fields edge (set_qProj q s)) as (s1 & es & HedgeStat & Hr & Hstep & _).
    destruct (extend_events problem n q validPath s s1 edge es Hchoose HedgeStat)
      as [evs Hevs].
    destruct (extend problem n q validPath s) as [s' res].
    destruct Hevs as (_ & _ & Hr' & Hstep' & _). simpl.
    by rewrite Hr', Hr, Hstep', Hstep.
  - unfold extend. by rewrite Hchoose.
Qed.

(** X10.  Once [extend] has selected an edge, whatever the outcome of the
    call, the edge is observed: [getEdgeStat] returns one entry for each
    label of [errorList], seven in all. *)
Theorem getEdgeStat_after_extend (problem : ProblemT) n q validPath (s : PlannerT) edge :
  chooseEdge problem n = Some edge ->
  let s' := (extend problem n q validPath s).1 in
  observed s' edge = true
  /\ List.length (getEdgeStat s' edge) = List.length errorList
  /\ List.length errorList = 7.
Proof.
  intros Hchoose s'.
  destruct (edgeStat_fields edge (set_qProj q s)) as (s1 & es & HedgeStat & _ & _ & Hobs).
  destruct (extend_events problem n q validPath s s1 edge es Hchoose HedgeStat)
    as [evs Hevs].
  subst s'. destruct (extend problem n q validPath s) as [s' res].
  destruct Hevs as (Hindex & _). simpl.
  assert (observed s' edge = true) as Hobs'.
  { unfold observed in *. by rewrite Hindex. }
  split; [done|]. split; [|reflexivity].
  by rewrite getEdgeStat_observed.
Qed.

Lemma extend_validate_true (problem : ProblemT) es projShorter projPath validPath
    (s1 s' : PlannerT) r :
  extend_validate problem es projShorter projPath validPath s1 = (s', Ret (true, r)) ->
  exists fullyValid fullValidPath p,
    pathValidation problem projPath false = Ret (fullyValid, fullValidPath)
    /\ v_eqb (pathLength fullValidPath) v_zero = false
    /\ r = Some p
    /\ if v_eqb (extendStep_ s1) v_one || fullyValid then p = fullValidPath
       else extract fullValidPath
              ((timeRange fullValidPath).1,
               v_add (timeRange fullValidPath).1
                     (v_mul (pathLength fullValidPath) (extendStep_ s1)))
            = Some p.
Proof.
  unfold extend_validate.
  destruct (pathValidation problem projPath false) as [[fullyValid fullValidPath]|e|].
  - destruct (v_eqb (pathLength fullValidPath) v_zero) eqn:Hlen; [discriminate|].
    unfold bindM, getM, retM, es_addFailure, es_addSuccess, modifyM.
    intros Heq. exists fullyValid, fullValidPath.
    destruct fullyValid; simpl in Heq.
    + rewrite orb_true_r in *. destruct (negb projShorter && true);
        inversion Heq; subst; eexists; repeat split;
        first [reflexivity | exact Hlen].
    + rewrite orb_false_r in *.
      destruct (v_eqb (extendStep_ s1) v_one); simpl in Heq.
      * destruct (negb projShorter && true); inversion Heq; subst;
          eexists; repeat split; first [reflexivity | exact Hlen].
      * destruct (extract fullValidPath _) as [extracted|] eqn:Hextract;
          [|discriminate].
        destruct (negb projShorter && true); inversion Heq; subst;
          eexists; repeat split;
          first [reflexivity | exact Hlen | exact Hextract].
  - destruct e; discriminate.
  - discriminate.
Qed.

(** X11.  When [extend] returns true, [validPath] is set, so that the caller
    can evaluate it: an edge was selected, its constraints were applied and
    its path built, the validation of the path returned a valid part that
    has a length, and [validPath] is this valid part, whole if the path is
    fully valid or [extendStep_] is 1, else its extraction over
    [[t_init, t_init + length * extendStep_]]. *)
Theorem extend_true_validPath (problem : ProblemT) n q validPath (s s' : PlannerT) r :
  extend problem n q validPath s = (s', Ret (true, r)) ->
  exists edge q' path projPath fullyValid fullValidPath p,
    chooseEdge problem n = Some edge
    /\ applyConstraints problem edge n q = (true, q')
    /\ build problem edge (configuration n) q' = Some path
    /\ pathValidation problem projPath false = Ret (fullyValid, fullValidPath)
    /\ v_eqb (pathLength fullValidPath) v_zero = false
    /\ r = Some p
    /\ if v_eqb (extendStep_ s) v_one || fullyValid then p = fullValidPath
       else extract fullValidPath
              ((timeRange fullValidPath).1,
               v_add (timeRange fullValidPath).1
                     (v_mul (pathLength fullValidPath) (extendStep_ s)))
            = Some p.
Proof.
  unfold extend.
  destruct (chooseEdge problem n) as [edge|] eqn:Hchoose; [|discriminate].
  destruct (edgeStat_fields edge (set_qProj q s)) as (s1 & es & HedgeStat & _ & Hstep & _).
  unfold bindM at 1. unfold modifyM at 1. unfold bindM at 1. rewrite HedgeStat.
  destruct (applyConstraints problem edge n q) as [applied q'] eqn:Happly.
  unfold bindM at 1. unfold modifyM at 1.
  destruct applied; simpl; [|discriminate].
  destruct (build problem edge (configuration n) q') as [path|] eqn:Hbuild;
    [|discriminate].
  assert (forall projShorter projPath (s2 : PlannerT),
             extendStep_ s2 = extendStep_ s ->
             extend_validate problem es projShorter projPath validPath s2
             = (s', Ret (true, r)) ->
             exists edge0 q0 path0 projPath0 fullyValid fullValidPath p,
               Some edge = Some edge0
               /\ applyConstraints problem edge0 n q = (true, q0)
               /\ build problem edge0 (configuration n) q0 = Some path0
               /\ pathValidation problem projPath0 false = Ret (fullyValid, fullValidPath)
               /\ v_eqb (pathLength fullValidPath) v_zero = false
               /\ r = Some p
               /\ if v_eqb (extendStep_ s) v_one || fullyValid then p = fullValidPath
                  else extract fullValidPath
                         ((timeRange fullValidPath).1,
                          v_add (timeRange fullValidPath).1
                                (v_mul (pathLength fullValidPath) (extendStep_ s)))
                       = Some p) as Hvalidate.
  { intros projShorter projPath s2 Hstep2 Hval.
    apply extend_validate_true in Hval as (fullyValid & fullValidPath & p & H1 & H2 & H3 & H4).
    rewrite Hstep2 in H4.
    exists edge, q', path, projPath, fullyValid, fullValidPath, p. done. }
  destruct (pathProjector problem) as [apply|].
  - destruct (apply path) as [projPath|[projPath|]]; [|  |discriminate].
    + apply Hvalidate. done.
    + destruct (v_eqb (pathLength projPath) v_zero); [discriminate|].
      unfold bindM at 1. unfold es_addFailure at 1. unfold modifyM at 1.
      apply Hvalidate. done.
  - apply Hvalidate. done.
Qed.

(** The events of a call of [extend] and the boolean it returns: one
    [Success] or one [PARTLY_EXTENDED] when it returns true, none of them
    when it returns false. *)
Ltac outcome_is evs :=
  exists evs; simpl;
  split; [reflexivity|]; split; [reflexivity|];
  let b := fresh "b" in let r := fresh "r" in let Heq := fresh "Heq" in
  intros b r Heq; first [discriminate Heq | inversion Heq; reflexivity].

Ltac find_outcome :=
  first [ outcome_is constr:(@nil Event)
        | outcome_is constr:([Failure PROJECTION])
        | outcome_is constr:([Failure STEERING_METHOD])
        | outcome_is constr:([Failure PATH_PROJECTION_ZERO])
        | outcome_is constr:([Failure PATH_VALIDATION_ZERO])
        | outcome_is constr:([Failure PATH_PROJECTION_SHORTER])
        | outcome_is constr:([Success])
        | outcome_is constr:([Failure PARTLY_EXTENDED])
        | outcome_is constr:([Failure PATH_VALIDATION_SHORTER; Failure PARTLY_EXTENDED])
        | outcome_is constr:([Failure PATH_VALIDATION_SHORTER; Success])
        | outcome_is constr:([Failure PATH_VALIDATION_SHORTER; Failure PATH_PROJECTION_SHORTER]) ].

Lemma extend_validate_outcome (problem : ProblemT) es (projShorter : bool) projPath
    validPath (s1 : PlannerT) :
  exists evs,
    let '(s', res) := extend_validate problem es projShorter projPath validPath s1 in
    indexPerEdgeStatistics_ s' = indexPerEdgeStatistics_ s1
    /\ perEdgeStatistics_ s' = recordEvents es evs (perEdgeStatistics_ s1)
    /\ forall b r, res = Ret (b, r) ->
         occurrences Success evs + occurrences (Failure PARTLY_EXTENDED) evs
         = if b then 1 else 0.
Proof.
  unfold extend_validate.
  destruct (pathValidation problem projPath false) as [[fullyValid fullValidPath]|e|].
  - destruct (v_eqb (pathLength fullValidPath) v_zero).
    + find_outcome.
    + unfold bindM, getM, retM, es_addFailure, es_addSuccess, modifyM.
      destruct fullyValid; simpl.
      * rewrite orb_true_r. destruct projShorter; simpl; find_outcome.
      * rewrite orb_false_r. destruct (v_eqb (extendStep_ s1) v_one); simpl.
        -- destruct projShorter; simpl; find_outcome.
        -- destruct (extract fullValidPath _); destruct projShorter; simpl; find_outcome.
  - destruct e; find_outcome.
  - find_outcome.
Qed.

Lemma extend_outcome (problem : ProblemT) n q validPath (s s1 : PlannerT) edge es :
  chooseEdge problem n = Some edge ->
  edgeStat edge (set_qProj q s) = (s1, Ret es) ->
  exists evs,
    let '(s', res) := extend problem n q validPath s in
    indexPerEdgeStatistics_ s' = indexPerEdgeStatistics_ s1
    /\ perEdgeStatistics_ s' = recordEvents es evs (perEdgeStatistics_ s1)
    /\ forall b r, res = Ret (b, r) ->
         occurrences Success evs + occurrences (Failure PARTLY_EXTENDED) evs
         = if b then 1 else 0.
Proof.
  intros Hchoose HedgeStat. unfold extend. rewrite Hchoose.
  unfold bindM at 1. unfold modifyM at 1. unfold bindM at 1. rewrite HedgeStat.
  destruct (applyConstraints problem edge n q) as [applied q'].
  unfold bindM at 1. unfold modifyM at 1.
  destruct applied; simpl; [|find_outcome].
  destruct (build problem edge (configuration n) q') as [path|]; [|find_outcome].
  destruct (pathProjector problem) as [apply|].
  - destruct (apply path) as [projPath|[projPath|]].
    + destruct (extend_validate_outcome problem es false projPath validPath
                  (set_qProj q' s1)) as [evs Hevs].
      exists evs. destruct (extend_validate _ _ _ _ _ _) as [s' res]. apply Hevs.
    + destruct (v_eqb (pathLength projPath) v_zero); [find_outcome|].
      unfold bindM at 1. unfold es_addFailure at 1. unfold modifyM at 1.
      match goal with |- context [extend_validate _ _ _ _ _ ?st] =>
        destruct (extend_validate_outcome problem es true projPath validPath st)
          as [evs Hevs] end.
      exists (Failure PATH_PROJECTION_SHORTER :: evs).
      destruct (extend_validate _ _ _ _ _ _) as [s' res].
      destruct Hevs as (Hindex & Hper & Hocc).
      split; [exact Hindex|]. split; [exact Hper|].
      intros b r Heq. rewrite !occurrences_cons. simpl. by apply (Hocc b r).
    + find_outcome.
  - destruct (extend_validate_outcome problem es false path validPath
                (set_qProj q' s1)) as [evs Hevs].
    exists evs. destruct (extend_validate _ _ _ _ _ _) as [s' res]. apply Hevs.
Qed.

Lemma extend_early (a : AttemptT) (s s1 : PlannerT) edge es t :
  chooseEdge (a_problem a) (a_near a) = Some edge ->
  edgeStat edge (set_qProj (a_rand a) s) = (s1, Ret es) ->
  earlyFailure a = Some t ->
  exists s',
    extend (a_problem a) (a_near a) (a_rand a) (a_validPath a) s
    = (s', Ret (false, a_validPath a))
    /\ (t = PROJECTION \/ t = STEERING_METHOD)
    /\ indexPerEdgeStatistics_ s' = indexPerEdgeStatistics_ s1
    /\ perEdgeStatistics_ s' = recordEvents es [Failure t] (perEdgeStatistics_ s1).
Proof.
  intros Hchoose HedgeStat. unfold earlyFailure, extend. rewrite Hchoose.
  unfold bindM at 1. unfold modifyM at 1. unfold bindM at 1. rewrite HedgeStat.
  destruct (applyConstraints (a_problem a) edge (a_near a) (a_rand a)) as [applied q'].
  unfold bindM at 1. unfold modifyM at 1.
  destruct applied; simpl.
  - destruct (build (a_problem a) edge (configuration (a_near a)) q') as [path|];
      [discriminate|].
    intros Ht; inversion Ht; subst t.
    eexists. split; [reflexivity|]. split; [by right|]. split; reflexivity.
  - intros Ht; inversion Ht; subst t.
    eexists. split; [reflexivity|]. split; [by left|]. split; reflexivity.
Qed.

Lemma occurrences_one (t' t : TypeOfFailure) :
  occurrences (Failure t') [Failure t] = if Nat.eqb (rank t') (rank t) then 1 else 0.
Proof. unfold occurrences. simpl. by destruct (Nat.eqb _ _). Qed.

Lemma recorded_failure (s s1 s' : PlannerT) edge es t q :
  stat_wf s ->
  edgeStat edge (set_qProj q s) = (s1, Ret es) ->
  indexPerEdgeStatistics_ s' = indexPerEdgeStatistics_ s1 ->
  perEdgeStatistics_ s' = recordEvents es [Failure t] (perEdgeStatistics_ s1) ->
  stat_wf s'
  /\ forall e,
      successes s' e = successes s e
      /\ forall t',
          failures s' e t'
          = failures s e t'
            + (if Nat.eqb (id e) (id edge) && Nat.eqb (rank t') (rank t)
               then 1 else 0).
Proof.
  intros Hwf HedgeStat Hindex Hper.
  destruct (recorded_statistics (set_qProj q s) s1 s' edge es [Failure t]
              Hwf HedgeStat Hindex Hper) as [Hwf' Hcounts].
  split; [done|]. intros e. destruct (Hcounts e) as [Hs Hf].
  split.
  - rewrite Hs.
    replace (successes (set_qProj q s) e) with (successes s e) by reflexivity.
    unfold occurrences. simpl. destruct (Nat.eqb _ _); lia.
  - intros t'. rewrite Hf, occurrences_one.
    replace (failures (set_qProj q s) e t') with (failures s e t') by reflexivity.
    by destruct (Nat.eqb (id e) (id edge)).
Qed.

(** X12.  A call of [extend] whose selected edge cannot project [q_rand], or
    whose steering method builds no path from the projection, returns false
    and leaves [validPath] as it was; it records one failure for the
    selected edge, [PROJECTION] in the first case and [STEERING_METHOD] in
    the second, and changes no other count of any edge. *)
Theorem extend_early_failure (a : AttemptT) (s : PlannerT) edge t :
  stat_wf s ->
  chooseEdge (a_problem a) (a_near a) = Some edge ->
  earlyFailure a = Some t ->
  exists s',
    extend (a_problem a) (a_near a) (a_rand a) (a_validPath a) s
    = (s', Ret (false, a_validPath a))
    /\ (t = PROJECTION \/ t = STEERING_METHOD)
    /\ stat_wf s'
    /\ forall e,
        successes s' e = successes s e
        /\ forall t',
            failures s' e t'
            = failures s e t'
              + (if Nat.eqb (id e) (id edge) && Nat.eqb (rank t') (rank t)
                 then 1 else 0).
Proof.
  intros Hwf Hchoose Hearly.
  destruct (edgeStat_fields edge (set_qProj (a_rand a) s)) as (s1 & es & HedgeStat & _).
  destruct (extend_early a s s1 edge es t Hchoose HedgeStat Hearly)
    as (s' & Hext & Ht & Hindex & Hper).
  exists s'. split; [exact Hext|]. split; [exact Ht|].
  exact (recorded_failure s s1 s' edge es t (a_rand a) Hwf HedgeStat Hindex Hper).
Qed.

(** X13.  The successes and the partial extensions of an edge count the
    calls of [extend] that selected it and returned true: a call that
    returns true adds one to their sum for the selected edge, a call that
    returns false adds nothing, and the sum of no other edge changes. *)
Theorem extend_counts_extensions (a : AttemptT) (s s' : PlannerT) b r :
  stat_wf s ->
  extend (a_problem a) (a_near a) (a_rand a) (a_validPath a) s = (s', Ret (b, r)) ->
  forall e,
    successes s' e + failures s' e PARTLY_EXTENDED
    = successes s e + failures s e PARTLY_EXTENDED
      + (if selects e a && b then 1 else 0).
Proof.
  intros Hwf Hext e. unfold selects.
  destruct (chooseEdge (a_problem a) (a_near a)) as [edge|] eqn:Hchoose.
  - destruct (edgeStat_fields edge (set_qProj (a_rand a) s)) as (s1 & es & HedgeStat & _).
    destruct (extend_outcome _ _ _ (a_validPath a) s s1 edge es Hchoose HedgeStat)
      as [evs Hevs].
    rewrite Hext in Hevs. destruct Hevs as (Hindex & Hper & Hocc).
    destruct (recorded_statistics (set_qProj (a_rand a) s) s1 s' edge es evs
                Hwf HedgeStat Hindex Hper) as [_ Hcounts].
    destruct (Hcounts e) as [Hs Hf]. rewrite Hs, Hf.
    specialize (Hocc b r eq_refl).
    replace (successes (set_qProj (a_rand a) s) e) with (successes s e) by reflexivity.
    replace (failures (set_qProj (a_rand a) s) e PARTLY_EXTENDED)
      with (failures s e PARTLY_EXTENDED) by reflexivity.
    rewrite (Nat.eqb_sym (id edge) (id e)).
    destruct (Nat.eqb (id e) (id edge)); simpl; [|lia].
    destruct b; lia.
  - unfold extend in Hext. rewrite Hchoose in Hext. inversion Hext; subst. simpl. lia.
Qed.

(** ** Sequences of calls of [extend] *)

Lemma extend_other_edge (a : AttemptT) (s : PlannerT) edge :
  stat_wf s -> selects edge a = false ->
  let s' := (extend (a_problem a) (a_near a) (a_rand a) (a_validPath a) s).1 in
  successes s' edge = successes s edge
  /\ forall t, failures s' edge t = failures s edge t.
Proof.
  intros Hwf Hselects. unfold selects in Hselects.
  destruct (chooseEdge (a_problem a) (a_near a)) as [chosen|] eqn:Hchoose.
  - destruct (edgeStat_fields chosen (set_qProj (a_rand a) s))
      as (s1 & es & HedgeStat & _).
    destruct (extend_events _ _ _ (a_validPath a) s s1 chosen es Hchoose HedgeStat)
      as [evs Hevs].
    destruct (extend (a_problem a) (a_near a) (a_rand a) (a_validPath a) s) as [s' res].
    destruct Hevs as (Hindex & Hper & _). simpl.
    destruct (recorded_statistics (set_qProj (a_rand a) s) s1 s' chosen es evs
                Hwf HedgeStat Hindex Hper) as [_ Hcounts].
    destruct (Hcounts edge) as [Hs Hf].
    rewrite Nat.eqb_sym, Hselects in Hs, Hf.
    split; [rewrite Hs|intros t; rewrite Hf].
    + replace (successes (set_qProj (a_rand a) s) edge) with (successes s edge)
        by reflexivity. lia.
    + replace (failures (set_qProj (a_rand a) s) edge t) with (failures s edge t)
        by reflexivity. lia.
  - unfold extend. rewrite Hchoose. done.
Qed.

Lemma extendAll_early_counts (attempts : list AttemptT) (s s' : PlannerT) edge t :
  stat_wf s ->
  Forall (fun a => selects edge a = true -> earlyFailure a = Some t) attempts ->
  extendAll attempts s = (s', Ret tt) ->
  successes s' edge = successes s edge
  /\ forall t',
      failures s' edge t'
      = failures s edge t'
        + (if Nat.eqb (rank t') (rank t) then nbAttempts edge attempts else 0).
Proof.
  revert s; induction attempts as [|a attempts IH]; intros s Hwf Hall Hrun.
  - inversion Hrun; subst. split; [done|]. intros t'.
    unfold nbAttempts. simpl. destruct (Nat.eqb _ _); lia.
  - apply Forall_cons in Hall as [Ha Hall].
    simpl in Hrun. unfold bindM in Hrun.
    pose proof (extend_stat_wf (a_problem a) (a_near a) (a_rand a) (a_validPath a) s Hwf)
      as Hwf1.
    destruct (selects edge a) eqn:Hselects.
    + specialize (Ha eq_refl). pose proof Hselects as Hsel.
      unfold selects in Hselects.
      destruct (chooseEdge (a_problem a) (a_near a)) as [chosen|] eqn:Hchoose;
        [|discriminate].
      apply Nat.eqb_eq in Hselects.
      destruct (edgeStat_fields chosen (set_qProj (a_rand a) s))
        as (s0 & es & HedgeStat & _).
      destruct (extend_early a s s0 chosen es t Hchoose HedgeStat Ha)
        as (s1 & Hext & _ & Hindex & Hper).
      destruct (recorded_failure s s0 s1 chosen es t (a_rand a) Hwf HedgeStat
                  Hindex Hper) as [_ Hcounts].
      rewrite Hext in Hrun, Hwf1. simpl in Hwf1.
      destruct (IH _ Hwf1 Hall Hrun) as [Hs Hf].
      destruct (Hcounts edge) as [Hs1 Hf1].
      split; [by rewrite Hs, Hs1|]. intros t'. rewrite Hf, Hf1.
      unfold nbAttempts. simpl. rewrite Hsel.
      rewrite <- Hselects, Nat.eqb_refl. simpl.
      destruct (Nat.eqb (rank t') (rank t)); simpl; lia.
    + pose proof (extend_other_edge a s edge Hwf Hselects) as [Hs1 Hf1].
      destruct (extend (a_problem a) (a_near a) (a_rand a) (a_validPath a) s)
        as [s1 [r| |]]; try discriminate.
      simpl in Hwf1, Hs1, Hf1.
      destruct (IH _ Hwf1 Hall Hrun) as [Hs Hf].
      split; [by rewrite Hs, Hs1|]. intros t'. rewrite Hf, Hf1.
      unfold nbAttempts. simpl. by rewrite Hselects.
Qed.

(** X14.  Starting with no statistics, after a sequence of calls of [extend]
    that return and in which every call that selected [edge] failed before
    a path existed, for the same reason [t]: the planner counts no success
    for the edge, as many failures for [t] as calls selected the edge, and
    no failure for another reason; if at least one call selected the edge,
    [getEdgeStat] returns the vector of seven entries that holds this
    number at the rank of [t] and zeros elsewhere. *)
Theorem extendAll_early_failures (attempts : list AttemptT) (s s' : PlannerT) edge t :
  noStatistics s ->
  Forall (fun a => selects edge a = true -> earlyFailure a = Some t) attempts ->
  extendAll attempts s = (s', Ret tt) ->
  let count t' := if Nat.eqb (rank t') (rank t) then nbAttempts edge attempts else 0 in
  successes s' edge = 0
  /\ (forall t', failures s' edge t' = count t')
  /\ (1 <= nbAttempts edge attempts ->
      getEdgeStat s' edge = 0 :: map count reportedReasons).
Proof.
  intros [Hindex Hper] Hall Hrun count.
  assert (stat_wf s) as Hwf.
  { intros i z Hi. rewrite Hindex in Hi. discriminate. }
  destruct (extendAll_early_counts attempts s s' edge t Hwf Hall Hrun) as [Hs Hf].
  assert (observed s edge = false) as Hunobserved.
  { unfold observed. by rewrite Hindex. }
  unfold successes at 2 in Hs. rewrite Hunobserved in Hs.
  assert (forall t', failures s' edge t' = count t') as Hcount.
  { intros t'. rewrite Hf. unfold failures. by rewrite Hunobserved. }
  split; [done|]. split; [done|].
  intros Hone.
  assert (observed s' edge = true) as Hobserved.
  { specialize (Hcount t). unfold count in Hcount. rewrite Nat.eqb_refl in Hcount.
    unfold failures in Hcount. destruct (observed s' edge); [done|lia]. }
  rewrite getEdgeStat_observed by done. rewrite Hs.
  f_equal. apply map_ext. intros t'. apply Hcount.
Qed.

End Extras.

Import Toy.

(** X8 in the concrete world: the first call of [edgeStat] for the edge of
    the problem, on the planner as constructed. *)
Lemma edgeStat_creates_once_witness :
  let s := planner0 2 graph_validation in
  exists s1 es,
    edgeStat e0 s = (s1, Ret es)
    /\ observed s1 e0 = true
    /\ edgeStat e0 s1 = (s1, Ret es)
    /\ List.length (perEdgeStatistics_ s1) = 1
    /\ stat_wf s1
    /\ forall e, successes s1 e = successes s e.
Proof.
  intros s.
  destruct (edgeStat_creates_once s e0) as (s1 & es & Hfirst & Hobs & Hsecond & Hlen & Hcounts).
  exists s1, es. split; [exact Hfirst|]. split; [exact Hobs|]. split; [exact Hsecond|].
  split; [exact Hlen|].
  assert (stat_wf s) as Hwf by (intros i z Hi; discriminate).
  destruct (Hcounts Hwf) as [Hwf1 Hsame].
  split; [exact Hwf1|]. intros e. apply Hsame.
Defined.

(** X10 in the concrete world: a call towards the obstacle. *)
Lemma getEdgeStat_after_extend_witness :
  let s' := (extend (toy_problem 4 graph_validation) node0 4%Q None
               (planner0 4 graph_validation)).1 in
  observed s' e0 = true
  /\ List.length (getEdgeStat s' e0) = List.length errorList
  /\ List.length errorList = 7.
Proof.
  apply (getEdgeStat_after_extend (toy_problem 4 graph_validation) node0 4%Q None
           (planner0 4 graph_validation) e0).
  reflexivity.
Defined.

(** X11 in the concrete world: [extendStep_] is 1/2 and the path from 0
    towards 4 is valid up to the obstacle, for 3/2 seconds; [validPath] is
    its extraction over 3/4 seconds. *)
Lemma extend_true_validPath_witness :
  let problem := toy_problem 4 graph_validation in
  let s := set_extendStep (1 # 2)%Q (planner0 4 graph_validation) in
  exists edge q' path projPath fullyValid fullValidPath p,
    chooseEdge problem node0 = Some edge
    /\ applyConstraints problem edge node0 4%Q = (true, q')
    /\ build problem edge (configuration node0) q' = Some path
    /\ pathValidation problem projPath false = Ret (fullyValid, fullValidPath)
    /\ v_eqb (pathLength fullValidPath) v_zero = false
    /\ Some (segment 0 (3 # 2) 0 (3 # 4)) = Some p
    /\ if v_eqb (extendStep_ s) v_one || fullyValid then p = fullValidPath
       else extract fullValidPath
              ((timeRange fullValidPath).1,
               v_add (timeRange fullValidPath).1
                     (v_mul (pathLength fullValidPath) (extendStep_ s)))
            = Some p.
Proof.
  intros problem s.
  apply (extend_true_validPath problem node0 4%Q None s
           (extend problem node0 4%Q None s).1 (Some (segment 0 (3 # 2) 0 (3 # 4)))).
  reflexivity.
Defined.

(** X12 in the concrete world: the edge of [stuck_problem] cannot be
    projected on. *)
Lemma extend_early_failure_witness :
  let a := attempt_stuck 2 in
  let s := planner0 2 graph_validation in
  exists s',
    extend (a_problem a) (a_near a) (a_rand a) (a_validPath a) s
    = (s', Ret (false, a_validPath a))
    /\ (PROJECTION = PROJECTION \/ PROJECTION = STEERING_METHOD)
    /\ stat_wf s'
    /\ forall e,
        successes s' e = successes s e
        /\ forall t',
            failures s' e t'
            = failures s e t'
              + (if Nat.eqb (id e) (id e0) && Nat.eqb (rank t') (rank PROJECTION)
                 then 1 else 0).
Proof.
  intros a s.
  apply (extend_early_failure a s e0 PROJECTION).
  - intros i z Hi. discriminate.
  - reflexivity.
  - reflexivity.
Defined.

(** X13 in the concrete world: the call towards the obstacle returns true
    with the part of the path below the obstacle. *)
Lemma extend_counts_extensions_witness :
  let a := attempt 4 in
  let s := planner0 4 graph_validation in
  let s' := (extend (a_problem a) (a_near a) (a_rand a) (a_validPath a) s).1 in
  successes s' e0 + failures s' e0 PARTLY_EXTENDED
  = successes s e0 + failures s e0 PARTLY_EXTENDED
    + (if selects e0 a && true then 1 else 0).
Proof.
  intros a s s'.
  apply (extend_counts_extensions a s s' true (Some (segment 0 3 0 (3 # 2)))).
  - intros i z Hi. discriminate.
  - reflexivity.
Defined.

(** X14 in the concrete world: two calls on the problem whose edge cannot
    be projected on. *)
Lemma extendAll_early_failures_witness :
  let attempts := [attempt_stuck 2; attempt_stuck 5] in
  let s' := (extendAll attempts (planner0 2 graph_validation)).1 in
  let count t' := if Nat.eqb (rank t') (rank PROJECTION)
                  then nbAttempts e0 attempts else 0 in
  successes s' e0 = 0
  /\ (forall t', failures s' e0 t' = count t')
  /\ (1 <= nbAttempts e0 attempts ->
      getEdgeStat s' e0 = 0 :: map count reportedReasons).
Proof.
  intros attempts s'.
  apply (extendAll_early_failures attempts (planner0 2 graph_validation) s' e0 PROJECTION).
  - split; reflexivity.
  - repeat constructor.
  - reflexivity.
Defined.

End PlannerExtras.

(** * Further properties of the roadmap connection *)

Module ConnectionExtras.
Import RoadmapOps Planner ConnectionNotions ConnectionFacts.
Section Extras.
Context {value_type Configuration ConstraintSet GraphNode Leaf : Type}.
Context `{EqDecision GraphNode}.
Context {VT : ValueType value_type}.
Context {CI : ConfigurationInterface Configuration}.
Context {PI : PathInterface value_type Configuration ConstraintSet Leaf}.
Context {RI : RoadmapInterface value_type Configuration GraphNode Leaf}.
Variable NDEBUG : bool.

Abbreviation PathT := (Path Leaf).
Abbreviation NodeT := (Node Configuration GraphNode).
Abbreviation RoadmapT := (Roadmap Configuration GraphNode Leaf).
Abbreviation ProblemT := (Problem Configuration GraphNode Leaf).

(** ** A pair that is connected is connected in both directions *)

Lemma isOutNeighbor_addEdge (a b n1 n2 : NodeT) (p : PathT) (r : RoadmapT) :
  isOutNeighbor (addEdge a b p r) n1 n2
  = isOutNeighbor r n1 n2
    || Nat.eqb (handle a) (handle n1) && Nat.eqb (handle b) (handle n2).
Proof. unfold isOutNeighbor, addEdge. simpl. rewrite existsb_app. simpl. by rewrite orb_false_r. Qed.

Lemma isInNeighbor_addEdge (a b n1 n2 : NodeT) (p : PathT) (r : RoadmapT) :
  isInNeighbor (addEdge a b p r) n1 n2
  = isInNeighbor r n1 n2
    || Nat.eqb (handle a) (handle n2) && Nat.eqb (handle b) (handle n1).
Proof. unfold isInNeighbor, addEdge. simpl. rewrite existsb_app. simpl. by rewrite orb_false_r. Qed.

Lemma connectValidated_true (problem : ProblemT) (n1 n2 : NodeT) (projPath : PathT)
    (r r' : RoadmapT) :
  connectValidated problem n1 n2 (isOutNeighbor r n1 n2) (isInNeighbor r n1 n2)
    projPath r = (r', Ret true) ->
  isOutNeighbor r' n1 n2 = true /\ isInNeighbor r' n1 n2 = true
  /\ nodes_ r' = nodes_ r
  /\ List.length (edges_ r')
     = List.length (edges_ r)
       + (if isOutNeighbor r n1 n2 then 0 else 1)
       + (if isInNeighbor r n1 n2 then 0 else 1).
Proof.
  unfold connectValidated, bindM, liftO.
  destruct (pathValidation problem projPath false) as [[[] validPath]|e|]; simpl;
    try discriminate.
  destruct (isOutNeighbor r n1 n2) eqn:Hout, (isInNeighbor r n1 n2) eqn:Hin; simpl;
    try destruct (extract projPath _) as [reversed|]; simpl; try discriminate;
    intros Heq; inversion Heq; subst;
    rewrite ?isOutNeighbor_addEdge, ?isInNeighbor_addEdge, ?Hout, ?Hin, ?Nat.eqb_refl;
    simpl; rewrite ?length_app, ?orb_true_r; simpl; repeat split; lia.
Qed.

(** X15.  When the body of the connection loops connects a pair of nodes
    (the case that increments [nbConnection]), the pair was not connected
    in both directions before and is afterwards: [n2] is both an
    out-neighbour and an in-neighbour of [n1].  Exactly the directions that
    were missing are added, and no node. *)
Theorem connectPair_connects_both_ways (problem : ProblemT) (n1 n2 : NodeT)
    (r r' : RoadmapT) :
  connectPair NDEBUG problem n1 n2 r = (r', Ret true) ->
  isOutNeighbor r n1 n2 && isInNeighbor r n1 n2 = false
  /\ isOutNeighbor r' n1 n2 = true /\ isInNeighbor r' n1 n2 = true
  /\ nodes_ r' = nodes_ r
  /\ List.length (edges_ r')
     = List.length (edges_ r)
       + (if isOutNeighbor r n1 n2 then 0 else 1)
       + (if isInNeighbor r n1 n2 then 0 else 1).
Proof.
  unfold connectPair, bindM at 1, getM.
  destruct (isOutNeighbor r n1 n2 && isInNeighbor r n1 n2) eqn:Hboth; [discriminate|].
  unfold bindM, liftO, assertO.
  destruct (NDEBUG || _); simpl; [|discriminate].
  destruct (steeringMethod problem _ _) as [path|]; [|discriminate].
  destruct (pathProjector problem) as [apply|].
  - destruct (apply path) as [projPath|]; [|discriminate].
    intros Hconnect. split; [done|]. by apply connectValidated_true in Hconnect.
  - intros Hconnect. split; [done|]. by apply connectValidated_true in Hconnect.
Qed.

(** ** The connections that are counted *)

Lemma connectsCounted_intro (m : PlannerM RoadmapT bool) :
  (forall r, match m r with
             | (r', Ret b) => addedEdges r r' (if b then 1 else 0) (if b then 2 else 0)
             | _ => True
             end) ->
  connectsCounted m.
Proof.
  intros Hm r b Heq. specialize (Hm r).
  destruct (m r) as [r' [b'|e|]]; simpl in *; try discriminate.
  by inversion Heq; subst.
Qed.

Lemma connectsCounted_elim (m : PlannerM RoadmapT bool) (r : RoadmapT) :
  connectsCounted m ->
  match m r with
  | (r', Ret b) => addedEdges r r' (if b then 1 else 0) (if b then 2 else 0)
  | _ => True
  end.
Proof.
  intros Hm. specialize (Hm r).
  destruct (m r) as [r' [b'|e|]]; simpl in *; try done. by apply Hm.
Qed.

Lemma countsConnections_intro bound (m : nat -> PlannerM RoadmapT nat) :
  (forall nbConnection r,
      match m nbConnection r with
      | (r', Ret nb) => exists k, nb = nbConnection + k /\ k <= bound
                                  /\ addedEdges r r' k (2 * k)
      | _ => True
      end) ->
  countsConnections bound m.
Proof.
  intros Hm nbConnection r nb Heq. specialize (Hm nbConnection r).
  destruct (m nbConnection r) as [r' [nb'|e|]]; simpl in *; try discriminate.
  by inversion Heq; subst.
Qed.

Lemma countsConnections_elim bound (m : nat -> PlannerM RoadmapT nat) nbConnection
    (r : RoadmapT) :
  countsConnections bound m ->
  match m nbConnection r with
  | (r', Ret nb) => exists k, nb = nbConnection + k /\ k <= bound
                              /\ addedEdges r r' k (2 * k)
  | _ => True
  end.
Proof.
  intros Hm. specialize (Hm nbConnection r).
  destruct (m nbConnection r) as [r' [nb'|e|]]; simpl in *; try done. by apply Hm.
Qed.

Lemma connectsCounted_false : connectsCounted (retM false : PlannerM RoadmapT bool).
Proof. apply connectsCounted_intro. intros r. unfold addedEdges. simpl. lia. Qed.

Lemma connectValidated_counted (problem : ProblemT) (n1 n2 : NodeT)
    (_1to2 _2to1 : bool) (projPath : PathT) :
  _1to2 && _2to1 = false ->
  connectsCounted (connectValidated problem n1 n2 _1to2 _2to1 projPath).
Proof.
  intros Hnot. apply connectsCounted_intro. intros r.
  unfold connectValidated, bindM, liftO, addedEdges.
  destruct (pathValidation problem projPath false) as [[[] validPath]|e|]; simpl;
    try done; [|lia].
  destruct _1to2, _2to1; try discriminate; simpl;
    try destruct (extract projPath _) as [reversed|]; simpl; try done;
    rewrite ?length_app; simpl; lia.
Qed.

Lemma connectPair_counted (problem : ProblemT) (n1 n2 : NodeT) :
  connectsCounted (connectPair NDEBUG problem n1 n2).
Proof.
  apply connectsCounted_intro. intros r. unfold connectPair, bindM at 1, getM.
  destruct (isOutNeighbor r n1 n2 && isInNeighbor r n1 n2) eqn:Hboth;
    [exact (connectsCounted_elim _ r connectsCounted_false)|].
  unfold bindM, liftO, assertO.
  destruct (NDEBUG || _); simpl; [|done].
  destruct (steeringMethod problem _ _) as [path|];
    [|exact (connectsCounted_elim _ r connectsCounted_false)].
  destruct (pathProjector problem) as [apply|].
  - destruct (apply path) as [projPath|];
      [|exact (connectsCounted_elim _ r connectsCounted_false)].
    by apply connectsCounted_elim, connectValidated_counted.
  - by apply connectsCounted_elim, connectValidated_counted.
Qed.

(** A loop that is left at the first connection. *)
Lemma connectsCounted_until {A} (body : A -> PlannerM RoadmapT bool)
    (loop : PlannerM RoadmapT bool) (a : A) :
  connectsCounted (body a) -> connectsCounted loop ->
  connectsCounted (bindM (body a) (fun connected : bool =>
                                     if connected then retM true else loop)).
Proof.
  intros Hbody Hloop. apply connectsCounted_intro. intros r. unfold bindM.
  apply (connectsCounted_elim _ r) in Hbody.
  destruct (body a r) as [r1 [[]|e|]]; simpl in *; try done.
  apply (connectsCounted_elim _ r1) in Hloop.
  destruct (loop r1) as [r2 [b|e|]]; try done.
  unfold addedEdges in *. lia.
Qed.

Lemma connectToNearest_counted (problem : ProblemT) (n1 : NodeT) knearest :
  connectsCounted (connectToNearest NDEBUG problem n1 knearest).
Proof.
  induction knearest as [|n2 knearest IH]; simpl; [apply connectsCounted_false|].
  apply (connectsCounted_until (connectPair NDEBUG problem n1));
    [apply connectPair_counted|apply IH].
Qed.

Lemma connectToComponents_counted (problem : ProblemT) (n1 : NodeT) ccs :
  connectsCounted (connectToComponents NDEBUG problem n1 ccs).
Proof.
  induction ccs as [|cc ccs IH]; simpl; [apply connectsCounted_false|].
  apply connectsCounted_intro. intros r. unfold bindM at 1, getM.
  destruct (Nat.eqb cc _); [by apply connectsCounted_elim|].
  apply connectsCounted_elim.
  apply (connectsCounted_until
           (fun knearest => connectToNearest NDEBUG problem n1 knearest));
    [apply connectToNearest_counted|apply IH].
Qed.

Lemma tryConnectToRoadmap_from_counts (problem : ProblemT) nodes :
  countsConnections (List.length nodes) (tryConnectToRoadmap_from NDEBUG problem nodes).
Proof.
  induction nodes as [|n1 nodes IH]; apply countsConnections_intro;
    intros nbConnection r; simpl.
  - exists 0. unfold addedEdges. lia.
  - unfold bindM at 1, getM. unfold bindM.
    pose proof (connectsCounted_elim _ r
                  (connectToComponents_counted problem n1 (connectedComponents r)))
      as Hone.
    destruct (connectToComponents NDEBUG problem n1 (connectedComponents r) r)
      as [r1 [connectSucceed|e|]]; try done.
    pose proof (countsConnections_elim _ _
                  (if connectSucceed then S nbConnection else nbConnection) r1 IH)
      as Hrest.
    destruct (tryConnectToRoadmap_from _ _ _ _ _) as [r2 [nb|e|]]; try done.
    destruct Hrest as (k & Hnb & Hk & Hedges).
    unfold addedEdges in *.
    destruct connectSucceed; [exists (S k)|exists k]; simpl; lia.
Qed.

(** X16.  The number that [tryConnectToRoadmap] returns counts the
    connections it made: it is at most the number of nodes it was given, and
    each connection it counts has added one or two edges to the roadmap. *)
Theorem tryConnectToRoadmap_counts_connections (problem : ProblemT)
    (nodes : list NodeT) (r : RoadmapT) nb :
  let run := tryConnectToRoadmap NDEBUG problem nodes r in
  run.2 = Ret nb ->
  nb <= List.length nodes
  /\ List.length (edges_ r) + nb <= List.length (edges_ run.1)
     <= List.length (edges_ r) + 2 * nb.
Proof.
  intros run Hrun.
  destruct (tryConnectToRoadmap_from_counts problem nodes 0 r nb Hrun)
    as (k & Hnb & Hk & Hedges).
  simpl in Hnb. subst k. split; [done|]. exact Hedges.
Qed.

(** ** [tryConnectNewNodes] *)

Lemma connectToFollowing_onlyMissing (problem : ProblemT) (n1 : NodeT) following
    nbConnection :
  relates onlyMissing (connectToFollowing NDEBUG problem n1 following nbConnection).
Proof.
  revert nbConnection; induction following as [|n2 following IH]; intros nbConnection;
    simpl.
  - apply relates_ret. apply onlyMissing_refl.
  - apply relates_bind; [apply onlyMissing_trans|apply relates_get; apply onlyMissing_refl|].
    intros r. destruct (Nat.eqb _ _); [apply IH|].
    apply relates_bind; [apply onlyMissing_trans|apply connectPair_onlyMissing|].
    intros connected. apply IH.
Qed.

Lemma tryConnectNewNodes_from_onlyMissing (problem : ProblemT) nodes nbConnection :
  relates onlyMissing (tryConnectNewNodes_from NDEBUG problem nodes nbConnection).
Proof.
  revert nbConnection; induction nodes as [|n1 nodes IH]; intros nbConnection; simpl.
  - apply relates_ret. apply onlyMissing_refl.
  - apply relates_bind; [apply onlyMissing_trans|apply connectToFollowing_onlyMissing|].
    intros nb. apply IH.
Qed.

Lemma connectToFollowing_counts (problem : ProblemT) (n1 : NodeT) following :
  countsConnections (List.length following)
    (connectToFollowing NDEBUG problem n1 following).
Proof.
  induction following as [|n2 following IH]; apply countsConnections_intro;
    intros nbConnection r; simpl.
  - exists 0. unfold addedEdges. lia.
  - unfold bindM at 1, getM.
    destruct (Nat.eqb _ _).
    + pose proof (countsConnections_elim _ _ nbConnection r IH) as Hrest.
      destruct (connectToFollowing _ _ _ _ _ _) as [r2 [nb|e|]]; try done.
      destruct Hrest as (k & Hnb & Hk & Hedges).
      exists k. split; [done|]. split; [lia|done].
    + unfold bindM.
      pose proof (connectsCounted_elim _ r (connectPair_counted problem n1 n2)) as Hone.
      destruct (connectPair NDEBUG problem n1 n2 r) as [r1 [connected|e|]]; try done.
      pose proof (countsConnections_elim _ _
                    (if connected then S nbConnection else nbConnection) r1 IH)
        as Hrest.
      destruct (connectToFollowing _ _ _ _ _ _) as [r2 [nb|e|]]; try done.
      destruct Hrest as (k & Hnb & Hk & Hedges).
      unfold addedEdges in *.
      destruct connected; [exists (S k)|exists k]; simpl; lia.
Qed.

Lemma tryConnectNewNodes_from_counts (problem : ProblemT) nodes :
  countsConnections (pairs (List.length nodes))
    (tryConnectNewNodes_from NDEBUG problem nodes).
Proof.
  induction nodes as [|n1 nodes IH]; apply countsConnections_intro;
    intros nbConnection r; simpl.
  - exists 0. unfold addedEdges. lia.
  - unfold bindM.
    pose proof (countsConnections_elim _ _ nbConnection r
                  (connectToFollowing_counts problem n1 nodes)) as Hone.
    destruct (connectToFollowing NDEBUG problem n1 nodes nbConnection r)
      as [r1 [nb1|e|]]; try done.
    destruct Hone as (k1 & Hnb1 & Hk1 & Hedges1).
    pose proof (countsConnections_elim _ _ nb1 r1 IH) as Hrest.
    destruct (tryConnectNewNodes_from _ _ _ _ _) as [r2 [nb|e|]]; try done.
    destruct Hrest as (k & Hnb & Hk & Hedges).
    unfold addedEdges in *. exists (k1 + k). lia.
Qed.

Lemma pairs_double (n : nat) : 2 * pairs n = n * (n - 1).
Proof.
  induction n as [|n IH]; [done|]. simpl pairs.
  replace (S n - 1) with n by lia. destruct n as [|n]; [done|].
  replace (S n - 1) with n in IH by lia. nia.
Qed.

(** X17.  [tryConnectNewNodes] adds edges only where they are missing: no
    edge from a node to a node where one exists, and between two different
    nodes at most one.  The number it returns counts the connections it
    made: it is at most the number of pairs of the nodes it was given, and
    each connection it counts has added one or two edges to the roadmap. *)
Theorem tryConnectNewNodes_adds_missing_edges_only (problem : ProblemT)
    (nodes : list NodeT) (r : RoadmapT) :
  let run := tryConnectNewNodes NDEBUG problem nodes r in
  (forall a b, 1 <= countEdges r a b -> countEdges run.1 a b = countEdges r a b)
  /\ (forall a b, a <> b -> countEdges r a b = 0 -> countEdges run.1 a b <= 1)
  /\ (forall nb,
         run.2 = Ret nb ->
         2 * nb <= List.length nodes * (List.length nodes - 1)
         /\ List.length (edges_ r) + nb <= List.length (edges_ run.1)
            <= List.length (edges_ r) + 2 * nb).
Proof.
  intros run.
  pose proof (tryConnectNewNodes_from_onlyMissing problem nodes 0 r) as Honly.
  fold (tryConnectNewNodes NDEBUG problem nodes r) in Honly. fold run in Honly.
  split; [|split].
  - intros a b Hsome. destruct (Honly a b) as [Heq|[Hnone _]]; [done|lia].
  - intros a b Hne Hnone. destruct (Honly a b) as [Heq|[_ Hone]]; [lia|].
    rewrite Hone by done. lia.
  - intros nb Hrun.
    destruct (tryConnectNewNodes_from_counts problem nodes 0 r nb Hrun)
      as (k & Hnb & Hk & Hedges).
    simpl in Hnb. subst k. split; [|exact Hedges].
    rewrite <- pairs_double. lia.
Qed.

(** ** Nothing to connect *)

Lemma connectToFollowing_same_component (problem : ProblemT) (n1 : NodeT) following
    nbConnection (r : RoadmapT) cc :
  connectedComponent r n1 = cc -> inComponent r cc following ->
  connectToFollowing NDEBUG problem n1 following nbConnection r = (r, Ret nbConnection).
Proof.
  intros Hn1 Hall. induction Hall as [|n2 following Hn2 Hall IH]; simpl; [done|].
  unfold bindM at 1, getM. by rewrite Hn1, Hn2, Nat.eqb_refl.
Qed.

Lemma tryConnectNewNodes_from_same_component (problem : ProblemT) nodes nbConnection
    (r : RoadmapT) cc :
  inComponent r cc nodes ->
  tryConnectNewNodes_from NDEBUG problem nodes nbConnection r = (r, Ret nbConnection).
Proof.
  intros Hall. induction Hall as [|n1 nodes Hn1 Hall IH]; simpl; [done|].
  unfold bindM. by rewrite (connectToFollowing_same_component _ _ _ _ _ cc).
Qed.

Lemma connectToComponents_single (problem : ProblemT) (n1 : NodeT) (r : RoadmapT) :
  connectToComponents NDEBUG problem n1 [connectedComponent r n1] r = (r, Ret false).
Proof. simpl. unfold bindM, getM. by rewrite Nat.eqb_refl. Qed.

Lemma tryConnectToRoadmap_from_single (problem : ProblemT) nodes nbConnection
    (r : RoadmapT) cc :
  connectedComponents r = [cc] -> inComponent r cc nodes ->
  tryConnectToRoadmap_from NDEBUG problem nodes nbConnection r = (r, Ret nbConnection).
Proof.
  intros Hccs Hall. induction Hall as [|n1 nodes Hn1 Hall IH]; simpl; [done|].
  unfold bindM at 1, getM. rewrite Hccs, <- Hn1. unfold bindM.
  rewrite connectToComponents_single. exact IH.
Qed.

(** X18.  The connection phases have nothing to do within one connected
    component: if the nodes they are given are all in the same component,
    [tryConnectNewNodes] calls no steering method, returns 0 and leaves the
    roadmap as it is; if moreover this component is the only one of the
    roadmap, so does [tryConnectToRoadmap], which [oneStep] then calls. *)
Theorem connection_within_one_component (problem : ProblemT) (nodes : list NodeT)
    (r : RoadmapT) cc :
  inComponent r cc nodes ->
  tryConnectNewNodes NDEBUG problem nodes r = (r, Ret 0)
  /\ (connectedComponents r = [cc] ->
      tryConnectToRoadmap NDEBUG problem nodes r = (r, Ret 0)
      /\ connectNewNodes NDEBUG problem nodes r = (r, Ret tt)).
Proof.
  intros Hall.
  assert (tryConnectNewNodes NDEBUG problem nodes r = (r, Ret 0)) as Hnew
    by by apply (tryConnectNewNodes_from_same_component _ _ _ _ cc).
  split; [done|]. intros Hccs.
  assert (tryConnectToRoadmap NDEBUG problem nodes r = (r, Ret 0)) as Hroadmap
    by by apply (tryConnectToRoadmap_from_single _ _ _ _ cc).
  split; [done|].
  unfold connectNewNodes, bindM. rewrite Hnew. simpl. by rewrite Hroadmap.
Qed.

End Extras.

Import Toy.

(** X15 in the concrete world: [node2] is alone in its component and no
    edge joins it to [node0]; both directions are added. *)
Lemma connectPair_connects_both_ways_witness :
  let r' := (connectPair false (toy_problem 0 graph_validation) node0 node2 roadmap1).1 in
  isOutNeighbor roadmap1 node0 node2 && isInNeighbor roadmap1 node0 node2 = false
  /\ isOutNeighbor r' node0 node2 = true /\ isInNeighbor r' node0 node2 = true
  /\ nodes_ r' = nodes_ roadmap1
  /\ List.length (edges_ r') = 4.
Proof.
  intros r'.
  apply (connectPair_connects_both_ways false (toy_problem 0 graph_validation)
           node0 node2 roadmap1 r').
  reflexivity.
Defined.

(** X16 in the concrete world: [node0] is connected to [node2], by two
    edges. *)
Lemma tryConnectToRoadmap_counts_connections_witness :
  let run := tryConnectToRoadmap false (toy_problem 0 graph_validation) [node0] roadmap1 in
  1 <= List.length [node0]
  /\ List.length (edges_ roadmap1) + 1 <= List.length (edges_ run.1)
     <= List.length (edges_ roadmap1) + 2 * 1.
Proof.
  apply (tryConnectToRoadmap_counts_connections false (toy_problem 0 graph_validation)
           [node0] roadmap1 1).
  reflexivity.
Defined.

(** X17 in the concrete world: of the three pairs of nodes, the first is
    within one component, the second is connected, and this puts the third
    within one component. *)
Lemma tryConnectNewNodes_adds_missing_edges_only_witness :
  let run := tryConnectNewNodes false (toy_problem 0 graph_validation)
               [node0; node1; node2] roadmap1 in
  countEdges run.1 0 1 = 1
  /\ countEdges run.1 0 2 <= 1
  /\ 2 * 1 <= 3 * (3 - 1)
  /\ List.length (edges_ roadmap1) + 1 <= List.length (edges_ run.1)
     <= List.length (edges_ roadmap1) + 2 * 1.
Proof.
  intros run.
  pose proof (tryConnectNewNodes_adds_missing_edges_only false
                (toy_problem 0 graph_validation) [node0; node1; node2] roadmap1)
    as (Hkept & Hmissing & Hcount).
  split; [|split].
  - apply (Hkept 0 1). vm_compute. lia.
  - apply (Hmissing 0 2); [lia|reflexivity].
  - apply (Hcount 1). reflexivity.
Defined.

(** X18 in the concrete world: the roadmap with the single node [node0]. *)
Lemma connection_within_one_component_witness :
  tryConnectNewNodes false (toy_problem 0 graph_validation) [node0] roadmap0
  = (roadmap0, Ret 0)
  /\ tryConnectToRoadmap false (toy_problem 0 graph_validation) [node0] roadmap0
     = (roadmap0, Ret 0)
  /\ connectNewNodes false (toy_problem 0 graph_validation) [node0] roadmap0
     = (roadmap0, Ret tt).
Proof.
  destruct (connection_within_one_component false (toy_problem 0 graph_validation)
              [node0] roadmap0 0) as [Hnew Hroadmap].
  - repeat constructor.
  - split; [exact Hnew|]. apply Hroadmap. reflexivity.
Defined.

End ConnectionExtras.

(** * Further properties of [oneStep] *)

Module StepExtras.
Import RoadmapOps Planner ConnectionNotions ConnectionFacts.
Section Extras.
Context {value_type Configuration ConstraintSet GraphNode Leaf : Type}.
Context `{EqDecision GraphNode}.
Context {VT : ValueType value_type}.
Context {CI : ConfigurationInterface Configuration}.
Context {PI : PathInterface value_type Configuration ConstraintSet Leaf}.
Context {RI : RoadmapInterface value_type Configuration GraphNode Leaf}.
Variable NDEBUG : bool.

Abbreviation PathT := (Path Leaf).
Abbreviation NodeT := (Node Configuration GraphNode).
Abbreviation RoadmapT := (Roadmap Configuration GraphNode Leaf).
Abbreviation ProblemT := (Problem Configuration GraphNode Leaf).
Abbreviation PlannerT := (ManipulationPlanner value_type Configuration GraphNode Leaf).
Abbreviation StepT :=
  (StepState (Configuration := Configuration) (GraphNode := GraphNode) (Leaf := Leaf)).

(** ** The roadmap only grows *)

Lemma grows_refl (r : RoadmapT) : grows r r.
Proof. split; reflexivity. Qed.

Lemma grows_trans (r1 r2 r3 : RoadmapT) : grows r1 r2 -> grows r2 r3 -> grows r1 r3.
Proof. intros [Hn12 He12] [Hn23 He23]. split; etrans; eassumption. Qed.

Lemma grows_addEdge (a b : NodeT) (p : PathT) (r : RoadmapT) :
  grows r (addEdge a b p r).
Proof. split; simpl; [reflexivity|by apply prefix_app_r]. Qed.

Lemma grows_addNode q (r : RoadmapT) : grows r (addNode q r).1.
Proof. split; simpl; [by apply prefix_app_r|reflexivity]. Qed.

Create HintDb step.
#[local] Hint Resolve grows_refl grows_trans grows_addEdge grows_addNode : step.

Lemma relates_modify {S : Type} (R : S -> S -> Prop) (f : S -> S) :
  (forall s, R s (f s)) -> relates R (modifyM f).
Proof. intros Hf s. apply Hf. Qed.

Lemma addNodeAndEdges_grows (near : NodeT) q_new (p : PathT) :
  relates grows (addNodeAndEdges near q_new p).
Proof.
  intros r. unfold addNodeAndEdges.
  destruct (extract p _) as [reversed|]; simpl; [|apply grows_refl].
  eapply grows_trans; [apply (grows_addNode q_new r)|].
  eapply grows_trans; apply grows_addEdge.
Qed.

Lemma insertDelayedEdges_grows (delayed : list (NodeT * Configuration * PathT)) :
  relates grows (insertDelayedEdges delayed).
Proof.
  induction delayed as [|[[near q_new] validPath] delayed IH]; simpl.
  - apply relates_ret; auto with step.
  - apply relates_bind; [eauto with step|intros r; apply grows_addNode|].
    intros newNode.
    apply relates_bind; [eauto with step|apply relates_modify; auto with step|].
    intros _.
    apply relates_bind; [eauto with step| |intros _; apply IH].
    destruct (extract validPath _) as [reversed|];
      [apply relates_modify; auto with step|apply relates_throw; auto with step].
Qed.

Lemma connectValidated_grows (problem : ProblemT) (n1 n2 : NodeT) _1to2 _2to1
    (projPath : PathT) :
  relates grows (connectValidated problem n1 n2 _1to2 _2to1 projPath).
Proof.
  unfold connectValidated.
  apply relates_bind; [eauto with step|apply relates_liftO; auto with step|].
  intros v. destruct v.1; [|apply relates_ret; auto with step].
  apply relates_bind; [eauto with step| |intros _].
  { destruct (negb _1to2);
      [apply relates_modify; auto with step|apply relates_ret; auto with step]. }
  apply relates_bind; [eauto with step| |intros _; apply relates_ret; auto with step].
  destruct (negb _2to1); [|apply relates_ret; auto with step].
  destruct (extract projPath _) as [reversed|];
    [apply relates_modify; auto with step|apply relates_throw; auto with step].
Qed.

Lemma connectPair_grows (problem : ProblemT) (n1 n2 : NodeT) :
  relates grows (connectPair NDEBUG problem n1 n2).
Proof.
  unfold connectPair.
  apply relates_bind; [eauto with step|apply relates_get; auto with step|].
  intros r. destruct (_ && _); [apply relates_ret; auto with step|].
  apply relates_bind; [eauto with step|apply relates_liftO; auto with step|].
  intros _.
  destruct (steeringMethod problem _ _) as [path|]; [|apply relates_ret; auto with step].
  destruct (pathProjector problem) as [apply|].
  - destruct (apply path) as [projPath|]; [|apply relates_ret; auto with step].
    apply connectValidated_grows.
  - apply connectValidated_grows.
Qed.

Lemma connectToNearest_grows (problem : ProblemT) (n1 : NodeT) knearest :
  relates grows (connectToNearest NDEBUG problem n1 knearest).
Proof.
  induction knearest as [|n2 knearest IH]; simpl.
  - apply relates_ret; auto with step.
  - apply relates_bind; [eauto with step|apply connectPair_grows|].
    intros []; [apply relates_ret; auto with step|apply IH].
Qed.

Lemma connectToComponents_grows (problem : ProblemT) (n1 : NodeT) ccs :
  relates grows (connectToComponents NDEBUG problem n1 ccs).
Proof.
  induction ccs as [|cc ccs IH]; simpl.
  - apply relates_ret; auto with step.
  - apply relates_bind; [eauto with step|apply relates_get; auto with step|].
    intros r. destruct (Nat.eqb cc _); [apply IH|].
    apply relates_bind; [eauto with step|apply connectToNearest_grows|].
    intros []; [apply relates_ret; auto with step|apply IH].
Qed.

Lemma tryConnectToRoadmap_from_grows (problem : ProblemT) nodes nbConnection :
  relates grows (tryConnectToRoadmap_from NDEBUG problem nodes nbConnection).
Proof.
  revert nbConnection; induction nodes as [|n1 nodes IH]; intros nbConnection; simpl.
  - apply relates_ret; auto with step.
  - apply relates_bind; [eauto with step|apply relates_get; auto with step|].
    intros r.
    apply relates_bind; [eauto with step|apply connectToComponents_grows|].
    intros connectSucceed. apply IH.
Qed.

Lemma connectToFollowing_grows (problem : ProblemT) (n1 : NodeT) following nbConnection :
  relates grows (connectToFollowing NDEBUG problem n1 following nbConnection).
Proof.
  revert nbConnection; induction following as [|n2 following IH]; intros nbConnection;
    simpl.
  - apply relates_ret; auto with step.
  - apply relates_bind; [eauto with step|apply relates_get; auto with step|].
    intros r. destruct (Nat.eqb _ _); [apply IH|].
    apply relates_bind; [eauto with step|apply connectPair_grows|].
    intros connected. apply IH.
Qed.

Lemma tryConnectNewNodes_from_grows (problem : ProblemT) nodes nbConnection :
  relates grows (tryConnectNewNodes_from NDEBUG problem nodes nbConnection).
Proof.
  revert nbConnection; induction nodes as [|n1 nodes IH]; intros nbConnection; simpl.
  - apply relates_ret; auto with step.
  - apply relates_bind; [eauto with step|apply connectToFollowing_grows|].
    intros nb. apply IH.
Qed.

Lemma connectNewNodes_grows (problem : ProblemT) (newNodes : list NodeT) :
  relates grows (connectNewNodes NDEBUG problem newNodes).
Proof.
  unfold connectNewNodes.
  apply relates_bind; [eauto with step|apply tryConnectNewNodes_from_grows|].
  intros nbConn. destruct (Nat.eqb nbConn 0); [|apply relates_ret; auto with step].
  apply relates_bind; [eauto with step|apply tryConnectToRoadmap_from_grows|].
  intros _. apply relates_ret; auto with step.
Qed.

(** ** What a step keeps of the planner *)

Lemma stepInvariant_refl (s : PlannerT) : stepInvariant s s.
Proof.
  split; [done|]. split; [done|].
  destruct (roadmap_ s); [apply grows_refl|done].
Qed.

Lemma stepInvariant_trans (s1 s2 s3 : PlannerT) :
  stepInvariant s1 s2 -> stepInvariant s2 s3 -> stepInvariant s1 s3.
Proof.
  intros (Hstep12 & Hwf12 & Hr12) (Hstep23 & Hwf23 & Hr23).
  split; [congruence|]. split; [auto|].
  destruct (roadmap_ s1), (roadmap_ s2), (roadmap_ s3); try done.
  by eapply grows_trans.
Qed.

#[local] Hint Resolve stepInvariant_refl stepInvariant_trans : step.

Lemma onRoadmap_stepInvariant {A} (m : PlannerM RoadmapT A) :
  relates grows m -> relates stepInvariant (onRoadmap m : PlannerM PlannerT A).
Proof.
  intros Hm s. unfold onRoadmap.
  destruct (roadmap_ s) as [r|] eqn:Hr; [|apply stepInvariant_refl].
  specialize (Hm r). destruct (m r) as [r' a]. simpl in *.
  split; [done|]. split; [done|]. by rewrite Hr.
Qed.

Lemma extend_extendStep (problem : ProblemT) n q validPath (s : PlannerT) :
  extendStep_ (extend problem n q validPath s).1 = extendStep_ s.
Proof.
  destruct (chooseEdge problem n) as [edge|] eqn:Hchoose.
  - destruct (PlannerExtras.edgeStat_fields edge (set_qProj q s))
      as (s1 & es & HedgeStat & _ & Hstep & _).
    destruct (PlannerFacts.extend_events problem n q validPath s s1 edge es
                Hchoose HedgeStat) as [evs Hevs].
    destruct (extend problem n q validPath s) as [s' res].
    destruct Hevs as (_ & _ & _ & Hstep' & _). simpl. by rewrite Hstep', Hstep.
  - unfold extend. by rewrite Hchoose.
Qed.

Lemma extend_stepInvariant (problem : ProblemT) n q validPath :
  relates stepInvariant (extend problem n q validPath).
Proof.
  intros s. split; [apply extend_extendStep|].
  split; [apply PlannerFacts.extend_stat_wf|].
  rewrite StepFacts.extend_roadmap.
  destruct (roadmap_ s); [apply grows_refl|done].
Qed.

Lemma extendPair_stepInvariant (problem : ProblemT) q_rand cc gn (st : StepT) :
  relates stepInvariant (extendPair problem q_rand cc gn st).
Proof.
  unfold extendPair.
  apply relates_bind; [eauto with step| |].
  { apply onRoadmap_stepInvariant.
    apply relates_bind; [eauto with step|apply relates_get; auto with step|].
    intros r. apply relates_ret; auto with step. }
  intros [near|]; [|apply relates_ret; auto with step].
  apply relates_bind; [eauto with step|apply extend_stepInvariant|].
  intros [pathIsValid path']. destruct pathIsValid; [|apply relates_ret; auto with step].
  destruct path' as [p|]; [|apply relates_throw; auto with step].
  simpl. destruct (negb (v_eqb _ _)); [|apply relates_ret; auto with step].
  destruct (negb (belongs _ _)); [|apply relates_ret; auto with step].
  apply relates_bind; [eauto with step| |intros n; apply relates_ret; auto with step].
  apply onRoadmap_stepInvariant, addNodeAndEdges_grows.
Qed.

Lemma extendGraphNodes_stepInvariant (problem : ProblemT) q_rand cc gns (st : StepT) :
  relates stepInvariant (extendGraphNodes problem q_rand cc gns st).
Proof.
  revert st; induction gns as [|gn gns IH]; intros st; simpl.
  - apply relates_ret; auto with step.
  - apply relates_bind; [eauto with step|apply extendPair_stepInvariant|].
    intros st'. apply IH.
Qed.

Lemma extendComponents_stepInvariant (problem : ProblemT) q_rand ccs (st : StepT) :
  relates stepInvariant (extendComponents problem q_rand ccs st).
Proof.
  revert st; induction ccs as [|cc ccs IH]; intros st; simpl.
  - apply relates_ret; auto with step.
  - apply relates_bind; [eauto with step|apply extendGraphNodes_stepInvariant|].
    intros st'. apply IH.
Qed.

Lemma extensionLoop_stepInvariant (problem : ProblemT) q_rand :
  relates stepInvariant (extensionLoop problem q_rand).
Proof.
  unfold extensionLoop.
  apply relates_bind; [eauto with step| |intros ccs; apply extendComponents_stepInvariant].
  apply onRoadmap_stepInvariant.
  apply relates_bind; [eauto with step|apply relates_get; auto with step|].
  intros r. apply relates_ret; auto with step.
Qed.

Lemma oneStep_stepInvariant (problem : ProblemT) :
  relates stepInvariant (oneStep NDEBUG problem).
Proof.
  unfold oneStep.
  apply relates_bind; [eauto with step|apply extensionLoop_stepInvariant|].
  intros st.
  apply relates_bind; [eauto with step| |intros _].
  - apply onRoadmap_stepInvariant, insertDelayedEdges_grows.
  - apply onRoadmap_stepInvariant, connectNewNodes_grows.
Qed.

(** X19.  A step only adds to the roadmap: whatever the outcome of
    [oneStep], an exception included, the roadmap afterwards holds the nodes
    it held before, in the same order, and the edges it held before, in the
    same order; what the step adds comes after them. *)
Theorem oneStep_grows_roadmap (problem : ProblemT) (s : PlannerT) (r : RoadmapT) :
  roadmap_ s = Some r ->
  exists r',
    roadmap_ (oneStep NDEBUG problem s).1 = Some r'
    /\ nodes_ r `prefix_of` nodes_ r'
    /\ edges_ r `prefix_of` edges_ r'.
Proof.
  intros Hr. destruct (oneStep_stepInvariant problem s) as (_ & _ & Hgrows).
  rewrite Hr in Hgrows.
  destruct (roadmap_ (oneStep NDEBUG problem s).1) as [r'|]; [|done].
  exists r'. split; [done|]. exact Hgrows.
Qed.

(** X20.  The consistency of the two vectors of statistics is an invariant
    of the planner: it holds when the planner is constructed, and a step
    keeps it, whatever the outcome of [oneStep]; a step does not change
    [extendStep_] either. *)
Theorem oneStep_keeps_statistics_consistent (problem : ProblemT) (s : PlannerT) :
  (forall (problem0 : ProblemT) roadmap,
      stat_wf (value_type := value_type) (ManipulationPlanner_ problem0 roadmap))
  /\ (stat_wf s -> stat_wf (oneStep NDEBUG problem s).1)
  /\ extendStep_ (oneStep NDEBUG problem s).1 = extendStep_ s.
Proof.
  destruct (oneStep_stepInvariant problem s) as (Hstep & Hwf & _).
  split; [|by split]. intros problem0 roadmap i z Hi. discriminate.
Qed.

(** ** The new nodes of a step *)

Lemma belongs_app q (nodes : list NodeT) (n : NodeT) :
  belongs q (nodes ++ [n]) = belongs q nodes || config_eqb (configuration n) q.
Proof. unfold belongs. rewrite existsb_app. simpl. by rewrite orb_false_r. Qed.

Lemma distinctFrom_snoc (seen nodes : list NodeT) (n : NodeT) :
  distinctFrom seen (nodes ++ [n])
  = distinctFrom seen nodes && negb (belongs (configuration n) (seen ++ nodes)).
Proof.
  revert seen; induction nodes as [|n' nodes IH]; intros seen; simpl.
  - by rewrite app_nil_r, andb_true_r.
  - rewrite IH, <- app_assoc. simpl. by rewrite andb_assoc.
Qed.

Lemma addNodeAndEdges_configuration (near : NodeT) q_new (p : PathT) (r r' : RoadmapT) n :
  addNodeAndEdges near q_new p r = (r', Ret n) -> configuration n = q_new.
Proof.
  unfold addNodeAndEdges. destruct (extract p _) as [reversed|]; [|discriminate].
  simpl. by intros Heq; inversion Heq; subst.
Qed.

Lemma onRoadmap_ret {A} (m : PlannerM RoadmapT A) (s s' : PlannerT) a :
  onRoadmap m s = (s', Ret a) ->
  exists r r', roadmap_ s = Some r /\ m r = (r', Ret a).
Proof.
  unfold onRoadmap. destruct (roadmap_ s) as [r|]; [|discriminate].
  destruct (m r) as [r' a'] eqn:Hm. intros Heq; inversion Heq; subst.
  by exists r, r'.
Qed.

Lemma stepProgress_path bound budget (st : StepT) path' :
  stepProgress bound budget st ->
  stepProgress bound budget
    {| newNodes := newNodes st; delayedEdges := delayedEdges st; path := path' |}.
Proof. done. Qed.

Lemma stepProgress_weaken bound budget (st : StepT) :
  stepProgress bound (S budget) st -> stepProgress bound budget st.
Proof. intros (Hdistinct & Hdelayed & Hlen). repeat split; [done..|lia]. Qed.

Lemma extendPair_progress (problem : ProblemT) q_rand cc gn bound budget
    (st st' : StepT) (s s' : PlannerT) :
  stepProgress bound (S budget) st ->
  extendPair problem q_rand cc gn st s = (s', Ret st') ->
  stepProgress bound budget st'.
Proof.
  intros Hprogress. unfold extendPair. unfold bindM at 1.
  destruct (onRoadmap _ s) as [s0 [[near|]|e|]]; try discriminate;
    [|by intros Heq; inversion Heq; subst; apply stepProgress_weaken].
  unfold bindM at 1.
  destruct (extend problem near q_rand (path st) s0)
    as [s1 [[pathIsValid path']|e|]]; try discriminate.
  apply (stepProgress_path _ _ _ path') in Hprogress.
  destruct pathIsValid;
    [|by intros Heq; inversion Heq; subst; apply stepProgress_weaken].
  destruct path' as [p|]; [|discriminate]. simpl.
  destruct (negb (v_eqb _ _));
    [|by intros Heq; inversion Heq; subst; apply stepProgress_weaken].
  destruct Hprogress as (Hdistinct & Hdelayed & Hlen). simpl in *.
  destruct (negb (belongs _ _)) eqn:Hbelongs.
  - unfold bindM.
    destruct (onRoadmap _ s1) as [s2 [n|e|]] eqn:Hadd; try discriminate.
    intros Heq; inversion Heq; subst.
    apply onRoadmap_ret in Hadd as (r & r' & _ & Hadd).
    apply addNodeAndEdges_configuration in Hadd.
    split; [|split]; simpl.
    + rewrite distinctFrom_snoc, Hdistinct, Hadd. simpl. exact Hbelongs.
    + eapply Forall_impl; [exact Hdelayed|]. intros d Hd.
      rewrite belongs_app, Hd. done.
    + rewrite length_app. simpl. lia.
  - intros Heq; inversion Heq; subst.
    split; [|split]; simpl.
    + done.
    + apply Forall_app. split; [done|]. constructor; [|done]. simpl.
      by apply negb_false_iff.
    + rewrite length_app. simpl. lia.
Qed.

Lemma extendGraphNodes_progress (problem : ProblemT) q_rand cc gns bound budget
    (st st' : StepT) (s s' : PlannerT) :
  stepProgress bound (List.length gns + budget) st ->
  extendGraphNodes problem q_rand cc gns st s = (s', Ret st') ->
  stepProgress bound budget st'.
Proof.
  revert st s; induction gns as [|gn gns IH]; intros st s Hprogress; simpl.
  - by intros Heq; inversion Heq; subst.
  - unfold bindM.
    destruct (extendPair problem q_rand cc gn st s) as [s1 [st1|e|]] eqn:Hpair;
      try discriminate.
    apply IH. by eapply extendPair_progress.
Qed.

Lemma extendComponents_progress (problem : ProblemT) q_rand ccs bound budget
    (st st' : StepT) (s s' : PlannerT) :
  stepProgress bound (List.length ccs * List.length (graphNodes problem) + budget) st ->
  extendComponents problem q_rand ccs st s = (s', Ret st') ->
  stepProgress bound budget st'.
Proof.
  revert st s; induction ccs as [|cc ccs IH]; intros st s Hprogress; simpl.
  - by intros Heq; inversion Heq; subst.
  - unfold bindM.
    destruct (extendGraphNodes problem q_rand cc (graphNodes problem) st s)
      as [s1 [st1|e|]] eqn:Hgns; try discriminate.
    apply IH. eapply extendGraphNodes_progress; [|exact Hgns].
    simpl in Hprogress.
    replace (List.length (graphNodes problem)
             + (List.length ccs * List.length (graphNodes problem) + budget))
      with (List.length (graphNodes problem)
            + List.length ccs * List.length (graphNodes problem) + budget) by lia.
    exact Hprogress.
Qed.

Lemma extensionLoop_progress (problem : ProblemT) q_rand (s s' : PlannerT)
    (r : RoadmapT) (st : StepT) :
  roadmap_ s = Some r ->
  extensionLoop problem q_rand s = (s', Ret st) ->
  stepProgress
    (List.length (connectedComponents r) * List.length (graphNodes problem)) 0 st.
Proof.
  intros Hr. unfold extensionLoop. unfold bindM at 1, onRoadmap. rewrite Hr. simpl.
  apply extendComponents_progress.
  split; [done|]. split; [constructor|]. simpl. lia.
Qed.

(** X21.  The new nodes of the extension loop of [oneStep] have
    configurations that [belongs] tells apart: a node is added only if its
    configuration does not belong to the new nodes before it; otherwise the
    edge is delayed, and every delayed edge leads to a configuration that
    belongs to the new nodes. *)
Theorem extensionLoop_new_nodes_distinct (problem : ProblemT) q_rand
    (s s' : PlannerT) (r : RoadmapT) (st : StepT) :
  roadmap_ s = Some r ->
  extensionLoop problem q_rand s = (s', Ret st) ->
  distinctFrom [] (newNodes st) = true
  /\ Forall (fun d => belongs d.1.2 (newNodes st) = true) (delayedEdges st).
Proof.
  intros Hr Hloop.
  destruct (extensionLoop_progress problem q_rand s s' r st Hr Hloop)
    as (Hdistinct & Hdelayed & _).
  done.
Qed.

(** X22.  The extension loop of [oneStep] makes at most one extension for
    each pair of a connected component of the roadmap, as they are when the
    step starts, and a node of the constraint graph: the new nodes and the
    delayed edges together are at most as many as these pairs. *)
Theorem extensionLoop_bound (problem : ProblemT) q_rand
    (s s' : PlannerT) (r : RoadmapT) (st : StepT) :
  roadmap_ s = Some r ->
  extensionLoop problem q_rand s = (s', Ret st) ->
  List.length (newNodes st) + List.length (delayedEdges st)
  <= List.length (connectedComponents r) * List.length (graphNodes problem).
Proof.
  intros Hr Hloop.
  destruct (extensionLoop_progress problem q_rand s s' r st Hr Hloop)
    as (_ & _ & Hlen).
  lia.
Qed.

End Extras.

Import Toy.

(** X19 in the concrete world: a step towards 3 on [roadmap1]. *)
Lemma oneStep_grows_roadmap_witness :
  exists r',
    roadmap_ (oneStep false (toy_problem 3 graph_validation)
                (planner1 3 graph_validation)).1 = Some r'
    /\ nodes_ roadmap1 `prefix_of` nodes_ r'
    /\ edges_ roadmap1 `prefix_of` edges_ r'.
Proof.
  apply (oneStep_grows_roadmap false (toy_problem 3 graph_validation)
           (planner1 3 graph_validation) roadmap1).
  reflexivity.
Defined.

(** X20 in the concrete world: the same step, on the planner as
    constructed. *)
Lemma oneStep_keeps_statistics_consistent_witness :
  let s := planner1 3 graph_validation in
  stat_wf (oneStep false (toy_problem 3 graph_validation) s).1
  /\ extendStep_ (oneStep false (toy_problem 3 graph_validation) s).1 = extendStep_ s.
Proof.
  intros s.
  destruct (oneStep_keeps_statistics_consistent false (toy_problem 3 graph_validation) s)
    as (Hconstructed & Hkept & Hstep).
  split; [|exact Hstep]. apply Hkept. apply Hconstructed.
Defined.

(** X21 in the concrete world: the extension loop of the same step; the
    second extension reaches the configuration of the first new node and
    is delayed. *)
Lemma extensionLoop_new_nodes_distinct_witness :
  distinctFrom [] (newNodes step1) = true
  /\ Forall (fun d => belongs d.1.2 (newNodes step1) = true) (delayedEdges step1).
Proof.
  apply (extensionLoop_new_nodes_distinct (toy_problem 3 graph_validation) 3%Q
           (planner1 3 graph_validation)
           (extensionLoop (toy_problem 3 graph_validation) 3%Q
              (planner1 3 graph_validation)).1
           roadmap1 step1).
  - reflexivity.
  - reflexivity.
Defined.

(** X22 in the concrete world: two components and two nodes of the
    constraint graph; one new node and one delayed edge. *)
Lemma extensionLoop_bound_witness :
  List.length (newNodes step1) + List.length (delayedEdges step1)
  <= List.length (connectedComponents roadmap1)
     * List.length (graphNodes (toy_problem 3 graph_validation)).
Proof.
  apply (extensionLoop_bound (toy_problem 3 graph_validation) 3%Q
           (planner1 3 graph_validation)
           (extensionLoop (toy_problem 3 graph_validation) 3%Q
              (planner1 3 graph_validation)).1
           roadmap1 step1).
  - reflexivity.
  - reflexivity.
Defined.

End StepExtras.
